(** * LocalTranslator: the subtitle model, the batch planner, the
      reconciliation step and the translation worker of [app.py]

    A shallow embedding of the pure core of [app.py] together with the
    properties of it that the specification states.

    Conventions of the embedding.
    - A Python [str] is a list of characters, one [ascii] per code point, so
      the development covers the strings whose code points lie in 0..255.
      On that range [\d] is [0-9] and [\s] (and what [str.strip] removes) is
      9..13, 28..32, 133 and 160.
    - A Python [int] is a [Z].  [int(...)] and [f"{n}"] raise [ValueError]
      for more than 4300 digits, the interpreter's default bound on the
      conversions between [int] and [str], which [app.py] never changes.
    - A subtitle, a Python dict with the four keys [number], [start_time],
      [end_time] and [text], is a record; [subtitle.copy()] followed by an
      assignment to ['text'] is a record update.
    - A raised exception is [None].
    - The Qt signals a worker emits and the calls it makes to the backend
      client are the events of a trace, in the order they happen. *)

From Stdlib Require Import String Ascii ZArith NArith Arith Bool Lia.
From Stdlib Require Import List Permutation Sorted.
From Stdlib Require Uint63 PrimFloat FloatOps SpecFloat.
Import ListNotations.
Local Open Scope list_scope.

(* ------------------------------------------------------------------ *)
(** ** Python strings *)

Module PyStr.

Definition str := list ascii.

(** A literal. *)
Definition lit (s : string) : str := list_ascii_of_string s.

Definition nl : ascii := ascii_of_nat 10.

(** [str.isspace] of one character, which is also the class [\s]. *)
Definition is_space (c : ascii) : bool :=
  let n := nat_of_ascii c in
  ((9 <=? n) && (n <=? 13)) || ((28 <=? n) && (n <=? 32))
  || (n =? 133) || (n =? 160).

(** The class [\d]. *)
Definition is_digit (c : ascii) : bool :=
  let n := nat_of_ascii c in (48 <=? n) && (n <=? 57).

(** The class [[A-Z]]. *)
Definition is_upper (c : ascii) : bool :=
  let n := nat_of_ascii c in (65 <=? n) && (n <=? 90).

Fixpoint lstrip (s : str) : str :=
  match s with
  | c :: t => if is_space c then lstrip t else s
  | [] => []
  end.

Definition rstrip (s : str) : str := rev (lstrip (rev s)).

(** [s.strip()] *)
Definition strip (s : str) : str := rstrip (lstrip s).

(** [not s.strip()] *)
Definition is_blank (s : str) : bool := forallb is_space s.

(** [s.split(sep)] for a one-character separator: never the empty list. *)
Fixpoint split_on (sep : ascii) (s : str) : list str :=
  match s with
  | [] => [[]]
  | c :: t =>
      if Ascii.eqb c sep then [] :: split_on sep t
      else match split_on sep t with
           | h :: r => (c :: h) :: r
           | [] => [[c]]
           end
  end.

(** [sep.join(l)] *)
Fixpoint join (sep : str) (l : list str) : str :=
  match l with
  | [] => []
  | x :: r => match r with
              | [] => x
              | _ :: _ => x ++ sep ++ join sep r
              end
  end.

Definition digit_val (c : ascii) : Z := Z.of_nat (nat_of_ascii c) - 48.

(** The digit part of an integer literal given to [int]: decimal digits,
    with single underscores allowed between two digits. *)
Fixpoint int_digits (s : str) (acc : Z) (after_digit : bool) : option Z :=
  match s with
  | [] => if after_digit then Some acc else None
  | c :: t =>
      if is_digit c then int_digits t (10 * acc + digit_val c) true
      else if Ascii.eqb c "_"%char && after_digit then int_digits t acc false
      else None
  end.

(** The value of an integer literal: an optional sign and the digit part.
    [None] for a string that is not a literal. *)
Definition literal_value (s : str) : option Z :=
  match s with
  | c :: t =>
      if Ascii.eqb c "+"%char then int_digits t 0 false
      else if Ascii.eqb c "-"%char then option_map Z.opp (int_digits t 0 false)
      else int_digits s 0 false
  | [] => None
  end.

(** [sys.int_info.default_max_str_digits]: the most digits that a
    conversion between [int] and [str] accepts. *)
Definition max_str_digits : nat := 4300.

(** The digits of a literal; the sign and the underscores are not
    counted. *)
Definition digit_count (s : str) : nat := length (filter is_digit s).

(** [int(s)] for a string [s] that has no surrounding whitespace, which is
    how every call site uses it (on the result of [.strip()] or on a group
    matched by [\d+]); [None] is [ValueError], raised for a string that is
    not a literal and for a literal of more than [max_str_digits] digits. *)
Definition py_int (s : str) : option Z :=
  if digit_count s <=? max_str_digits then literal_value s else None.

Definition digit_char (d : N) : ascii := ascii_of_N (48 + d).

(** The decimal digits of [n], most significant first, in front of [acc]. *)
Fixpoint digits_fuel (fuel : nat) (n : N) (acc : str) : str :=
  match fuel with
  | O => acc
  | S f =>
      let acc' := digit_char (n mod 10) :: acc in
      if (n <? 10)%N then acc' else digits_fuel f (n / 10) acc'
  end.

Definition str_of_N (n : N) : str := digits_fuel (S (N.size_nat n)) n [].

(** The decimal numeral of [z]. *)
Definition decimal (z : Z) : str :=
  if (z <? 0)%Z then "-"%char :: str_of_N (Z.abs_N z) else str_of_N (Z.abs_N z).

(** Whether [z] has at most [max_str_digits] digits. *)
Definition printable (z : Z) : bool :=
  length (str_of_N (Z.abs_N z)) <=? max_str_digits.

(** [f"{z}"] for an [int]; [None] is the [ValueError] raised for a number
    of more than [max_str_digits] digits. *)
Definition str_of_Z (z : Z) : option str :=
  if printable z then Some (decimal z) else None.

End PyStr.

Import PyStr.

(* ------------------------------------------------------------------ *)
(** ** The regular expressions of [app.py] *)

Module Re.

Fixpoint span (p : ascii -> bool) (s : str) : str * str :=
  match s with
  | c :: t => if p c then let (a, b) := span p t in (c :: a, b) else ([], s)
  | [] => ([], [])
  end.

(** *** [r'\n\s*\n'], the block separator of [parse_srt] *)

(** What follows the last newline of [w], when [w] has a newline. *)
Fixpoint after_last_nl (w : str) : option str :=
  match w with
  | [] => None
  | c :: t =>
      match after_last_nl t with
      | Some r => Some r
      | None => if Ascii.eqb c nl then Some t else None
      end
  end.

(** A match of [\n\s*\n] at the start of [s], giving what is left after it.
    The greedy [\s*] takes the whole run of whitespace after the first
    newline and backtracks to the last newline of that run. *)
Definition blank_at (s : str) : option str :=
  match s with
  | c :: t =>
      if Ascii.eqb c nl then
        let (w, r) := span is_space t in
        match after_last_nl w with
        | Some w' => Some (w' ++ r)
        | None => None
        end
      else None
  | [] => None
  end.

(** The leftmost match: the text before it and the text after it. *)
Fixpoint find_blank (s : str) : option (str * str) :=
  match blank_at s with
  | Some r => Some ([], r)
  | None =>
      match s with
      | c :: t => match find_blank t with
                  | Some (p, r) => Some (c :: p, r)
                  | None => None
                  end
      | [] => None
      end
  end.

Fixpoint blank_split_fuel (fuel : nat) (s : str) : list str :=
  match fuel with
  | O => [s]
  | S f => match find_blank s with
           | Some (p, r) => p :: blank_split_fuel f r
           | None => [s]
           end
  end.

(** [re.split(r'\n\s*\n', s)]; a match is never empty, so the length of [s]
    bounds the number of matches. *)
Definition blank_split (s : str) : list str := blank_split_fuel (length s) s.

(** *** The timestamp line of [parse_srt] *)

Inductive pat := PDigit | PChar (c : ascii).

(** A match of a sequence of single-character patterns at the start of [s]:
    the text matched and the text after it. *)
Fixpoint match_pat (p : list pat) (s : str) : option (str * str) :=
  match p with
  | [] => Some ([], s)
  | q :: p' =>
      match s with
      | [] => None
      | c :: t =>
          if match q with PDigit => is_digit c | PChar d => Ascii.eqb c d end
          then match match_pat p' t with
               | Some (m, r) => Some (c :: m, r)
               | None => None
               end
          else None
      end
  end.

(** [\d{2}:\d{2}:\d{2},\d{3}] *)
Definition time_pat : list pat :=
  [PDigit; PDigit; PChar ":"; PDigit; PDigit; PChar ":";
   PDigit; PDigit; PChar ","; PDigit; PDigit; PDigit].

Definition arrow : str := lit " --> ".

(** [re.match(r'(\d{2}:\d{2}:\d{2},\d{3}) --> (\d{2}:\d{2}:\d{2},\d{3})', line)]:
    the two groups.  [re.match] anchors at the start only. *)
Definition match_timestamp (line : str) : option (str * str) :=
  match match_pat time_pat line with
  | Some (g1, r1) =>
      match match_pat (map PChar arrow) r1 with
      | Some (_, r2) =>
          match match_pat time_pat r2 with
          | Some (g2, _) => Some (g1, g2)
          | None => None
          end
      | None => None
      end
  | None => None
  end.

(** *** [r'\[(\d+)\]'], the entry marker *)

(** A marker at the start of [s]: its digits and what follows it. *)
Definition marker_at (s : str) : option (str * str) :=
  match s with
  | c :: t =>
      if Ascii.eqb c "["%char then
        let (d, r) := span is_digit t in
        match d, r with
        | _ :: _, c' :: r' => if Ascii.eqb c' "]"%char then Some (d, r') else None
        | _, _ => None
        end
      else None
  | [] => None
  end.

(** The leftmost marker: the text before it, its digits, the text after. *)
Fixpoint find_marker (s : str) : option (str * str * str) :=
  match marker_at s with
  | Some (d, r) => Some ([], d, r)
  | None =>
      match s with
      | c :: t => match find_marker t with
                  | Some (p, d, r) => Some (c :: p, d, r)
                  | None => None
                  end
      | [] => None
      end
  end.

Fixpoint split_markers_fuel (fuel : nat) (s : str) : list str :=
  match fuel with
  | O => [s]
  | S f => match find_marker s with
           | Some (p, d, r) => p :: d :: split_markers_fuel f r
           | None => [s]
           end
  end.

(** [re.split(r'\[(\d+)\]', s)]: the texts between the markers, with the
    digits of each marker (the group) between its neighbours. *)
Definition split_markers (s : str) : list str :=
  split_markers_fuel (length s) s.

(** The text up to the next marker (or to the end), and the text from that
    marker on. *)
Fixpoint until_marker (s : str) : str * str :=
  match marker_at s with
  | Some _ => ([], s)
  | None =>
      match s with
      | c :: t => let (p, r) := until_marker t in (c :: p, r)
      | [] => ([], [])
      end
  end.

Fixpoint findall_markers_fuel (fuel : nat) (s : str) : list (str * str) :=
  match fuel with
  | O => []
  | S f => match find_marker s with
           | Some (_, d, r) =>
               let (content, r') := until_marker (lstrip r) in
               (d, content) :: findall_markers_fuel f r'
           | None => []
           end
  end.

(** [re.findall(r'\[(\d+)\]\s*(.*?)(?=\[\d+\]|\Z)', s, re.DOTALL)]: for each
    marker its digits and, after the whitespace that follows it, the text up
    to the next marker or the end. *)
Definition findall_markers (s : str) : list (str * str) :=
  findall_markers_fuel (length s) s.

End Re.

(* ------------------------------------------------------------------ *)
(** ** [class SrtParser] *)

Record subtitle := mk_subtitle {
  number : Z;
  start_time : str;
  end_time : str;
  text : str
}.

Definition set_text (s : subtitle) (t : str) : subtitle :=
  {| number := number s; start_time := start_time s;
     end_time := end_time s; text := t |}.

Module SrtParser.

(** The body of the loop of [parse_srt] for one block: [None] is
    [continue]. *)
Definition parse_block (block : str) : option subtitle :=
  if is_blank block then None
  else
    let lines := split_on nl (strip block) in
    if length lines <? 3 then None
    else
      match py_int (strip (nth 0 lines [])) with
      | None => None
      | Some subtitle_number =>
          match Re.match_timestamp (nth 1 lines []) with
          | None => None
          | Some (start, stop) =>
              Some {| number := subtitle_number;
                      start_time := start;
                      end_time := stop;
                      text := join [nl] (skipn 2 lines) |}
          end
      end.

Fixpoint parse_blocks (blocks : list str) : list subtitle :=
  match blocks with
  | [] => []
  | b :: rest =>
      match parse_block b with
      | Some s => s :: parse_blocks rest
      | None => parse_blocks rest
      end
  end.

Definition parse_srt (srt_content : str) : list subtitle :=
  parse_blocks (Re.blank_split (strip srt_content)).

(** The loop of [format_srt]: the four strings appended for each subtitle.
    [None] is the [ValueError] of [f"{subtitle['number']}"]. *)
Fixpoint format_lines (subtitles : list subtitle) : option (list str) :=
  match subtitles with
  | [] => Some []
  | subtitle :: rest =>
      match str_of_Z (number subtitle) with
      | None => None
      | Some n =>
          match format_lines rest with
          | None => None
          | Some srt_content =>
              Some (n :: (start_time subtitle ++ Re.arrow ++ end_time subtitle)
                      :: text subtitle :: [] :: srt_content)
          end
      end
  end.

Definition format_srt (subtitles : list subtitle) : option str :=
  match format_lines subtitles with
  | None => None
  | Some srt_content => Some (join [nl] srt_content)
  end.

(** [range(start, stop, step)]; [None] is the [ValueError] for a zero
    step. *)
Definition py_range (start stop step : Z) : option (list Z) :=
  if (step =? 0)%Z then None
  else
    let n :=
      if (0 <? step)%Z then
        if (start <? stop)%Z then (1 + (stop - 1 - start) / step)%Z else 0%Z
      else
        if (stop <? start)%Z then (1 + (start - 1 - stop) / (- step))%Z else 0%Z
    in
    Some (map (fun k => (start + Z.of_nat k * step)%Z) (seq 0 (Z.to_nat n))).

(** A slice bound brought into [0 .. len]. *)
Definition slice_index (len k : Z) : nat :=
  Z.to_nat (if (k <? 0)%Z then Z.max 0 (k + len) else Z.min k len).

(** [l[i:j]] *)
Definition py_slice {A} (l : list A) (i j : Z) : list A :=
  let len := Z.of_nat (length l) in
  let a := slice_index len i in
  let b := slice_index len j in
  firstn (b - a) (skipn a l).

Definition create_batches {A} (subtitles : list A) (batch_size : Z)
  : option (list (list A)) :=
  match py_range 0 (Z.of_nat (length subtitles)) batch_size with
  | None => None
  | Some starts =>
      Some (map (fun i => py_slice subtitles i (i + batch_size)) starts)
  end.

End SrtParser.

(* ------------------------------------------------------------------ *)
(** ** Reconciliation of one batch with the text the backend returned

    Both [_translate_subtitles] methods of [app.py] (the one of
    [TranslationWorker], which [run] calls, and the one that sits in
    [KoboldCppClient]) end their loop body with the same three steps: match
    each marker with a subtitle of the batch, add the subtitles that were not
    matched, sort by number. *)

Definition mem_number (n : Z) (l : list Z) : bool := existsb (Z.eqb n) l.

(** [for subtitle in current_subtitles:
       if subtitle['number'] == subtitle_num: ...append(copy); break] *)
Fixpoint translate_marker (current_subtitles : list subtitle)
    (subtitle_num : Z) (content : str) : list subtitle :=
  match current_subtitles with
  | [] => []
  | s :: rest =>
      if (number s =? subtitle_num)%Z then [set_text s content]
      else translate_marker rest subtitle_num content
  end.

(** [batch_numbers = [s['number'] for s in translated_batch]
    for subtitle in current_subtitles:
        if subtitle['number'] not in batch_numbers:
            translated_batch.append(subtitle)] *)
Definition fill_gaps (current_subtitles translated_batch : list subtitle)
  : list subtitle :=
  let batch_numbers := map number translated_batch in
  translated_batch ++
  filter (fun s => negb (mem_number (number s) batch_numbers)) current_subtitles.

Fixpoint insert_by_number (x : subtitle) (l : list subtitle) : list subtitle :=
  match l with
  | [] => [x]
  | y :: r =>
      if (number x <=? number y)%Z then x :: l else y :: insert_by_number x r
  end.

(** [translated_batch.sort(key=lambda x: x['number'])]: [list.sort] is
    stable, and a stable sort has one possible result. *)
Definition sort_by_number (l : list subtitle) : list subtitle :=
  fold_right insert_by_number [] l.

Module TranslationWorker.

(** [i = 1
    while i < len(translated_parts) - 1:
        subtitle_num = int(translated_parts[i])
        translated_text_content = translated_parts[i + 1].strip()
        ...
        i += 2]
    run on the parts from index [i] on: the loop goes on exactly as long as
    two more parts are left. *)
Fixpoint marker_loop (current_subtitles : list subtitle) (parts : list str)
    (translated_batch : list subtitle) : option (list subtitle) :=
  match parts with
  | num :: content :: rest =>
      match py_int num with
      | None => None
      | Some subtitle_num =>
          marker_loop current_subtitles rest
            (translated_batch ++
             translate_marker current_subtitles subtitle_num (strip content))
      end
  | _ => Some translated_batch
  end.

(** Lines 348-377 of [TranslationWorker._translate_subtitles]. *)
Definition reconcile (batch : list subtitle) (translated_text : str)
  : option (list subtitle) :=
  let translated_parts := Re.split_markers translated_text in
  match marker_loop batch (tl translated_parts) [] with
  | None => None
  | Some translated_batch =>
      Some (sort_by_number (fill_gaps batch translated_batch))
  end.

(** What the worker does that the caller can observe, in order; [Raised]
    is an exception that leaves [run]. *)
Inductive event :=
| TranslateText (batch_index : nat) (batch_text : str)
| BatchCompleted (batch_index : nat) (translated_batch : list subtitle)
| ProgressUpdated (percent : Z)
| Sleep (seconds : Z)
| TranslationFinished (success : bool) (message : str)
| Raised.

(** [batch_text = ""
    for subtitle in batch:
        batch_text += f"[{subtitle['number']}] {subtitle['text']}\n\n"];
    [None] is the [ValueError] of the conversion of a number. *)
Fixpoint batch_text (batch : list subtitle) : option str :=
  match batch with
  | [] => Some []
  | subtitle :: rest =>
      match str_of_Z (number subtitle) with
      | None => None
      | Some n =>
          match batch_text rest with
          | None => None
          | Some more =>
              Some (lit "[" ++ n ++ lit "] " ++ text subtitle ++ [nl; nl]
                    ++ more)
          end
      end
  end.

(** [int(x)] for a float [x] that is finite and not negative. *)
Definition int_of_float (x : PrimFloat.float) : Z :=
  match FloatOps.Prim2SF x with
  | SpecFloat.S754_finite false m e => Z.shiftl (Z.pos m) e
  | _ => 0%Z
  end.

Definition float_of_nat (n : nat) : PrimFloat.float :=
  PrimFloat.of_uint63 (Uint63.of_Z (Z.of_nat n)).

(** [int(done / total * 100)] in the floating-point arithmetic of Python,
    for two counts below 2^53, which are floats as they are. *)
Definition progress_percent (done total : nat) : Z :=
  int_of_float
    (PrimFloat.mul (PrimFloat.div (float_of_nat done) (float_of_nat total))
       (float_of_nat 100)).

Section Worker.

(** What [self.client.translate_text(batch_text, self.source_lang,
    self.target_lang)] does with the request made for the batch of a given
    index: the pair it returns, or [None] when it raises; the two languages
    are the same for every request of a job. *)
Variable translate_text : nat -> str -> option (bool * str).

(** The value of [self.abort] read at the top of the iteration of a given
    index; [stop] sets it from another thread. *)
Variable abort : nat -> bool.

Variable delay : Z.

(** [int((batch_index + 1) / len(batches) * 100)], a floating-point
    computation, as a function of [batch_index + 1] and [len(batches)]. *)
Variable percent : nat -> nat -> Z.

(** The [for] loop of [_translate_subtitles] from the batch of index
    [batch_index] on, followed by the two statements after the loop. *)
Fixpoint translate_loop (total batch_index : nat)
    (batches : list (list subtitle)) (translated_subtitles : list subtitle)
  : list event :=
  match batches with
  | [] =>
      match SrtParser.format_srt translated_subtitles with
      | None => [Raised]
      | Some translated_srt => [TranslationFinished true translated_srt]
      end
  | batch :: rest =>
      if abort batch_index then
        [TranslationFinished false (lit "Translation aborted")]
      else
        match batch_text batch with
        | None => [Raised]
        | Some text =>
            TranslateText batch_index text ::
            match translate_text batch_index text with
            | None => [Raised]
            | Some (success, translated_text) =>
                if negb success then
                  [TranslationFinished false
                     (lit "Translation failed: " ++ translated_text)]
                else
                  match reconcile batch translated_text with
                  | None => [Raised]
                  | Some translated_batch =>
                      BatchCompleted batch_index translated_batch ::
                      ProgressUpdated (percent (batch_index + 1) total) ::
                      (if (0 <? delay)%Z && (batch_index <? total - 1)
                       then [Sleep delay] else []) ++
                      translate_loop total (S batch_index) rest
                        (translated_subtitles ++ translated_batch)
                  end
            end
        end
  end.

Definition _translate_subtitles (subtitles : list subtitle) (batch_size : Z)
  : list event :=
  match SrtParser.create_batches subtitles batch_size with
  | None => [Raised]
  | Some batches => translate_loop (length batches) 0 batches []
  end.

End Worker.

End TranslationWorker.

Module KoboldCppClient.

(** [for subtitle_num_str, translated_text_content in translated_parts:
        try: subtitle_num = int(subtitle_num_str) ...
        except ValueError: continue] *)
Fixpoint marker_loop (current_subtitles : list subtitle)
    (translated_parts : list (str * str)) (translated_batch : list subtitle)
  : list subtitle :=
  match translated_parts with
  | [] => translated_batch
  | (num, content) :: rest =>
      match py_int num with
      | None => marker_loop current_subtitles rest translated_batch
      | Some subtitle_num =>
          marker_loop current_subtitles rest
            (translated_batch ++
             translate_marker current_subtitles subtitle_num (strip content))
      end
  end.

(** [re.match(r'^[A-Z]', line)] *)
Definition starts_upper (line : str) : bool :=
  match line with c :: _ => is_upper c | [] => false end.

Definition nonempty (s : str) : bool :=
  match s with [] => false | _ :: _ => true end.

(** The loop that joins the lines of one sentence, and the [if current_line]
    after it. *)
Fixpoint combine_lines (non_empty_lines : list str) (current_line : str)
    (combined_lines : list str) : list str :=
  match non_empty_lines with
  | [] =>
      if nonempty current_line then combined_lines ++ [current_line]
      else combined_lines
  | line :: rest =>
      if starts_upper line && nonempty current_line then
        combine_lines rest line (combined_lines ++ [current_line])
      else if nonempty current_line then
        combine_lines rest (current_line ++ lit " " ++ line) combined_lines
      else combine_lines rest line combined_lines
  end.

(** [for i, subtitle in enumerate(current_subtitles):
        translated_subtitle['text'] = non_empty_lines[i].strip()]
    from index [i] on; [None] is [IndexError]. *)
Fixpoint assign_lines (current_subtitles : list subtitle)
    (non_empty_lines : list str) (i : nat) : option (list subtitle) :=
  match current_subtitles with
  | [] => Some []
  | s :: rest =>
      match nth_error non_empty_lines i with
      | None => None
      | Some line =>
          match assign_lines rest non_empty_lines (S i) with
          | None => None
          | Some r => Some (set_text s (strip line) :: r)
          end
      end
  end.

(** [for i, subtitle in enumerate(current_subtitles):
        if i < len(combined_lines): text = combined_lines[i].strip()
        else: text = subtitle['text']]
    from index [i] on. *)
Fixpoint assign_combined (current_subtitles : list subtitle)
    (combined_lines : list str) (i : nat) : list subtitle :=
  match current_subtitles with
  | [] => []
  | s :: rest =>
      match nth_error combined_lines i with
      | Some line => set_text s (strip line)
      | None => set_text s (text s)
      end :: assign_combined rest combined_lines (S i)
  end.

(** The branch taken when the pattern extracts nothing.  The test
    [0.5 <= len(non_empty_lines) / len(current_subtitles) <= 2.0] divides
    two lengths in floating point, which raises [ZeroDivisionError] for an
    empty batch and otherwise compares as the exact quotient does. *)
Definition fallback (current_subtitles : list subtitle) (translated_text : str)
  : option (list subtitle) :=
  let lines := split_on nl translated_text in
  let non_empty_lines := filter (fun line => negb (is_blank line)) lines in
  let n := length non_empty_lines in
  let m := length current_subtitles in
  if m =? 0 then None
  else if (m <=? 2 * n) && (n <=? 2 * m) then
    if n =? m then assign_lines current_subtitles non_empty_lines 0
    else Some (assign_combined current_subtitles
                 (combine_lines non_empty_lines [] []) 0)
  else Some [].

(** Lines 208-279 of [KoboldCppClient._translate_subtitles]. *)
Definition reconcile (batch : list subtitle) (translated_text : str)
  : option (list subtitle) :=
  let translated_parts := Re.findall_markers (translated_text ++ [nl]) in
  match
    match translated_parts with
    | [] => fallback batch translated_text
    | _ :: _ => Some (marker_loop batch translated_parts [])
    end
  with
  | None => None
  | Some translated_batch =>
      Some (sort_by_number (fill_gaps batch translated_batch))
  end.

End KoboldCppClient.

(* ------------------------------------------------------------------ *)
(** ** [class KoboldCppClient]: a request and the clean-up of its answer *)

Module Backend.

(** A match of [\s*/\s*] at the start of [s], giving what is left after it:
    the whole run of whitespace, a slash, the whole run of whitespace. *)
Definition slash_at (s : str) : option str :=
  match snd (Re.span is_space s) with
  | c :: r => if Ascii.eqb c "/"%char then Some (snd (Re.span is_space r))
              else None
  | [] => None
  end.

Fixpoint sub_slash_fuel (fuel : nat) (s : str) : str :=
  match fuel with
  | O => s
  | S f =>
      match s with
      | [] => []
      | c :: t =>
          match slash_at s with
          | Some rest => nl :: sub_slash_fuel f rest
          | None => c :: sub_slash_fuel f t
          end
      end
  end.

(** [re.sub(r'\s*/\s*', '\n', s)]; every match takes at least the slash. *)
Definition sub_slash (s : str) : str := sub_slash_fuel (length s) s.

(** [s] without the prefix [p], when it starts with [p]. *)
Fixpoint strip_prefix (p s : str) : option str :=
  match p with
  | [] => Some s
  | a :: p' =>
      match s with
      | c :: t => if Ascii.eqb c a then strip_prefix p' t else None
      | [] => None
      end
  end.

(** Whether a run of characters ends with a newline. *)
Definition ends_with_nl (w : str) : bool :=
  match rev w with
  | c :: _ => Ascii.eqb c nl
  | [] => false
  end.

(** [at_start] tells whether the position is the start of the text or
    follows a newline, which is where [^] matches with [re.MULTILINE]. *)
Fixpoint sub_output_fuel (fuel : nat) (at_start : bool) (s : str) : str :=
  match fuel with
  | O => s
  | S f =>
      match s with
      | [] => []
      | c :: t =>
          match (if at_start then strip_prefix (lit "Output:") s else None) with
          | Some r =>
              let (w, r') := Re.span is_space r in
              sub_output_fuel f (ends_with_nl w) r'
          | None => c :: sub_output_fuel f (Ascii.eqb c nl) t
          end
      end
  end.

(** [re.sub(r'^Output:\s*', '', s, flags=re.MULTILINE)] *)
Definition sub_output (s : str) : str := sub_output_fuel (length s) true s.

(** The body of the loop over the lines:
    [re.match(r'^\s*\[(\d+)\]\s*(.*?)$', line)] on a line that is not blank,
    and the line [f"[{subtitle_num}] {content}"] when it matches. *)
Definition process_line (line : str) : str :=
  if is_blank line then line
  else
    match Re.marker_at (lstrip line) with
    | Some (subtitle_num, rest) =>
        lit "[" ++ subtitle_num ++ lit "] " ++ lstrip rest
    | None => line
    end.

Definition _clean_translation (text : str) : str :=
  let cleaned_text := sub_output (sub_slash text) in
  join [nl] (map process_line (split_on nl cleaned_text)).

(** [s.endswith(suffix)] *)
Definition endswith (s suffix : str) : bool :=
  match strip_prefix (rev suffix) (rev s) with
  | Some _ => true
  | None => false
  end.

Definition stop_sequence : list str :=
  [lit "<end_of_turn>"; lit "<start_of_turn>"].

(** [for stop_seq in ...: if translation.endswith(stop_seq):
        translation = translation[:-len(stop_seq)]] *)
Fixpoint strip_stop_sequences (stops : list str) (translation : str) : str :=
  match stops with
  | [] => translation
  | stop_seq :: rest =>
      strip_stop_sequences rest
        (if endswith translation stop_seq
         then firstn (length translation - length stop_seq) translation
         else translation)
  end.

Definition prompt (text source_lang target_lang : str) : str :=
  lit "<bos><start_of_turn>user" ++ [nl] ++
  lit "Translate the following text from " ++ source_lang ++ lit " to " ++
  target_lang ++
  lit ". Provide only one translation per entry. Do not include alternative translations or explanations:" ++
  [nl; nl] ++ text ++ lit "<end_of_turn>" ++ [nl] ++
  lit "<start_of_turn>model" ++ [nl].

(** A value decoded from JSON: [None], a [bool], a number (its value plays
    no part here), a [str], a [list], or a [dict], given by its members in
    the order of the document. *)
Local Unset Elimination Schemes.

Inductive json :=
| JNull
| JBool (b : bool)
| JNumber (literal : str)
| JString (s : str)
| JArray (items : list json)
| JObject (members : list (str * json)).

Local Set Elimination Schemes.

Fixpoint str_eqb (a b : str) : bool :=
  match a, b with
  | [], [] => true
  | x :: a', y :: b' => Ascii.eqb x y && str_eqb a' b'
  | _, _ => false
  end.

(** [d.get(key)] for the [dict] decoded from an object: of two members
    with the same key the decoder keeps the later one. *)
Fixpoint dict_get (key : str) (members : list (str * json)) : option json :=
  match members with
  | [] => None
  | (k, v) :: rest =>
      match dict_get key rest with
      | Some later => Some later
      | None => if str_eqb k key then Some v else None
      end
  end.

(** [result.get('results', [{}])[0].get('text', '')].  [None] is the
    exception raised on the way: [AttributeError] when [result] or the item
    taken from the results is not a [dict], [IndexError] for an empty list
    or string of results, [KeyError] for a [dict] of results, [TypeError]
    for results that cannot be indexed. *)
Definition get_text (result : json) : option json :=
  match result with
  | JObject members =>
      let results :=
        match dict_get (lit "results") members with
        | Some v => v
        | None => JArray [JObject []]
        end in
      match results with
      | JArray (JObject first :: _) =>
          Some (match dict_get (lit "text") first with
                | Some v => v
                | None => JString []
                end)
      | _ => None
      end
  | _ => None
  end.

(** What [response.json()] does: it returns the decoded body or raises.
    For a body that is not JSON the exception is one of [requests] from its
    version 2.27 on, and a plain [ValueError] before. *)
Inductive json_outcome :=
| Decoded (result : json)
| JsonRequestException (message : str)
| JsonValueError.

(** What [requests.post] gives: an exception of [requests], or a response
    with its status code and what [response.json()] does on it. *)
Inductive http_result :=
| RequestException (message : str)
| Response (status_code : Z) (body : json_outcome).

(** [translate_text] for a client whose [connected] attribute is
    [connected], over what the server does with a prompt and its budget
    [max_new_tokens]: the request made, if any, and the pair returned, or
    [None] for an exception that the method does not catch (it catches
    those of [requests] only). *)
Definition translate_text (connected : bool)
    (post : str -> nat -> http_result) (text source_lang target_lang : str)
  : option (str * nat) * option (bool * str) :=
  if negb connected then (None, Some (false, lit "Not connected to server"))
  else
    let request := (prompt text source_lang target_lang, length text * 3) in
    (Some request,
     match post (fst request) (snd request) with
     | Response status_code body =>
         if (status_code =? 200)%Z then
           match body with
           | Decoded result =>
               match get_text result with
               | Some (JString translation) =>
                   Some (true,
                         strip (_clean_translation
                                  (strip_stop_sequences stop_sequence
                                     translation)))
               | _ => None
               end
           | JsonRequestException message => Some (false, message)
           | JsonValueError => None
           end
         else
           match str_of_Z status_code with
           | Some code =>
               Some (false, lit "Server responded with status code: " ++ code)
           | None => None
           end
     | RequestException message => Some (false, message)
     end).

End Backend.

(* ------------------------------------------------------------------ *)
(** ** [TranslationWorker.run] and the free-text mode *)

Module WorkerModes.

Import TranslationWorker.

Section Modes.

Variable translate_text : nat -> str -> option (bool * str).
Variable abort : nat -> bool.
Variable delay : Z.
Variable percent : nat -> nat -> Z.



End Modes.

End WorkerModes.

(* ------------------------------------------------------------------ *)
(** ** [class TranslationApp]: what the window does with the notifications *)

Module TranslationApp.

(** The two attributes the slots of a subtitle job write:
    [self.translated_subtitles] and the text of [srt_target_text_edit]. *)
Record window := {
  translated_subtitles : list subtitle;
  srt_target_text : str
}.

(** [translate_srt] clears both before it starts the worker. *)
Definition cleared : window :=
  {| translated_subtitles := []; srt_target_text := [] |}.

(** [None] is the exception of [format_srt], which leaves the slot. *)
Definition handle_batch_completed (w : window)
    (translated_batch : list subtitle) : option window :=
  let all := translated_subtitles w ++ translated_batch in
  match SrtParser.format_srt all with
  | None => None
  | Some partial_srt =>
      Some {| translated_subtitles := all; srt_target_text := partial_srt |}
  end.

Definition handle_srt_translation_finished (w : window) (success : bool)
    (result : str) : window :=
  if success then
    {| translated_subtitles := translated_subtitles w;
       srt_target_text := result |}
  else w.

(** The slot connected to each signal of the worker. *)
Definition deliver (w : window) (e : TranslationWorker.event)
  : option window :=
  match e with
  | TranslationWorker.BatchCompleted _ translated_batch =>
      handle_batch_completed w translated_batch
  | TranslationWorker.TranslationFinished success result =>
      Some (handle_srt_translation_finished w success result)
  | _ => Some w
  end.

(** The notifications of a trace delivered in order, up to the first slot
    that raises. *)
Fixpoint deliver_all (w : window) (trace : list TranslationWorker.event)
  : option window :=
  match trace with
  | [] => Some w
  | e :: rest =>
      match deliver w e with
      | None => None
      | Some w' => deliver_all w' rest
      end
  end.

(** [c.lower()] of one character. *)
Definition lower (c : ascii) : ascii :=
  let n := nat_of_ascii c in
  if ((65 <=? n) && (n <=? 90))
     || ((192 <=? n) && (n <=? 222) && negb (n =? 215))
  then ascii_of_nat (n + 32) else c.

(** [if not file_path.lower().endswith('.srt'): file_path += '.srt'] of
    [export_srt]. *)
Definition export_path (file_path : str) : str :=
  if Backend.endswith (map lower file_path) (lit ".srt") then file_path
  else file_path ++ lit ".srt".

(** [update_srt_stats]: the text of the label and whether the button is
    enabled.  [f"Entries: {len(subtitles)}"] prints a length, which is below
    [sys.maxsize] and so has far fewer digits than the conversion allows. *)
Definition update_srt_stats (connected : bool) (text : str) : str * bool :=
  if is_blank text then (lit "Entries: 0", false)
  else
    let subtitles := SrtParser.parse_srt text in
    (lit "Entries: " ++ decimal (Z.of_nat (length subtitles)),
     (0 <? length subtitles) && connected).

End TranslationApp.

(* ------------------------------------------------------------------ *)
(** ** Notions used in the statements *)

(** The number of batches for a positive batch size. *)
Definition batch_count (len n : nat) : nat :=
  if len =? 0 then 0 else S ((len - 1) / n).

(** The value of a string of decimal digits. *)
Definition digits_value (d : str) : Z :=
  fold_left (fun a c => (10 * a + digit_val c)%Z) d 0%Z.

Definition all_digits (d : str) : Prop :=
  d <> [] /\ forallb is_digit d = true.

(** Consecutive pairs of a list. *)
Fixpoint pairs (l : list str) : list (str * str) :=
  match l with
  | a :: b :: r => (a, b) :: pairs r
  | _ => []
  end.

Definition with_value (m : str * str) : Z * str :=
  (digits_value (fst m), snd m).

(** The markers that [TranslationWorker] finds in a response: the number of
    each, and with it the text from the marker to the next one or to the
    end. *)
Definition markers (response : str) : list (Z * str) :=
  map with_value (pairs (tl (Re.split_markers response))).

(** A marker whose digits [int] accepts. *)
Definition readable (m : str * str) : bool :=
  length (fst m) <=? max_str_digits.

(** No marker of the response has more than [max_str_digits] digits. *)
Definition short_markers (response : str) : bool :=
  forallb readable (pairs (tl (Re.split_markers response))).

(** The markers that the method in [KoboldCppClient] finds and does not
    skip: the text of a marker starts after the whitespace that follows
    it. *)
Definition findall_results (response : str) : list (Z * str) :=
  map with_value (filter readable (Re.findall_markers (response ++ [nl]))).

Definition marker_numbers (ms : list (Z * str)) : list Z := map fst ms.

(** The texts of the markers numbered [n], in order. *)
Definition contents_of (n : Z) (ms : list (Z * str)) : list str :=
  map snd (filter (fun m => (fst m =? n)%Z) ms).

Definition numbered (n : Z) (s : subtitle) : bool := (number s =? n)%Z.

(** What the marker loops build from a list of markers. *)
Definition translated_entries (batch : list subtitle) (ms : list (Z * str))
  : list subtitle :=
  flat_map (fun m => translate_marker batch (fst m) (strip (snd m))) ms.

Definition reconciled (batch : list subtitle) (ms : list (Z * str))
  : list subtitle :=
  sort_by_number (fill_gaps batch (translated_entries batch ms)).

(** The non-blank lines of a response. *)
Definition non_empty_lines (response : str) : list str :=
  filter (fun line => negb (is_blank line)) (split_on nl response).

Definition ascending (l : list subtitle) : Prop :=
  Sorted (fun a b => (number a <= number b)%Z) l.

(** The text is the parts of [re.split] with the brackets put back. *)
Fixpoint unsplit (parts : list str) : str :=
  match parts with
  | [] => []
  | p :: rest =>
      match rest with
      | d :: rest' => p ++ lit "[" ++ d ++ lit "]" ++ unsplit rest'
      | [] => p
      end
  end.

(** The markers whose number is in the batch. *)
Definition matched_markers (batch : list subtitle) (ms : list (Z * str))
  : list Z :=
  filter (fun n => mem_number n (map number batch)) (marker_numbers ms).

(** The numbers of the batch, with repetitions, that some marker carries. *)
Definition matched_numbers (batch : list subtitle) (ms : list (Z * str))
  : list Z :=
  filter (fun n => mem_number n (marker_numbers ms)) (map number batch).

(** An entry with its text replaced by a line, trimmed. *)
Definition retext (p : subtitle * str) : subtitle :=
  set_text (fst p) (strip (snd p)).




(** Backends and flags for the examples: a backend that returns the batch
    text it is given and fails from the batch of index [k] on, and a flag
    that is raised when the batch of index [k] is about to be sent. *)
Definition failing_from (k : nat) (i : nat) (batch_text : str)
  : option (bool * str) :=
  if i <? k then Some (true, batch_text) else Some (false, lit "timeout").


Definition raised_from (k : nat) (i : nat) : bool := k <=? i.

Definition never_raised (i : nat) : bool := false.

(** A string that [\d{2}:\d{2}:\d{2},\d{3}] matches from its first to its
    last character. *)
Definition is_time (t : str) : Prop :=
  Re.match_pat Re.time_pat t = Some (t, []).

(** No line of the text is empty or made of whitespace only; such a text
    is not empty. *)
Definition lines_not_blank (t : str) : Prop :=
  Forall (fun line => is_blank line = false) (split_on nl t).

(** An entry with timestamps of the right form and a text without blank
    lines. *)
Record plain_entry (e : subtitle) : Prop := {
  plain_start : is_time (start_time e);
  plain_end : is_time (end_time e);
  plain_text : lines_not_blank (text e)
}.

(** A plain entry whose text does not end with whitespace. *)
Record trimmed_entry (e : subtitle) : Prop := {
  trimmed_plain : plain_entry e;
  trimmed_text : rstrip (text e) = text e
}.

(** What [format_srt] and the loop of [batch_text] write when no number has
    too many digits. *)
Definition serial_lines (s : subtitle) : list str :=
  [decimal (number s); start_time s ++ Re.arrow ++ end_time s; text s; []].

Definition serialized (subtitles : list subtitle) : str :=
  join [nl] (flat_map serial_lines subtitles).

Definition batch_request (batch : list subtitle) : str :=
  flat_map
    (fun s => lit "[" ++ decimal (number s) ++ lit "] " ++ text s ++ [nl; nl])
    batch.

(** Every entry has a number of at most [max_str_digits] digits. *)
Definition printable_entries (l : list subtitle) : bool :=
  forallb (fun s => printable (number s)) l.

(** The three parts of an entry as [format_srt] writes them. *)
Definition entry_lines (e : subtitle) : list str :=
  [decimal (number e); start_time e ++ Re.arrow ++ end_time e; text e].

Definition entry_block (e : subtitle) : str := join [nl] (entry_lines e).

(** The documents in canonical form: each entry written as its number in
    decimal, of at most [max_str_digits] digits, its timestamp line with
    nothing after the second timestamp, and its text, every line ended by a
    newline; one empty line between two entries. *)
Inductive canonical_document : str -> Prop :=
| canonical_empty : canonical_document []
| canonical_last (e : subtitle) :
    trimmed_entry e -> printable (number e) = true ->
    canonical_document (entry_block e ++ [nl])
| canonical_more (e : subtitle) (x : str) :
    trimmed_entry e -> printable (number e) = true ->
    canonical_document x -> x <> [] ->
    canonical_document (entry_block e ++ [nl; nl] ++ x).

(** The grammar of the specification (sections 4.1 and 6), in its words:
    a block is a line that parses as an integer, a timestamp line, and one
    or more lines of text; a document is blocks separated by blank lines. *)
Definition grammar_block (b : str) : Prop :=
  exists number_line n start stop text_lines,
    py_int number_line = Some n /\
    is_time start /\ is_time stop /\
    text_lines <> [] /\
    Forall (fun line => is_blank line = false /\ ~ In nl line) text_lines /\
    b = join [nl] (number_line :: (start ++ Re.arrow ++ stop) :: text_lines).

Definition grammar_document (x : str) : Prop :=
  exists blocks,
    Forall grammar_block blocks /\ x = join [nl; nl] blocks.

(** A one-character pattern that does not match a newline. *)
Definition pat_free (q : Re.pat) : Prop :=
  match q with Re.PDigit => True | Re.PChar d => d <> nl end.

(** A line: not blank, and without a newline. *)
Definition proper_line (l : str) : Prop :=
  is_blank l = false /\ ~ In nl l.

(** A block: proper lines joined by newlines. *)
Definition proper_block (b : str) : Prop :=
  exists ls, ls <> [] /\ Forall proper_line ls /\ b = join [nl] ls.

(** All the lines of an entry as [format_srt] writes it. *)
Definition entry_all_lines (e : subtitle) : list str :=
  decimal (number e) :: (start_time e ++ Re.arrow ++ end_time e)
  :: split_on nl (text e).

(** A text whose first and last characters are not whitespace. *)
Definition clean_ends (s : str) : Prop :=
  exists c t u d,
    s = c :: t /\ s = u ++ [d] /\ is_space c = false /\ is_space d = false.

(** The text [c] follows a marker numbered [n] in the response and runs
    up to the next marker or to the end of the response. *)
Definition follows_marker (response : str) (n : Z) (c : str) : Prop :=
  exists before d rest,
    response = before ++ lit "[" ++ d ++ lit "]" ++ c ++ rest /\
    all_digits d /\ digits_value d = n /\
    Re.find_marker c = None /\
    (rest = [] \/ exists m, Re.marker_at rest = Some m).

(** The entries of the batches reported as completed, in order, and the
    pauses of a trace. *)
Definition completed_entries (trace : list TranslationWorker.event)
  : list subtitle :=
  flat_map (fun e => match e with
                     | TranslationWorker.BatchCompleted _ tb => tb
                     | _ => []
                     end) trace.



(** The batch [b] of index [j] gets translated: the flag is down when its
    turn comes, its text can be written, the backend answers the request
    with success, and no marker of the answer has more digits than [int]
    accepts. *)
Definition translated (translate_text : nat -> str -> option (bool * str))
    (abort : nat -> bool) (j : nat) (b : list subtitle) : Prop :=
  abort j = false /\
  exists request answer,
    TranslationWorker.batch_text b = Some request /\
    translate_text j request = Some (true, answer) /\
    short_markers answer = true.

(** An entry of the output that carries the number and the timestamps of an
    entry of the batch. *)
Definition same_slot (s o : subtitle) : Prop :=
  number o = number s /\ start_time o = start_time s /\
  end_time o = end_time s.

(** A marker with its text trimmed, which is all the marker loops use of
    it. *)
Definition trim_snd {A : Type} (m : A * str) : A * str :=
  (fst m, strip (snd m)).

(** A text without a slash, a colon or an opening bracket. *)
Definition plain_answer (s : str) : Prop :=
  ~ In "/"%char s /\ ~ In ":"%char s /\ ~ In "["%char s.

(** What follows the marker of an entry in the text sent to the backend. *)
Definition prompt_piece (s : subtitle) : str :=
  lit " " ++ text s ++ [nl; nl].

(* ------------------------------------------------------------------ *)
(** ** Examples *)

Definition ts1 : str := lit "00:00:01,000".
Definition ts2 : str := lit "00:00:02,000".
Definition sub (n : Z) (t : string) : subtitle :=
  {| number := n; start_time := ts1; end_time := ts2; text := lit t |}.

Example reconcile_spec_example_1 :
  TranslationWorker.reconcile [sub 1 "Hello"; sub 2 "World"]
    (lit "[1] Bonjour" ++ [nl; nl] ++ lit "[2] Monde" ++ [nl])
  = Some [sub 1 "Bonjour"; sub 2 "Monde"].
Proof. reflexivity. Qed.

Example reconcile_spec_example_2 :
  TranslationWorker.reconcile [sub 1 "A"; sub 2 "B"; sub 3 "C"] (lit "[1] X")
  = Some [sub 1 "X"; sub 2 "B"; sub 3 "C"].
Proof. reflexivity. Qed.

Example kobold_reconcile_example :
  KoboldCppClient.reconcile [sub 2 "World"; sub 1 "Hello"]
    (lit "[1] Bonjour" ++ [nl; nl] ++ lit "[2] Monde")
  = Some [sub 1 "Bonjour"; sub 2 "Monde"].
Proof. reflexivity. Qed.

Example blank_split_example :
  Re.blank_split
    (lit "a" ++ [nl] ++ lit " " ++ [nl; nl] ++ lit " b" ++ [nl; nl] ++
     lit "c" ++ [nl] ++ lit " x" ++ [nl; ascii_of_nat 9; nl])
  = [lit "a"; lit " b"; lit "c" ++ [nl] ++ lit " x"; []].
Proof. reflexivity. Qed.

Example split_markers_example :
  Re.split_markers (lit "x[1[2]y[3]")
  = [lit "x[1"; lit "2"; lit "y"; lit "3"; []].
Proof. reflexivity. Qed.

Example findall_markers_example :
  Re.findall_markers
    (lit "pre[1]  a" ++ [nl] ++ lit "b [2][3] c [x] [4" ++ [nl])
  = [(lit "1", lit "a" ++ [nl] ++ lit "b "); (lit "2", []);
     (lit "3", lit "c [x] [4" ++ [nl])].
Proof. reflexivity. Qed.

Example py_int_examples :
  map py_int [lit "1_0"; lit "+5"; lit "-5"; lit "_1"; lit "1_"; lit "1__0";
              lit "007"; lit "0_0"; []; lit "+"; lit "1 2"]
  = [Some 10%Z; Some 5%Z; Some (-5)%Z; None; None; None;
     Some 7%Z; Some 0%Z; None; None; None].
Proof. reflexivity. Qed.

(** The bound on the digits: 4300 digits are read, 4301 are not; zeros in
    front count, a sign and underscores do not. *)
Example py_int_limit :
  py_int (repeat "1"%char 4301) = None /\
  py_int (repeat "0"%char 4301) = None /\
  py_int ("-"%char :: repeat "0"%char 4300) = Some 0%Z /\
  py_int (lit "1_" ++ repeat "0"%char 4299) = Some (10 ^ 4299)%Z.
Proof. vm_compute. repeat split. Qed.

Example str_of_Z_examples :
  map str_of_Z [0%Z; 7%Z; 10%Z; 4300%Z; (-12)%Z]
  = map Some [lit "0"; lit "7"; lit "10"; lit "4300"; lit "-12"].
Proof. reflexivity. Qed.

Example progress_percent_examples :
  map (fun p => TranslationWorker.progress_percent (fst p) (snd p))
    [(1, 3); (2, 3); (3, 3); (29, 50); (7, 25)]
  = [33; 66; 100; 57; 28]%Z.
Proof. reflexivity. Qed.

Example sub_slash_examples :
  map Backend.sub_slash
    [lit "a / b"; lit "a  /  / b"; lit "a/ /b"; lit "x  y/z"; lit "//"]
  = [lit "a" ++ [nl] ++ lit "b"; lit "a" ++ [nl; nl] ++ lit "b";
     lit "a" ++ [nl; nl] ++ lit "b"; lit "x  y" ++ [nl] ++ lit "z"; [nl; nl]].
Proof. reflexivity. Qed.

Example sub_output_examples :
  map Backend.sub_output
    [lit "Output: x"; lit "Output:" ++ [nl] ++ lit "Output: y";
     lit "a Output: x";
     lit "a" ++ [nl] ++ lit "Output:   " ++ [nl; nl] ++ lit "  Output: z";
     lit "Output:Output: q";
     lit "Output:" ++ [nl] ++ lit " " ++ [nl] ++ lit "Output: k"]
  = [lit "x"; lit "y"; lit "a Output: x";
     lit "a" ++ [nl] ++ lit "Output: z"; lit "Output: q"; lit "k"].
Proof. reflexivity. Qed.

Example process_line_examples :
  map Backend.process_line
    [lit " [12]   foo "; lit "[1]"; lit "x [1] y"; lit "[12"; lit "[1][2] c";
     lit "  "]
  = [lit "[12] foo "; lit "[1] "; lit "x [1] y"; lit "[12"; lit "[1] [2] c";
     lit "  "].
Proof. reflexivity. Qed.

Example clean_translation_example :
  Backend._clean_translation
    (lit "Output: [1]Bonjour / Salut" ++ [nl] ++ lit "  [2]  Monde")
  = lit "[1] Bonjour" ++ [nl] ++ lit "Salut" ++ [nl] ++ lit "[2] Monde".
Proof. reflexivity. Qed.

Example export_path_examples :
  map TranslationApp.export_path [lit "film"; lit "film.SRT"; lit "film.srt.txt"]
  = [lit "film.srt"; lit "film.SRT"; lit "film.srt.txt.srt"].
Proof. reflexivity. Qed.

Example parse_example :
  SrtParser.parse_srt
    (lit "1" ++ [nl] ++ lit "00:00:01,000 --> 00:00:02,000" ++ [nl] ++
     lit "Hello" ++ [nl] ++ lit "there" ++ [nl; nl; nl] ++
     lit "oops" ++ [nl; nl] ++
     lit " 02 " ++ [nl] ++ lit "00:00:01,000 --> 00:00:02,000 X" ++ [nl] ++
     lit "World" ++ [nl])
  = [ {| number := 1; start_time := ts1; end_time := ts2;
         text := lit "Hello" ++ [nl] ++ lit "there" |};
      sub 2 "World" ].
Proof. reflexivity. Qed.

Example format_example :
  SrtParser.format_srt [sub 1 "Hello"; sub (-2) "World"]
  = Some (lit "1" ++ [nl] ++ lit "00:00:01,000 --> 00:00:02,000" ++ [nl] ++
          lit "Hello" ++ [nl; nl] ++
          lit "-2" ++ [nl] ++ lit "00:00:01,000 --> 00:00:02,000" ++ [nl] ++
          lit "World" ++ [nl]).
Proof. reflexivity. Qed.

Example batch_text_example :
  TranslationWorker.batch_text [sub 1 "Hello"; sub 2 "World"]
  = Some (lit "[1] Hello" ++ [nl; nl] ++ lit "[2] World" ++ [nl; nl]).
Proof. reflexivity. Qed.

(** A marker of too many digits: the worker raises, the method in
    [KoboldCppClient] skips the marker. *)
Example long_marker :
  TranslationWorker.reconcile [sub 1 "A"]
    (lit "[1] X [" ++ repeat "1"%char 4301 ++ lit "] Y") = None /\
  KoboldCppClient.reconcile [sub 1 "A"]
    (lit "[1] X [" ++ repeat "1"%char 4301 ++ lit "] Y") = Some [sub 1 "X"].
Proof. vm_compute. split; reflexivity. Qed.

Example create_batches_example :
  SrtParser.create_batches [1; 2; 3; 4; 5] 2 = Some [[1; 2]; [3; 4]; [5]].
Proof. reflexivity. Qed.

(* ------------------------------------------------------------------ *)
(** ** The batch planner *)

Section Batches.

Context {A : Type}.

Lemma firstn_plus (n m : nat) (l : list A) :
  firstn (n + m) l = firstn n l ++ firstn m (skipn n l).
Proof.
  revert l; induction n as [|n IH]; intros l; simpl.
  - reflexivity.
  - destruct l as [|x l]; simpl.
    + now rewrite firstn_nil.
    + now rewrite IH.
Qed.

Lemma firstn_clip (n : nat) (l : list A) :
  firstn (Nat.min n (length l)) l = firstn n l.
Proof.
  destruct (Nat.le_ge_cases n (length l)) as [H|H].
  - now rewrite Nat.min_l.
  - rewrite Nat.min_r by assumption.
    now rewrite !firstn_all2 by lia.
Qed.

(** The chunks of width [n] that start at the first [m] multiples of [n]
    make up the first [m * n] elements. *)
Lemma chunks_concat (n : nat) (l : list A) (m : nat) :
  concat (map (fun k => firstn n (skipn (k * n) l)) (seq 0 m))
  = firstn (m * n) l.
Proof.
  induction m as [|m IH].
  - reflexivity.
  - rewrite seq_S, map_app, concat_app, IH. simpl.
    rewrite app_nil_r, (Nat.add_comm n), firstn_plus. reflexivity.
Qed.

(** A slice that starts inside the list is a chunk. *)
Lemma py_slice_chunk (l : list A) (k n : nat) :
  k * n <= length l ->
  SrtParser.py_slice l (Z.of_nat k * Z.of_nat n)
    (Z.of_nat k * Z.of_nat n + Z.of_nat n)
  = firstn n (skipn (k * n) l).
Proof.
  intros Hk. unfold SrtParser.py_slice, SrtParser.slice_index.
  destruct (Z.ltb_spec (Z.of_nat k * Z.of_nat n) 0) as [H|_]; [lia|].
  destruct (Z.ltb_spec (Z.of_nat k * Z.of_nat n + Z.of_nat n) 0) as [H|_];
    [lia|].
  replace (Z.to_nat (Z.min (Z.of_nat k * Z.of_nat n) (Z.of_nat (length l))))
    with (k * n) by lia.
  replace (Z.to_nat (Z.min (Z.of_nat k * Z.of_nat n + Z.of_nat n)
                       (Z.of_nat (length l))) - k * n)
    with (Nat.min n (length (skipn (k * n) l)))
    by (rewrite length_skipn; lia).
  apply firstn_clip.
Qed.

Lemma batch_count_bounds (len n : nat) :
  1 <= n ->
  len <= batch_count len n * n /\
  (forall k, k < batch_count len n -> k * n < len).
Proof.
  intros Hn. unfold batch_count.
  destruct (Nat.eqb_spec len 0) as [->|Hlen].
  - split; [lia | intros k Hk; lia].
  - pose proof (Nat.div_mod_eq (len - 1) n) as E.
    pose proof (Nat.mod_upper_bound (len - 1) n ltac:(lia)) as B.
    split; [nia|].
    intros k Hk. assert (k <= (len - 1) / n) by lia. nia.
Qed.

Lemma create_batches_pos (l : list A) (n : nat) :
  1 <= n ->
  SrtParser.create_batches l (Z.of_nat n)
  = Some (map (fun k => firstn n (skipn (k * n) l))
            (seq 0 (batch_count (length l) n))).
Proof.
  intros Hn. unfold SrtParser.create_batches, SrtParser.py_range.
  destruct (Z.eqb_spec (Z.of_nat n) 0) as [H|_]; [lia|].
  destruct (Z.ltb_spec 0 (Z.of_nat n)) as [_|H]; [|lia].
  f_equal. rewrite map_map.
  assert (Hc : Z.to_nat
            (if (0 <? Z.of_nat (length l))%Z
             then (1 + (Z.of_nat (length l) - 1 - 0) / Z.of_nat n)%Z
             else 0%Z) = batch_count (length l) n).
  { unfold batch_count.
    destruct (Nat.eqb_spec (length l) 0) as [->|Hl]; [reflexivity|].
    destruct (Z.ltb_spec 0 (Z.of_nat (length l))) as [_|H]; [|lia].
    replace (Z.of_nat (length l) - 1 - 0)%Z with (Z.of_nat (length l - 1))
      by lia.
    rewrite <- Nat2Z.inj_div. lia. }
  rewrite Hc. apply map_ext_in. intros k Hk. apply in_seq in Hk.
  destruct (batch_count_bounds (length l) n Hn) as [_ Hb].
  simpl. apply py_slice_chunk. specialize (Hb k). lia.
Qed.

End Batches.

(** C7 (as amended). [create_batches] raises for a batch size of zero,
    returns no batch at all, without an error, for a negative batch size,
    and for a batch size of at least one returns batches whose concatenation
    is the input in order, each of exactly [batch_size] entries except the
    last, which holds between one and [batch_size] entries. *)
Theorem C7_create_batches_sizes {A : Type} (subtitles : list A) (batch_size : Z) :
  (batch_size = 0%Z -> SrtParser.create_batches subtitles batch_size = None) /\
  ((batch_size < 0)%Z ->
     SrtParser.create_batches subtitles batch_size = Some []) /\
  ((1 <= batch_size)%Z ->
     exists batches,
       SrtParser.create_batches subtitles batch_size = Some batches /\
       concat batches = subtitles /\
       forall i b, nth_error batches i = Some b ->
         (1 <= Z.of_nat (length b) <= batch_size)%Z /\
         (S i < length batches -> Z.of_nat (length b) = batch_size)).
Proof.
  split; [|split].
  - intros ->. reflexivity.
  - intros Hneg. unfold SrtParser.create_batches, SrtParser.py_range.
    destruct (Z.eqb_spec batch_size 0) as [H|_]; [lia|].
    destruct (Z.ltb_spec 0 batch_size) as [H|_]; [lia|].
    destruct (Z.ltb_spec (Z.of_nat (length subtitles)) 0) as [H|_]; [lia|].
    reflexivity.
  - intros Hpos.
    set (n := Z.to_nat batch_size).
    assert (Hn : 1 <= n) by lia.
    assert (Hbs : batch_size = Z.of_nat n) by lia.
    destruct (batch_count_bounds (length subtitles) n Hn) as [Hall Hin].
    eexists. split; [rewrite Hbs; apply create_batches_pos; exact Hn|].
    split.
    + rewrite chunks_concat. apply firstn_all2. lia.
    + intros i b Hb. rewrite nth_error_map, nth_error_seq in Hb.
      rewrite length_map, length_seq.
      destruct (Nat.ltb_spec i (batch_count (length subtitles) n)) as [Hi|Hi];
        [|discriminate].
      simpl in Hb. injection Hb as <-.
      rewrite length_firstn, length_skipn.
      pose proof (Hin i Hi) as Hi'. split; [lia|].
      intros Hlast. specialize (Hin (S i) Hlast). lia.
Qed.

(** Instance of C7 at three entries and the batch sizes 0, -2 and 2. *)
Lemma C7_create_batches_sizes_witness :
  SrtParser.create_batches [sub 1 "A"; sub 2 "B"; sub 3 "C"] 0 = None /\
  SrtParser.create_batches [sub 1 "A"; sub 2 "B"; sub 3 "C"] (-2) = Some [] /\
  exists batches,
    SrtParser.create_batches [sub 1 "A"; sub 2 "B"; sub 3 "C"] 2
      = Some batches /\
    concat batches = [sub 1 "A"; sub 2 "B"; sub 3 "C"].
Proof.
  split; [|split].
  - apply (C7_create_batches_sizes [sub 1 "A"; sub 2 "B"; sub 3 "C"] 0).
    reflexivity.
  - apply (C7_create_batches_sizes [sub 1 "A"; sub 2 "B"; sub 3 "C"] (-2)).
    reflexivity.
  - destruct (C7_create_batches_sizes [sub 1 "A"; sub 2 "B"; sub 3 "C"] 2)
      as (_ & _ & H).
    destruct (H ltac:(lia)) as (batches & H1 & H2 & _).
    exists batches. split; assumption.
Defined.

(** C7 as stated fails: a negative batch size is not rejected; the call
    returns an empty list of batches for a non-empty input. *)
Lemma C7_negative_batch_size_not_rejected :
  (-2 < 1)%Z /\
  SrtParser.create_batches [sub 1 "A"; sub 2 "B"; sub 3 "C"] (-2) = Some [] /\
  SrtParser.create_batches [sub 1 "A"; sub 2 "B"; sub 3 "C"] (-2) <> None.
Proof.
  split; [lia|]. split; [reflexivity | discriminate].
Qed.

(* ------------------------------------------------------------------ *)
(** ** Markers *)

Lemma span_app (p : ascii -> bool) (s : str) :
  fst (Re.span p s) ++ snd (Re.span p s) = s.
Proof.
  induction s as [|c t IH]; simpl; [reflexivity|].
  destruct (p c); [|reflexivity].
  destruct (Re.span p t) as [a b]. simpl in *. now rewrite IH.
Qed.

Lemma span_all (p : ascii -> bool) (s : str) :
  forallb p (fst (Re.span p s)) = true.
Proof.
  induction s as [|c t IH]; simpl; [reflexivity|].
  destruct (p c) eqn:E; [|reflexivity].
  destruct (Re.span p t) as [a b]. simpl in *. now rewrite E.
Qed.

Lemma marker_at_inv (s d r : str) :
  Re.marker_at s = Some (d, r) ->
  all_digits d /\ s = lit "[" ++ d ++ lit "]" ++ r.
Proof.
  unfold Re.marker_at. destruct s as [|c t]; [discriminate|].
  destruct (Ascii.eqb_spec c "["%char) as [->|?]; [|discriminate].
  pose proof (span_app is_digit t) as Happ.
  pose proof (span_all is_digit t) as Hall.
  destruct (Re.span is_digit t) as [d' r']. simpl in *.
  destruct d' as [|x d']; [discriminate|].
  destruct r' as [|c' r']; [discriminate|].
  destruct (Ascii.eqb_spec c' "]"%char) as [->|?]; [|discriminate].
  intros [= <- <-]. split; [split; [discriminate | exact Hall]|].
  now rewrite <- Happ.
Qed.

Lemma find_marker_inv (s p d r : str) :
  Re.find_marker s = Some (p, d, r) ->
  all_digits d /\ s = p ++ lit "[" ++ d ++ lit "]" ++ r.
Proof.
  revert p. induction s as [|c t IH]; intros p; cbn [Re.find_marker].
  - discriminate.
  - destruct (Re.marker_at (c :: t)) as [[d' r']|] eqn:E.
    + intros [= <- <- <-]. now apply marker_at_inv in E.
    + destruct (Re.find_marker t) as [[[p' d'] r']|]; [|discriminate].
      intros [= <- <- <-]. destruct (IH p' eq_refl) as [Hd ->].
      split; [exact Hd | reflexivity].
Qed.

Lemma find_marker_shorter (s p d r : str) :
  Re.find_marker s = Some (p, d, r) -> length r < length s.
Proof.
  intros H. apply find_marker_inv in H. destruct H as [_ ->].
  rewrite !length_app. simpl. lia.
Qed.

(** More fuel than the length of the text changes nothing. *)
Lemma split_markers_fuel_irrelevant (f g : nat) (s : str) :
  length s <= f -> length s <= g ->
  Re.split_markers_fuel f s = Re.split_markers_fuel g s.
Proof.
  revert g s. induction f as [|f IH]; intros g s Hf Hg.
  - destruct s; [|simpl in Hf; lia]. destruct g; reflexivity.
  - destruct g as [|g].
    + destruct s; [reflexivity | simpl in Hg; lia].
    + cbn [Re.split_markers_fuel].
      destruct (Re.find_marker s) as [[[p d] r]|] eqn:E; [|reflexivity].
      apply find_marker_shorter in E.
      f_equal. f_equal. apply IH; lia.
Qed.

Lemma split_markers_fuel_enough (f : nat) (s : str) :
  length s <= f -> Re.split_markers_fuel f s = Re.split_markers s.
Proof.
  intros Hf. apply split_markers_fuel_irrelevant; [exact Hf | apply Nat.le_refl].
Qed.

(** The equation of [re.split] on markers. *)
Lemma split_markers_eq (s : str) :
  Re.split_markers s =
  match Re.find_marker s with
  | Some (p, d, r) => p :: d :: Re.split_markers r
  | None => [s]
  end.
Proof.
  unfold Re.split_markers at 1.
  destruct s as [|c t].
  - reflexivity.
  - cbn [length Re.split_markers_fuel].
    destruct (Re.find_marker (c :: t)) as [[[p d] r]|] eqn:E; [|reflexivity].
    f_equal. f_equal. apply split_markers_fuel_enough.
    apply find_marker_shorter in E. simpl in E. lia.
Qed.

Lemma split_markers_cons (s : str) :
  exists p rest, Re.split_markers s = p :: rest.
Proof.
  rewrite split_markers_eq.
  destruct (Re.find_marker s) as [[[p d] r]|]; eauto.
Qed.

(** The parts of odd index of [re.split] are the digits of the markers. *)
Lemma split_markers_digits (s : str) :
  Forall (fun m => all_digits (fst m)) (pairs (tl (Re.split_markers s))).
Proof.
  remember (length s) as n eqn:Hn.
  revert s Hn. induction n as [n IH] using lt_wf_ind. intros s ->.
  rewrite split_markers_eq.
  destruct (Re.find_marker s) as [[[p d] r]|] eqn:E; [|constructor].
  destruct (split_markers_cons r) as (p' & rest & Hr).
  pose proof (IH _ (find_marker_shorter _ _ _ _ E) r eq_refl) as IHr.
  rewrite Hr in *. simpl in *. constructor; [|exact IHr].
  apply find_marker_inv in E. apply E.
Qed.

(** Putting the brackets back gives the response: nothing of it is lost
    by the split. *)
Lemma unsplit_split_markers (s : str) :
  unsplit (Re.split_markers s) = s.
Proof.
  remember (length s) as n eqn:Hn.
  revert s Hn. induction n as [n IH] using lt_wf_ind. intros s ->.
  rewrite split_markers_eq.
  destruct (Re.find_marker s) as [[[p d] r]|] eqn:E; [|reflexivity].
  cbn [unsplit].
  rewrite (IH _ (find_marker_shorter _ _ _ _ E) r eq_refl).
  apply find_marker_inv in E. symmetry. apply E.
Qed.

Lemma span_stop (p : ascii -> bool) (t y : str) :
  snd (Re.span p t) <> [] ->
  Re.span p (t ++ y) = (fst (Re.span p t), snd (Re.span p t) ++ y).
Proof.
  induction t as [|c t IH]; intros H; [now elim H|].
  cbn [app Re.span] in *. destruct (p c); [|reflexivity].
  destruct (Re.span p t) as [a b]. cbn [fst snd] in *.
  now rewrite (IH H).
Qed.

Lemma marker_at_app (x y d r : str) :
  Re.marker_at x = Some (d, r) -> Re.marker_at (x ++ y) = Some (d, r ++ y).
Proof.
  unfold Re.marker_at. destruct x as [|c t]; [discriminate|]. cbn [app].
  destruct (Ascii.eqb c "["%char); [|discriminate].
  pose proof (span_stop is_digit t y) as S.
  destruct (Re.span is_digit t) as [a b]. cbn [fst snd] in S.
  destruct a as [|a0 a]; [discriminate|].
  destruct b as [|c' b]; [discriminate|].
  rewrite S by discriminate. cbn [app].
  destruct (Ascii.eqb c' "]"%char); [|discriminate].
  now intros [= <- <-].
Qed.

(** What the split puts before a marker has no marker. *)
Lemma find_marker_before (s p d r : str) :
  Re.find_marker s = Some (p, d, r) -> Re.find_marker p = None.
Proof.
  revert p. induction s as [|c t IH]; intros p; cbn [Re.find_marker].
  - discriminate.
  - destruct (Re.marker_at (c :: t)) as [[d' r']|] eqn:E.
    + intros [= <- _ _]. reflexivity.
    + destruct (Re.find_marker t) as [[[p' d'] r']|] eqn:F; [|discriminate].
      intros [= <- -> ->]. cbn [Re.find_marker].
      rewrite (IH p' eq_refl).
      destruct (Re.marker_at (c :: p')) as [[d2 r2]|] eqn:E2; [|reflexivity].
      apply find_marker_inv in F. destruct F as [_ ->].
      apply (marker_at_app _ (lit "[" ++ d ++ lit "]" ++ r)) in E2.
      cbn [app] in E2. rewrite E in E2. discriminate.
Qed.

Lemma find_marker_at (s p d r : str) :
  Re.find_marker s = Some (p, d, r) ->
  Re.marker_at (lit "[" ++ d ++ lit "]" ++ r) = Some (d, r).
Proof.
  revert p. induction s as [|c t IH]; intros p; cbn [Re.find_marker].
  - discriminate.
  - destruct (Re.marker_at (c :: t)) as [[d' r']|] eqn:E.
    + intros [= _ <- <-]. destruct (marker_at_inv _ _ _ E) as [_ E'].
      now rewrite <- E'.
    + destruct (Re.find_marker t) as [[[p' d'] r']|] eqn:F; [|discriminate].
      intros [= _ <- <-]. now apply (IH p').
Qed.

(** Each piece that the split puts after a marker is the text of the
    response from that marker to the next one or to the end. *)
Lemma markers_follow (response : str) (n : Z) (c : str) :
  In (n, c) (markers response) -> follows_marker response n c.
Proof.
  unfold markers.
  remember (length response) as k eqn:Hk.
  revert response Hk. induction k as [k IH] using lt_wf_ind.
  intros s -> Hin. rewrite split_markers_eq in Hin.
  destruct (Re.find_marker s) as [[[p d] r]|] eqn:E; [|destruct Hin].
  destruct (find_marker_inv _ _ _ _ E) as [Hd Hs].
  pose proof (split_markers_eq r) as Hr.
  destruct (Re.find_marker r) as [[[p2 d2] r2]|] eqn:E2.
  - rewrite Hr in Hin. cbn [tl pairs map] in Hin.
    destruct Hin as [Hhead|Hin].
    + unfold with_value in Hhead. cbn [fst snd] in Hhead.
      injection Hhead as <- <-.
      exists p, d, (lit "[" ++ d2 ++ lit "]" ++ r2).
      split; [|split; [exact Hd|split; [reflexivity|split]]].
      * rewrite Hs. destruct (find_marker_inv _ _ _ _ E2) as [_ ->].
        reflexivity.
      * now apply find_marker_before in E2.
      * right. exists (d2, r2). now apply find_marker_at in E2.
    + assert (Hin' : In (n, c)
                (map with_value (pairs (tl (Re.split_markers r))))).
      { rewrite Hr. exact Hin. }
      destruct (IH _ (find_marker_shorter _ _ _ _ E) r eq_refl Hin')
        as (before & d' & rest & Hr' & H').
      exists (p ++ lit "[" ++ d ++ lit "]" ++ before), d', rest.
      split; [|exact H']. rewrite Hs, Hr'. now rewrite <- !app_assoc.
  - rewrite Hr in Hin. cbn [tl pairs map] in Hin.
    destruct Hin as [Hhead|[]].
    unfold with_value in Hhead. cbn [fst snd] in Hhead.
    injection Hhead as <- <-.
    exists p, d, []. rewrite app_nil_r.
    split; [exact Hs|]. split; [exact Hd|]. split; [reflexivity|].
    split; [exact E2 | now left].
Qed.

Lemma digit_not_sign (c : ascii) :
  is_digit c = true ->
  Ascii.eqb c "+"%char = false /\ Ascii.eqb c "-"%char = false.
Proof.
  intros H. split.
  - destruct (Ascii.eqb_spec c "+"%char) as [->|?]; [discriminate H | reflexivity].
  - destruct (Ascii.eqb_spec c "-"%char) as [->|?]; [discriminate H | reflexivity].
Qed.

Lemma int_digits_all (d : str) (acc : Z) (b : bool) :
  forallb is_digit d = true -> d <> [] \/ b = true ->
  int_digits d acc b
  = Some (fold_left (fun a c => (10 * a + digit_val c)%Z) d acc).
Proof.
  revert acc b. induction d as [|c t IH]; intros acc b Hall Hne.
  - destruct Hne as [Hne| ->]; [now elim Hne | reflexivity].
  - simpl in Hall. apply andb_prop in Hall as [Hc Ht].
    simpl. rewrite Hc. apply IH; [exact Ht | now right].
Qed.

Lemma literal_value_digits (d : str) :
  all_digits d -> literal_value d = Some (digits_value d).
Proof.
  intros [Hne Hall]. destruct d as [|c t]; [now elim Hne|].
  unfold literal_value. pose proof Hall as Hall'.
  simpl in Hall'. apply andb_prop in Hall' as [Hc _].
  destruct (digit_not_sign c Hc) as [-> ->].
  apply int_digits_all; [exact Hall | left; discriminate].
Qed.

Lemma digit_count_digits (d : str) :
  forallb is_digit d = true -> digit_count d = length d.
Proof.
  intros H. unfold digit_count. f_equal.
  induction d as [|c t IH]; [reflexivity|].
  simpl in *. apply andb_prop in H as [-> Ht]. f_equal. now apply IH.
Qed.

(** On the digits of a marker [int] fails for one reason only: too many
    digits. *)
Lemma py_int_digits (d : str) :
  all_digits d ->
  py_int d = if length d <=? max_str_digits then Some (digits_value d)
             else None.
Proof.
  intros Hd. unfold py_int. rewrite (digit_count_digits d (proj2 Hd)).
  now rewrite (literal_value_digits d Hd).
Qed.

(* ------------------------------------------------------------------ *)
(** ** Sorting by number *)

Lemma insert_by_number_perm (x : subtitle) (l : list subtitle) :
  Permutation (insert_by_number x l) (x :: l).
Proof.
  induction l as [|y r IH]; simpl.
  - apply Permutation_refl.
  - destruct (number x <=? number y)%Z.
    + apply Permutation_refl.
    + eapply Permutation_trans; [apply perm_skip, IH | apply perm_swap].
Qed.

Lemma sort_by_number_perm (l : list subtitle) :
  Permutation (sort_by_number l) l.
Proof.
  induction l as [|x l IH]; simpl.
  - apply Permutation_refl.
  - eapply Permutation_trans; [apply insert_by_number_perm|].
    now apply perm_skip.
Qed.

(** The sort is stable: the entries of one number keep their order. *)
Lemma filter_insert_by_number (n : Z) (x : subtitle) (l : list subtitle) :
  filter (numbered n) (insert_by_number x l)
  = filter (numbered n) (x :: l).
Proof.
  induction l as [|y r IH]; [reflexivity|].
  cbn [insert_by_number].
  destruct (Z.leb_spec (number x) (number y)) as [Hle|Hgt]; [reflexivity|].
  cbn [filter] in *. rewrite IH. unfold numbered.
  destruct (Z.eqb_spec (number x) n), (Z.eqb_spec (number y) n);
    try reflexivity.
  lia.
Qed.

Lemma filter_sort_by_number (n : Z) (l : list subtitle) :
  filter (numbered n) (sort_by_number l) = filter (numbered n) l.
Proof.
  induction l as [|x l IH]; [reflexivity|].
  cbn [sort_by_number fold_right]. rewrite filter_insert_by_number.
  cbn [filter]. fold (sort_by_number l). now rewrite IH.
Qed.

Lemma sort_by_number_ascending (l : list subtitle) :
  ascending l -> sort_by_number l = l.
Proof.
  induction 1 as [|x l Hs IH Hhd]; [reflexivity|].
  cbn [sort_by_number fold_right]. fold (sort_by_number l). rewrite IH.
  destruct Hhd as [|y r Hxy]; [reflexivity|].
  cbn [insert_by_number].
  destruct (Z.leb_spec (number x) (number y)); [reflexivity | lia].
Qed.

(* ------------------------------------------------------------------ *)
(** ** From markers to entries *)

Lemma mem_number_In (n : Z) (l : list Z) :
  mem_number n l = true <-> In n l.
Proof.
  unfold mem_number. rewrite existsb_exists. split.
  - intros (x & Hx & E). apply Z.eqb_eq in E. now subst.
  - intros H. exists n. split; [exact H | apply Z.eqb_refl].
Qed.

Lemma mem_number_false (n : Z) (l : list Z) :
  mem_number n l = false <-> ~ In n l.
Proof.
  rewrite <- mem_number_In. destruct (mem_number n l).
  - split; [discriminate | intros H; now elim H].
  - split; [intros _ H; discriminate | reflexivity].
Qed.

(** A marker copies the first subtitle of the batch that has its number. *)
Lemma translate_marker_find (batch : list subtitle) (n : Z) (c : str) :
  translate_marker batch n c =
  match find (numbered n) batch with
  | Some a => [set_text a c]
  | None => []
  end.
Proof.
  induction batch as [|s rest IH]; [reflexivity|].
  simpl. unfold numbered at 1. destruct (number s =? n)%Z; [reflexivity|].
  exact IH.
Qed.

Lemma find_numbered_none (n : Z) (batch : list subtitle) :
  find (numbered n) batch = None <-> ~ In n (map number batch).
Proof.
  induction batch as [|s rest IH]; simpl.
  - split; [intros _ [] | reflexivity].
  - unfold numbered at 1. destruct (Z.eqb_spec (number s) n) as [E|E].
    + split; [discriminate | intros H; elim H; now left].
    + rewrite IH. split; [intros H [H'|H']; [now elim E | now elim H]|].
      intros H H'. apply H. now right.
Qed.

Lemma find_numbered_some (n : Z) (batch : list subtitle) (a : subtitle) :
  find (numbered n) batch = Some a -> In a batch /\ number a = n.
Proof.
  intros H. apply find_some in H. destruct H as [Hin E].
  apply Z.eqb_eq in E. now split.
Qed.

Lemma translated_entries_numbers (batch : list subtitle) (ms : list (Z * str)) :
  map number (translated_entries batch ms)
  = filter (fun n => mem_number n (map number batch)) (marker_numbers ms).
Proof.
  induction ms as [|[n c] ms IH]; [reflexivity|].
  unfold translated_entries in *. cbn [flat_map marker_numbers map filter fst snd].
  rewrite map_app, IH, translate_marker_find.
  destruct (find (numbered n) batch) as [a|] eqn:E.
  - destruct (find_numbered_some _ _ _ E) as [Hin Hn].
    assert (Hm : mem_number n (map number batch) = true).
    { apply mem_number_In. rewrite <- Hn. now apply in_map. }
    rewrite Hm. simpl. now rewrite Hn.
  - apply find_numbered_none in E. apply mem_number_false in E.
    now rewrite E.
Qed.

Lemma translated_entries_numbered (batch : list subtitle)
    (ms : list (Z * str)) (n : Z) :
  filter (numbered n) (translated_entries batch ms) =
  match find (numbered n) batch with
  | Some a => map (fun c => set_text a (strip c)) (contents_of n ms)
  | None => []
  end.
Proof.
  induction ms as [|[k c] ms IH].
  - simpl. now destruct (find (numbered n) batch).
  - unfold translated_entries, contents_of in *.
    cbn [flat_map filter fst snd]. rewrite filter_app, IH.
    rewrite translate_marker_find.
    destruct (Z.eqb_spec k n) as [->|Hk].
    + destruct (find (numbered n) batch) as [a|] eqn:E; [|reflexivity].
      destruct (find_numbered_some _ _ _ E) as [_ Hn].
      simpl. unfold numbered at 1. simpl. rewrite Hn, Z.eqb_refl.
      reflexivity.
    + destruct (find (numbered k) batch) as [b|] eqn:E; [|reflexivity].
      destruct (find_numbered_some _ _ _ E) as [_ Hb].
      simpl. unfold numbered at 1. simpl. rewrite Hb.
      destruct (Z.eqb_spec k n) as [?|_]; [contradiction | reflexivity].
Qed.

Lemma translated_entries_In (batch : list subtitle) (ms : list (Z * str))
    (o : subtitle) :
  In o (translated_entries batch ms) <->
  exists s c, find (numbered (number s)) batch = Some s /\
              In (number s, c) ms /\ o = set_text s (strip c).
Proof.
  unfold translated_entries. rewrite in_flat_map. split.
  - intros ([n c] & Hm & Ho). simpl in Ho.
    rewrite translate_marker_find in Ho.
    destruct (find (numbered n) batch) as [a|] eqn:E; [|destruct Ho].
    destruct Ho as [<-|[]].
    destruct (find_numbered_some _ _ _ E) as [_ Hn].
    exists a, c. rewrite Hn. repeat split; assumption.
  - intros (s & c & Hf & Hm & ->). exists (number s, c).
    split; [exact Hm|]. simpl. rewrite translate_marker_find, Hf. now left.
Qed.

(** The worker's marker loop on the parts of a split raises when a marker
    has too many digits, and otherwise builds the entries of the markers. *)
Lemma worker_marker_loop_pairs (batch : list subtitle) (parts : list str) :
  (forall acc,
     Forall (fun m => all_digits (fst m)) (pairs parts) ->
     TranslationWorker.marker_loop batch parts acc
     = if forallb readable (pairs parts)
       then Some (acc ++
                  translated_entries batch (map with_value (pairs parts)))
       else None)
  /\
  (forall x acc,
     Forall (fun m => all_digits (fst m)) (pairs (x :: parts)) ->
     TranslationWorker.marker_loop batch (x :: parts) acc
     = if forallb readable (pairs (x :: parts))
       then Some (acc ++
                  translated_entries batch
                    (map with_value (pairs (x :: parts))))
       else None).
Proof.
  induction parts as [|y parts [IH1 IH2]].
  - split; intros; simpl; now rewrite app_nil_r.
  - split.
    + intros acc H. now apply IH2.
    + intros x acc H. cbn [pairs] in H. inversion H as [|? ? Hx Hrest]; subst.
      cbn [TranslationWorker.marker_loop pairs map forallb].
      cbn [fst] in Hx. rewrite (py_int_digits x Hx).
      unfold readable at 1. cbn [fst].
      destruct (length x <=? max_str_digits); [|reflexivity].
      rewrite (IH1 _ Hrest). cbn [andb].
      destruct (forallb readable (pairs parts)); [|reflexivity].
      unfold translated_entries. cbn [flat_map with_value fst snd].
      now rewrite <- app_assoc.
Qed.

(** The reconciliation of the worker raises when a marker of the response
    has too many digits, and otherwise returns what the markers give. *)
Lemma worker_reconcile (batch : list subtitle) (response : str) :
  TranslationWorker.reconcile batch response
  = if short_markers response
    then Some (reconciled batch (markers response)) else None.
Proof.
  unfold TranslationWorker.reconcile, markers, short_markers.
  destruct (worker_marker_loop_pairs batch (tl (Re.split_markers response)))
    as [H _].
  rewrite (H [] (split_markers_digits response)).
  now destruct (forallb readable (pairs (tl (Re.split_markers response)))).
Qed.

Lemma worker_reconcile_markers (batch : list subtitle) (response : str) :
  short_markers response = true ->
  TranslationWorker.reconcile batch response
  = Some (reconciled batch (markers response)).
Proof. intros H. now rewrite worker_reconcile, H. Qed.

Lemma worker_reconcile_returns (batch : list subtitle) (response : str)
    (out : list subtitle) :
  TranslationWorker.reconcile batch response = Some out ->
  short_markers response = true /\ out = reconciled batch (markers response).
Proof.
  rewrite worker_reconcile. destruct (short_markers response); [|discriminate].
  intros [= <-]. now split.
Qed.

(* ------------------------------------------------------------------ *)
(** ** Counting the entries of a reconciled batch *)

Lemma count_occ_filter (p : Z -> bool) (l : list Z) (x : Z) :
  count_occ Z.eq_dec (filter p l) x
  = if p x then count_occ Z.eq_dec l x else 0.
Proof.
  induction l as [|y l IH]; simpl.
  - now destruct (p x).
  - destruct (p y) eqn:Hy; simpl; destruct (Z.eq_dec y x) as [->|Hne];
      rewrite IH; try reflexivity.
    + now rewrite Hy.
    + now rewrite Hy.
Qed.

Lemma filter_numbers (p : Z -> bool) (batch : list subtitle) :
  map number (filter (fun s => p (number s)) batch)
  = filter p (map number batch).
Proof.
  induction batch as [|s rest IH]; [reflexivity|].
  simpl. destruct (p (number s)); simpl; now rewrite IH.
Qed.

(** The gaps are the subtitles whose number no marker carries. *)
Lemma fill_gaps_markers (batch : list subtitle) (ms : list (Z * str)) :
  fill_gaps batch (translated_entries batch ms)
  = translated_entries batch ms ++
    filter (fun s => negb (mem_number (number s) (marker_numbers ms))) batch.
Proof.
  unfold fill_gaps. f_equal. apply filter_ext_in. intros s Hs. f_equal.
  rewrite translated_entries_numbers. apply Bool.eq_iff_eq_true.
  rewrite !mem_number_In, filter_In, mem_number_In.
  split; [intros [H _]; exact H | intros H; split; [exact H|]].
  now apply in_map.
Qed.

Lemma reconciled_perm (batch : list subtitle) (ms : list (Z * str)) :
  Permutation (reconciled batch ms)
    (translated_entries batch ms ++
     filter (fun s => negb (mem_number (number s) (marker_numbers ms))) batch).
Proof.
  unfold reconciled. rewrite fill_gaps_markers. apply sort_by_number_perm.
Qed.

(** The numbers of the output are the numbers of the batch. *)
Lemma reconciled_numbers (batch : list subtitle) (ms : list (Z * str)) (n : Z) :
  In n (map number (reconciled batch ms)) <-> In n (map number batch).
Proof.
  assert (P := Permutation_map number (reconciled_perm batch ms)).
  split.
  - intros H. apply (Permutation_in _ P) in H.
    rewrite map_app, in_app_iff, translated_entries_numbers in H.
    destruct H as [H|H].
    + apply filter_In in H. destruct H as [_ H]. now apply mem_number_In.
    + apply in_map_iff in H. destruct H as (s & <- & Hs).
      apply filter_In in Hs. apply in_map, Hs.
  - intros H. apply (Permutation_in _ (Permutation_sym P)).
    rewrite map_app, in_app_iff, translated_entries_numbers.
    destruct (mem_number n (marker_numbers ms)) eqn:E.
    + left. apply filter_In. split; [now apply mem_number_In|].
      now apply mem_number_In.
    + right. apply in_map_iff in H. destruct H as (s & <- & Hs).
      apply in_map, filter_In. split; [exact Hs|]. now rewrite E.
Qed.

Lemma filter_filter_none {A : Type} (p q : A -> bool) (l : list A) :
  (forall x, p x = true -> q x = false) -> filter p (filter q l) = [].
Proof.
  intros H. induction l as [|x l IH]; [reflexivity|].
  simpl. destruct (q x) eqn:Hq; [|exact IH].
  simpl. destruct (p x) eqn:Hp; [|exact IH].
  rewrite (H x Hp) in Hq. discriminate.
Qed.

Lemma reconciled_length (batch : list subtitle) (ms : list (Z * str)) :
  length (reconciled batch ms) + length (matched_numbers batch ms)
  = length (matched_markers batch ms) + length batch.
Proof.
  rewrite (Permutation_length (reconciled_perm batch ms)), length_app.
  rewrite <- (length_map number (translated_entries batch ms)).
  rewrite translated_entries_numbers. fold (matched_markers batch ms).
  rewrite <- (filter_length
                (fun s => mem_number (number s) (marker_numbers ms)) batch).
  unfold matched_numbers.
  rewrite <- (filter_numbers (fun n => mem_number n (marker_numbers ms))).
  rewrite length_map. lia.
Qed.

Lemma matched_same (batch : list subtitle) (ms : list (Z * str)) (n : Z) :
  In n (matched_markers batch ms) <-> In n (matched_numbers batch ms).
Proof.
  unfold matched_markers, matched_numbers.
  rewrite !filter_In, !mem_number_In. tauto.
Qed.

Lemma matched_markers_NoDup (batch : list subtitle) (ms : list (Z * str)) :
  (forall n, In n (map number batch) ->
             count_occ Z.eq_dec (marker_numbers ms) n <= 1) ->
  NoDup (matched_markers batch ms).
Proof.
  intros H. apply (NoDup_count_occ Z.eq_dec). intros n.
  unfold matched_markers. rewrite count_occ_filter.
  destruct (mem_number n (map number batch)) eqn:E; [|lia].
  apply H. now apply mem_number_In.
Qed.

(** C1 (as amended). For every batch and every response in which no
    marker has more than 4300 digits, the reconciliation of the worker
    returns a batch whose set of entry numbers is that of the input batch;
    it has as many entries as the input batch when the numbers of the batch
    are pairwise distinct and no number of the batch is carried by more than
    one marker of the response.  On a response with a marker of more than
    4300 digits it raises and returns nothing. *)
Theorem C1_reconcile_numbers_and_count (batch : list subtitle) (response : str) :
  (short_markers response = true ->
   exists out,
     TranslationWorker.reconcile batch response = Some out /\
     (forall n, In n (map number out) <-> In n (map number batch)) /\
     (NoDup (map number batch) ->
      (forall n, In n (map number batch) ->
         count_occ Z.eq_dec (marker_numbers (markers response)) n <= 1) ->
      length out = length batch)) /\
  (short_markers response = false ->
   TranslationWorker.reconcile batch response = None).
Proof.
  split; [|intros Hlong; now rewrite worker_reconcile, Hlong].
  intros Hshort.
  exists (reconciled batch (markers response)).
  split; [now apply worker_reconcile_markers|].
  split; [intros n; apply reconciled_numbers|].
  intros Hbatch Hms.
  pose proof (reconciled_length batch (markers response)) as L.
  pose proof (matched_markers_NoDup _ _ Hms) as N1.
  assert (N2 : NoDup (matched_numbers batch (markers response)))
    by (apply NoDup_filter, Hbatch).
  assert (length (matched_markers batch (markers response))
          <= length (matched_numbers batch (markers response)))
    by (apply NoDup_incl_length; [exact N1 | intros n; apply matched_same]).
  assert (length (matched_numbers batch (markers response))
          <= length (matched_markers batch (markers response)))
    by (apply NoDup_incl_length; [exact N2 | intros n; apply matched_same]).
  lia.
Qed.

(** Instance of C1: two entries, one marker each; and the same batch with
    a response that has a marker of 4301 digits. *)
Lemma C1_reconcile_numbers_and_count_witness :
  (exists out,
     TranslationWorker.reconcile [sub 1 "Hello"; sub 2 "World"]
       (lit "[2] Monde [1] Bonjour") = Some out /\
     length out = 2) /\
  TranslationWorker.reconcile [sub 1 "Hello"; sub 2 "World"]
    (lit "[1] Bonjour [" ++ repeat "7"%char 4301 ++ lit "] Monde") = None.
Proof.
  split.
  - destruct (C1_reconcile_numbers_and_count [sub 1 "Hello"; sub 2 "World"]
                (lit "[2] Monde [1] Bonjour")) as [H _].
    destruct (H eq_refl) as (out & H1 & _ & H3).
    exists out. split; [exact H1|]. apply H3.
    + repeat constructor; simpl; intuition discriminate.
    + intros n [<-|[<-|[]]]; vm_compute; lia.
  - destruct (C1_reconcile_numbers_and_count [sub 1 "Hello"; sub 2 "World"]
                (lit "[1] Bonjour [" ++ repeat "7"%char 4301 ++ lit "] Monde"))
      as [_ H].
    apply H. vm_compute. reflexivity.
Defined.

(** C1 as stated fails: a number carried by two markers gives two entries
    for a batch of one; and a marker of 4301 digits makes the step raise, so
    that nothing is returned. *)
Lemma C1_repeated_marker_adds_an_entry :
  (TranslationWorker.reconcile [sub 1 "A"] (lit "[1] X [1] Y")
   = Some [sub 1 "X"; sub 1 "Y"] /\
   length [sub 1 "X"; sub 1 "Y"] <> length [sub 1 "A"]) /\
  TranslationWorker.reconcile [sub 1 "A"]
    (lit "[" ++ repeat "1"%char 4301 ++ lit "] X") = None.
Proof.
  split; [split; [reflexivity | discriminate]|].
  vm_compute. reflexivity.
Qed.

(** C9 (as amended). When two entries of the batch share the number [n],
    exactly one marker of the response carries [n], no number of the batch
    is carried by more than one marker, and no marker has more than 4300
    digits, the output has strictly fewer entries than the batch; its only
    entry numbered [n] is the copy of the first entry of the batch numbered
    [n], with the trimmed text of that marker. *)
Theorem C9_shared_number_loses_an_entry (batch : list subtitle)
    (response : str) (n : Z) :
  short_markers response = true ->
  2 <= count_occ Z.eq_dec (map number batch) n ->
  count_occ Z.eq_dec (marker_numbers (markers response)) n = 1 ->
  (forall k, In k (map number batch) ->
     count_occ Z.eq_dec (marker_numbers (markers response)) k <= 1) ->
  exists out first c,
    TranslationWorker.reconcile batch response = Some out /\
    length out < length batch /\
    find (numbered n) batch = Some first /\
    contents_of n (markers response) = [c] /\
    filter (numbered n) out = [set_text first (strip c)].
Proof.
  intros Hshort Hbatch Hone Hms.
  set (ms := markers response) in *.
  assert (HnM : In n (marker_numbers ms))
    by (apply (count_occ_In Z.eq_dec); lia).
  assert (HnB : In n (map number batch))
    by (apply (count_occ_In Z.eq_dec); lia).
  destruct (find (numbered n) batch) as [first|] eqn:Hfind;
    [|now apply find_numbered_none in Hfind].
  assert (Hc : exists c, contents_of n ms = [c]).
  { clear - Hone. unfold contents_of, marker_numbers in *.
    induction ms as [|[k c] ms IH]; [discriminate|].
    simpl in *. destruct (Z.eq_dec k n) as [->|Hk].
    - rewrite Z.eqb_refl. exists c. simpl. f_equal.
      injection Hone as Hone.
      clear - Hone. induction ms as [|[k c'] ms IH]; [reflexivity|].
      simpl in *. destruct (Z.eq_dec k n) as [->|Hk]; [discriminate|].
      destruct (Z.eqb_spec k n); [contradiction|]. now apply IH.
    - destruct (Z.eqb_spec k n); [contradiction|]. now apply IH. }
  destruct Hc as [c Hc].
  exists (reconciled batch ms), first, c.
  split; [now apply worker_reconcile_markers|].
  split; [|split; [reflexivity|split; [exact Hc|]]].
  - pose proof (reconciled_length batch ms) as L.
    pose proof (matched_markers_NoDup _ _ Hms) as N1.
    destruct (Nat.lt_ge_cases (length (matched_markers batch ms))
                (length (matched_numbers batch ms))) as [Hlt|Hge]; [lia|].
    exfalso.
    assert (N2 : NoDup (matched_numbers batch ms)).
    { apply (NoDup_incl_NoDup N1 Hge). intros k. apply matched_same. }
    apply (NoDup_count_occ Z.eq_dec) with (x := n) in N2.
    unfold matched_numbers in N2. rewrite count_occ_filter in N2.
    apply mem_number_In in HnM. rewrite HnM in N2. lia.
  - unfold reconciled. rewrite filter_sort_by_number, fill_gaps_markers.
    rewrite filter_app, translated_entries_numbered, Hfind, Hc.
    rewrite filter_filter_none; [reflexivity|].
    intros s Hs. apply Z.eqb_eq in Hs. rewrite Hs.
    apply mem_number_In in HnM. now rewrite HnM.
Qed.

(** Instance of C9: two entries numbered 1 and one marker. *)
Lemma C9_shared_number_loses_an_entry_witness :
  exists out first c,
    TranslationWorker.reconcile [sub 1 "a"; sub 1 "b"] (lit "[1] x")
      = Some out /\
    length out < length [sub 1 "a"; sub 1 "b"] /\
    find (numbered 1) [sub 1 "a"; sub 1 "b"] = Some first /\
    contents_of 1 (markers (lit "[1] x")) = [c] /\
    filter (numbered 1) out = [set_text first (strip c)].
Proof.
  apply (C9_shared_number_loses_an_entry [sub 1 "a"; sub 1 "b"]
           (lit "[1] x") 1).
  - reflexivity.
  - vm_compute. lia.
  - vm_compute. reflexivity.
  - intros k [<-|[<-|[]]]; vm_compute; lia.
Defined.

(** C9 as stated fails: markers that repeat another number of the batch
    make up for the entry that is lost; and with a marker of 4301 digits
    beside the one marker numbered 1 the step raises and there is no
    output. *)
Lemma C9_repeated_marker_restores_the_count :
  (2 <= count_occ Z.eq_dec
          (map number [sub 1 "a"; sub 1 "b"; sub 2 "c"]) 1%Z /\
   count_occ Z.eq_dec
     (marker_numbers (markers (lit "[1] x [2] y [2] z"))) 1%Z = 1 /\
   TranslationWorker.reconcile [sub 1 "a"; sub 1 "b"; sub 2 "c"]
     (lit "[1] x [2] y [2] z")
   = Some [sub 1 "x"; sub 2 "y"; sub 2 "z"] /\
   ~ length [sub 1 "x"; sub 2 "y"; sub 2 "z"]
     < length [sub 1 "a"; sub 1 "b"; sub 2 "c"]) /\
  (count_occ Z.eq_dec
     (marker_numbers
        (markers (lit "[1] x [" ++ repeat "2"%char 4301 ++ lit "] y"))) 1%Z
   = 1 /\
   TranslationWorker.reconcile [sub 1 "a"; sub 1 "b"]
     (lit "[1] x [" ++ repeat "2"%char 4301 ++ lit "] y") = None).
Proof.
  split.
  - split; [vm_compute; lia|]. split; [reflexivity|].
    split; [reflexivity|]. simpl. lia.
  - vm_compute. split; reflexivity.
Qed.

Lemma filter_none {A : Type} (p : A -> bool) (l : list A) :
  (forall x, In x l -> p x = false) -> filter p l = [].
Proof.
  induction l as [|x l IH]; intros H; [reflexivity|].
  simpl. rewrite (H x (or_introl eq_refl)). apply IH.
  intros y Hy. apply H. now right.
Qed.

Lemma find_numbered_NoDup (batch : list subtitle) (s : subtitle) :
  NoDup (map number batch) -> In s batch ->
  find (numbered (number s)) batch = Some s.
Proof.
  induction batch as [|x rest IH]; intros Hnd Hin; [destruct Hin|].
  simpl in *. inversion Hnd as [|? ? Hx Hrest]; subst.
  unfold numbered at 1. destruct Hin as [->|Hin].
  - now rewrite Z.eqb_refl.
  - destruct (Z.eqb_spec (number x) (number s)) as [E|_].
    + elim Hx. rewrite E. now apply in_map.
    + now apply IH.
Qed.

(** C2. For a batch of pairwise distinct numbers and a response that has a
    marker for the number of every entry of the batch, every entry of the
    output is an entry of the batch whose text is replaced by the text that
    follows a marker carrying its number, from that marker up to the next
    marker or to the end of the response, trimmed of surrounding whitespace;
    and every marker that carries the number of an entry of the batch gives
    such an entry of the output.  There is an output unless a marker of the
    response has more than 4300 digits: the step then raises, and there is
    no output entry at all. *)
Theorem C2_marked_entries_take_marker_text (batch : list subtitle)
    (response : str) :
  NoDup (map number batch) ->
  (forall s, In s batch ->
     In (number s) (marker_numbers (markers response))) ->
  (short_markers response = true ->
   exists out,
     TranslationWorker.reconcile batch response = Some out /\
     (forall o, In o out ->
        exists s c, In s batch /\ In (number s, c) (markers response) /\
                    follows_marker response (number s) c /\
                    number o = number s /\ text o = strip c /\
                    o = set_text s (strip c)) /\
     (forall s c, In s batch -> In (number s, c) (markers response) ->
        In (set_text s (strip c)) out)) /\
  (short_markers response = false ->
   TranslationWorker.reconcile batch response = None).
Proof.
  intros Hnd Hall.
  split; [|intros Hlong; now rewrite worker_reconcile, Hlong].
  intros Hshort.
  exists (reconciled batch (markers response)).
  split; [now apply worker_reconcile_markers|].
  assert (Hgap : filter (fun s => negb (mem_number (number s)
                           (marker_numbers (markers response)))) batch = []).
  { apply filter_none. intros s Hs.
    specialize (Hall s Hs). apply mem_number_In in Hall.
    now rewrite Hall. }
  pose proof (reconciled_perm batch (markers response)) as P.
  rewrite Hgap, app_nil_r in P.
  split.
  - intros o Ho. apply (Permutation_in _ P) in Ho.
    apply translated_entries_In in Ho.
    destruct Ho as (s & c & Hf & Hm & ->).
    apply find_numbered_some in Hf.
    exists s, c. split; [apply Hf|]. split; [exact Hm|].
    split; [now apply markers_follow|]. repeat split.
  - intros s c Hs Hm. apply (Permutation_in _ (Permutation_sym P)).
    apply translated_entries_In. exists s, c.
    repeat split; [now apply find_numbered_NoDup | exact Hm].
Qed.

(** Instance of C2: the first example of the specification. *)
Lemma C2_marked_entries_take_marker_text_witness :
  exists out,
    TranslationWorker.reconcile [sub 1 "Hello"; sub 2 "World"]
      (lit "[1] Bonjour  [2] Monde ") = Some out /\
    In (sub 2 "Monde") out.
Proof.
  destruct (C2_marked_entries_take_marker_text [sub 1 "Hello"; sub 2 "World"]
              (lit "[1] Bonjour  [2] Monde ")) as [H _].
  - repeat constructor; simpl; intuition discriminate.
  - intros s [<-|[<-|[]]]; vm_compute; tauto.
  - destruct (H eq_refl) as (out & H1 & _ & H3).
    exists out. split; [exact H1|].
    apply (H3 (sub 2 "World") (lit " Monde ")).
    + right; left; reflexivity.
    + vm_compute. tauto.
Defined.

(* ------------------------------------------------------------------ *)
(** ** The extraction of the method in [KoboldCppClient] *)

Lemma until_marker_app (s : str) :
  fst (Re.until_marker s) ++ snd (Re.until_marker s) = s.
Proof.
  induction s as [|c t IH]; cbn [Re.until_marker].
  - now destruct (Re.marker_at []).
  - destruct (Re.marker_at (c :: t)); [reflexivity|].
    destruct (Re.until_marker t) as [p r]. simpl in *. now rewrite IH.
Qed.

Lemma lstrip_length (s : str) : length (lstrip s) <= length s.
Proof.
  induction s as [|c t IH]; simpl; [lia|].
  destruct (is_space c); simpl; lia.
Qed.

(** What is left to scan after a match is shorter than the text. *)
Lemma findall_rest_shorter (s p d r : str) :
  Re.find_marker s = Some (p, d, r) ->
  length (snd (Re.until_marker (lstrip r))) < length s.
Proof.
  intros E. apply find_marker_shorter in E.
  pose proof (lstrip_length r) as L.
  pose proof (f_equal (@length _) (until_marker_app (lstrip r))) as U.
  rewrite length_app in U. lia.
Qed.

Lemma findall_markers_fuel_irrelevant (f g : nat) (s : str) :
  length s <= f -> length s <= g ->
  Re.findall_markers_fuel f s = Re.findall_markers_fuel g s.
Proof.
  revert g s. induction f as [|f IH]; intros g s Hf Hg.
  - destruct s; [|simpl in Hf; lia]. destruct g; reflexivity.
  - destruct g as [|g].
    + destruct s; [reflexivity | simpl in Hg; lia].
    + cbn [Re.findall_markers_fuel].
      destruct (Re.find_marker s) as [[[p d] r]|] eqn:E; [|reflexivity].
      apply findall_rest_shorter in E.
      destruct (Re.until_marker (lstrip r)) as [c r']. simpl in E.
      f_equal. apply IH; lia.
Qed.

(** The equation of [re.findall] with the pattern of the method. *)
Lemma findall_markers_eq (s : str) :
  Re.findall_markers s =
  match Re.find_marker s with
  | Some (_, d, r) =>
      (d, fst (Re.until_marker (lstrip r)))
      :: Re.findall_markers (snd (Re.until_marker (lstrip r)))
  | None => []
  end.
Proof.
  unfold Re.findall_markers at 1. destruct s as [|c t]; [reflexivity|].
  cbn [length Re.findall_markers_fuel].
  destruct (Re.find_marker (c :: t)) as [[[p d] r]|] eqn:E; [|reflexivity].
  apply findall_rest_shorter in E.
  destruct (Re.until_marker (lstrip r)) as [x r']. simpl in *.
  f_equal. apply findall_markers_fuel_irrelevant; lia.
Qed.

Lemma findall_markers_digits (f : nat) (s : str) :
  Forall (fun m => all_digits (fst m)) (Re.findall_markers_fuel f s).
Proof.
  revert s. induction f as [|f IH]; intros s; [constructor|].
  cbn [Re.findall_markers_fuel].
  destruct (Re.find_marker s) as [[[p d] r]|] eqn:E; [|constructor].
  destruct (Re.until_marker (lstrip r)) as [c r'].
  constructor; [|apply IH]. apply find_marker_inv in E. apply E.
Qed.

(** The marker loop of the method skips the markers of too many digits. *)
Lemma kobold_marker_loop_entries (batch : list subtitle)
    (parts : list (str * str)) (acc : list subtitle) :
  Forall (fun m => all_digits (fst m)) parts ->
  KoboldCppClient.marker_loop batch parts acc
  = acc ++ translated_entries batch (map with_value (filter readable parts)).
Proof.
  revert acc. induction parts as [|[d c] parts IH]; intros acc H.
  - simpl. now rewrite app_nil_r.
  - inversion H as [|? ? Hd Hrest]; subst. simpl in Hd.
    cbn [KoboldCppClient.marker_loop filter]. rewrite (py_int_digits d Hd).
    unfold readable at 1. cbn [fst].
    destruct (length d <=? max_str_digits).
    + rewrite (IH _ Hrest). unfold translated_entries.
      cbn [map flat_map with_value fst snd]. now rewrite <- app_assoc.
    + apply (IH _ Hrest).
Qed.

(** With a marker in the response the method does what the worker does, on
    the markers it finds and does not skip. *)
Lemma kobold_reconcile_markers (batch : list subtitle) (response : str) :
  Re.findall_markers (response ++ [nl]) <> [] ->
  KoboldCppClient.reconcile batch response
  = Some (reconciled batch (findall_results response)).
Proof.
  unfold KoboldCppClient.reconcile, findall_results. intros Hne.
  pose proof (findall_markers_digits (length (response ++ [nl]))
                (response ++ [nl])) as Hd.
  fold (Re.findall_markers (response ++ [nl])) in Hd.
  destruct (Re.findall_markers (response ++ [nl])) as [|m ms] eqn:E;
    [now elim Hne|].
  rewrite (kobold_marker_loop_entries batch (m :: ms) [] Hd). reflexivity.
Qed.

Lemma findall_results_found (response : str) :
  findall_results response <> [] ->
  Re.findall_markers (response ++ [nl]) <> [].
Proof.
  unfold findall_results. intros H E. apply H. now rewrite E.
Qed.

Lemma reconciled_numbered (batch : list subtitle) (ms : list (Z * str))
    (n : Z) (first : subtitle) :
  find (numbered n) batch = Some first ->
  In n (marker_numbers ms) ->
  filter (numbered n) (reconciled batch ms)
  = map (fun c => set_text first (strip c)) (contents_of n ms).
Proof.
  intros Hfind HnM. unfold reconciled.
  rewrite filter_sort_by_number, fill_gaps_markers, filter_app.
  rewrite translated_entries_numbered, Hfind.
  rewrite filter_filter_none; [apply app_nil_r|].
  intros s Hs. apply Z.eqb_eq in Hs. rewrite Hs.
  apply mem_number_In in HnM. now rewrite HnM.
Qed.

(** C3 (as amended). Every marker whose number is the number of an entry of
    the batch gives an entry of the output, also when an earlier marker
    carries the same number: the entries of the output numbered [n] are the
    copies of the first entry of the batch numbered [n], one for each marker
    numbered [n], with the trimmed texts of these markers in the order of
    the response.  This holds for the worker, on a response in which no
    marker has more than 4300 digits (on another it raises), and for the
    method in [KoboldCppClient], which skips the markers of more than 4300
    digits. *)
Theorem C3_every_marker_occurrence_counts (batch : list subtitle)
    (response : str) (n : Z) (first : subtitle) :
  find (numbered n) batch = Some first ->
  (short_markers response = true ->
   In n (marker_numbers (markers response)) ->
   exists out,
     TranslationWorker.reconcile batch response = Some out /\
     filter (numbered n) out
     = map (fun c => set_text first (strip c))
         (contents_of n (markers response))) /\
  (short_markers response = false ->
   TranslationWorker.reconcile batch response = None) /\
  (In n (marker_numbers (findall_results response)) ->
   exists out,
     KoboldCppClient.reconcile batch response = Some out /\
     filter (numbered n) out
     = map (fun c => set_text first (strip c))
         (contents_of n (findall_results response))).
Proof.
  intros Hfind. split; [|split].
  - intros Hshort Hn. exists (reconciled batch (markers response)).
    split; [now apply worker_reconcile_markers|].
    now apply reconciled_numbered.
  - intros Hlong. now rewrite worker_reconcile, Hlong.
  - intros Hn. exists (reconciled batch (findall_results response)).
    split; [|now apply reconciled_numbered].
    apply kobold_reconcile_markers, findall_results_found.
    intros E. rewrite E in Hn. destruct Hn.
Qed.

(** Instance of C3: the number 7 carried by two markers. *)
Lemma C3_every_marker_occurrence_counts_witness :
  (exists out,
     TranslationWorker.reconcile [sub 7 "Seven"; sub 8 "Eight"]
       (lit "[7] Sept [8] Huit [7] Sieben") = Some out /\
     filter (numbered 7) out = [sub 7 "Sept"; sub 7 "Sieben"]) /\
  (exists out,
     KoboldCppClient.reconcile [sub 7 "Seven"; sub 8 "Eight"]
       (lit "[7] Sept [8] Huit [7] Sieben") = Some out /\
     filter (numbered 7) out = [sub 7 "Sept"; sub 7 "Sieben"]).
Proof.
  destruct (C3_every_marker_occurrence_counts [sub 7 "Seven"; sub 8 "Eight"]
              (lit "[7] Sept [8] Huit [7] Sieben") 7 (sub 7 "Seven")
              eq_refl) as (H1 & _ & H2).
  split.
  - destruct H1 as (out & Ho & Hf); [reflexivity | vm_compute; tauto|].
    exists out. split; [exact Ho | exact Hf].
  - destruct H2 as (out & Ho & Hf); [vm_compute; tauto|].
    exists out. split; [exact Ho | exact Hf].
Defined.

(** C3 as stated fails: the second marker numbered 7 is not ignored; it
    gives a second entry numbered 7, in both methods. *)
Lemma C3_later_marker_not_ignored :
  TranslationWorker.reconcile [sub 7 "Seven"] (lit "[7] Sept [7] Sieben")
  = Some [sub 7 "Sept"; sub 7 "Sieben"] /\
  KoboldCppClient.reconcile [sub 7 "Seven"] (lit "[7] Sept [7] Sieben")
  = Some [sub 7 "Sept"; sub 7 "Sieben"] /\
  In (sub 7 "Sieben") [sub 7 "Sept"; sub 7 "Sieben"].
Proof.
  split; [reflexivity|]. split; [reflexivity|]. right; left; reflexivity.
Qed.

(* ------------------------------------------------------------------ *)
(** ** The fallback of the method in [KoboldCppClient] *)

Lemma span_snoc (p : ascii -> bool) (t : str) (x : ascii) :
  p x = false ->
  Re.span p (t ++ [x]) = (fst (Re.span p t), snd (Re.span p t) ++ [x]).
Proof.
  intros Hx. induction t as [|c t IH]; simpl.
  - now rewrite Hx.
  - destruct (p c); [|reflexivity].
    rewrite IH. now destruct (Re.span p t).
Qed.

Lemma marker_at_none_nl (s : str) :
  Re.marker_at s = None -> Re.marker_at (s ++ [nl]) = None.
Proof.
  destruct s as [|c t]; [reflexivity|].
  unfold Re.marker_at. cbn [app].
  destruct (Ascii.eqb c "["%char); [|reflexivity].
  rewrite (span_snoc is_digit t nl eq_refl).
  destruct (Re.span is_digit t) as [d r]. cbn [fst snd].
  destruct d as [|x d]; [now destruct (r ++ [nl])|].
  destruct r as [|c' r]; [reflexivity|]. cbn [app].
  now destruct (Ascii.eqb c' "]"%char).
Qed.

Lemma find_marker_none_nl (s : str) :
  Re.find_marker s = None -> Re.find_marker (s ++ [nl]) = None.
Proof.
  induction s as [|c t IH]; [reflexivity|].
  cbn [app Re.find_marker].
  destruct (Re.marker_at (c :: t)) as [[d r]|] eqn:E; [discriminate|].
  change (c :: t ++ [nl]) with ((c :: t) ++ [nl]).
  rewrite (marker_at_none_nl _ E).
  destruct (Re.find_marker t) as [[[p d] r]|]; [discriminate|].
  intros _. now rewrite IH.
Qed.

Lemma nth_error_skipn {A : Type} (l : list A) (i : nat) (x : A) :
  nth_error l i = Some x -> skipn i l = x :: skipn (S i) l.
Proof.
  revert l. induction i as [|i IH]; intros [|y l] H; try discriminate.
  - now injection H as ->.
  - simpl in H. apply IH in H. exact H.
Qed.

Lemma assign_lines_combine (batch : list subtitle) (lines : list str) (i : nat) :
  length batch + i <= length lines ->
  KoboldCppClient.assign_lines batch lines i
  = Some (map retext (combine batch (skipn i lines))).
Proof.
  revert i. induction batch as [|s rest IH]; intros i Hlen; [reflexivity|].
  simpl in Hlen. cbn [KoboldCppClient.assign_lines].
  destruct (nth_error lines i) as [line|] eqn:E.
  - rewrite (nth_error_skipn _ _ _ E), IH by lia. reflexivity.
  - apply nth_error_None in E. lia.
Qed.

Lemma retext_numbers (batch : list subtitle) (lines : list str) :
  length lines = length batch ->
  map number (map retext (combine batch lines)) = map number batch.
Proof.
  revert lines. induction batch as [|s rest IH]; intros [|l lines] H;
    try discriminate; [reflexivity|].
  simpl. f_equal. apply IH. now injection H.
Qed.

Lemma ascending_same_numbers (l l' : list subtitle) :
  map number l = map number l' -> ascending l -> ascending l'.
Proof.
  intros E H. revert l' E. induction H as [|x l Hs IH Hhd]; intros l' E.
  - destruct l'; [constructor | discriminate].
  - destruct l' as [|x' l']; [discriminate|].
    injection E as Ex El. constructor; [now apply IH|].
    destruct Hhd as [|y r Hxy].
    + destruct l'; [constructor | discriminate].
    + destruct l' as [|y' r']; [discriminate|].
      injection El as Ey _. constructor. lia.
Qed.

Lemma nth_error_retext (batch : list subtitle) (lines : list str) (i : nat)
    (s : subtitle) (line : str) :
  nth_error batch i = Some s -> nth_error lines i = Some line ->
  nth_error (map retext (combine batch lines)) i
  = Some (set_text s (strip line)).
Proof.
  revert batch lines. induction i as [|i IH]; intros [|x batch] [|l lines];
    try discriminate; simpl.
  - now intros [= ->] [= ->].
  - apply IH.
Qed.

(** X23. In the method of [KoboldCppClient], for a batch that is not empty
    and a response without a marker that has as many non-blank lines as the
    batch has entries, the output is the batch in which the text of the i-th
    entry is replaced by the i-th non-blank line of the response trimmed of
    surrounding whitespace, sorted by number; for a batch in ascending order
    of number the i-th entry of the output has the trimmed i-th non-blank
    line as its text. *)
Theorem X23_fallback_one_line_per_entry (batch : list subtitle)
    (response : str) :
  batch <> [] ->
  Re.find_marker response = None ->
  length (non_empty_lines response) = length batch ->
  exists out,
    KoboldCppClient.reconcile batch response = Some out /\
    out = sort_by_number
            (map retext (combine batch (non_empty_lines response))) /\
    (ascending batch ->
     forall i s line,
       nth_error batch i = Some s ->
       nth_error (non_empty_lines response) i = Some line ->
       nth_error out i = Some (set_text s (strip line))).
Proof.
  intros Hne Hnone Hlen.
  set (T := map retext (combine batch (non_empty_lines response))).
  assert (HT : map number T = map number batch)
    by (apply retext_numbers, Hlen).
  assert (Hrec : KoboldCppClient.reconcile batch response
                 = Some (sort_by_number T)).
  { unfold KoboldCppClient.reconcile.
    rewrite findall_markers_eq, (find_marker_none_nl _ Hnone).
    unfold KoboldCppClient.fallback. fold (non_empty_lines response).
    rewrite Hlen.
    destruct (Nat.eqb_spec (length batch) 0) as [E|_];
      [destruct batch; [now elim Hne | discriminate]|].
    replace ((length batch <=? 2 * length batch)
             && (length batch <=? 2 * length batch)) with true
      by (symmetry; apply andb_true_intro;
          split; apply Nat.leb_le; lia).
    rewrite Nat.eqb_refl, assign_lines_combine by lia.
    cbn [skipn]. fold T. unfold fill_gaps. rewrite HT.
    rewrite filter_none; [now rewrite app_nil_r|].
    intros s Hs. apply (in_map number) in Hs.
    apply mem_number_In in Hs. now rewrite Hs. }
  exists (sort_by_number T). split; [exact Hrec|]. split; [reflexivity|].
  intros Hasc i s line Hs Hl.
  rewrite sort_by_number_ascending.
  - now apply nth_error_retext.
  - apply (ascending_same_numbers batch T); [now symmetry | exact Hasc].
Qed.

(** Instance of X23: two entries, two lines. *)
Lemma X23_fallback_one_line_per_entry_witness :
  exists out,
    KoboldCppClient.reconcile [sub 1 "Hello"; sub 2 "World"]
      (lit " Bonjour " ++ [nl; nl] ++ lit "Monde") = Some out /\
    out = [sub 1 "Bonjour"; sub 2 "Monde"].
Proof.
  destruct (X23_fallback_one_line_per_entry [sub 1 "Hello"; sub 2 "World"]
              (lit " Bonjour " ++ [nl; nl] ++ lit "Monde"))
    as (out & H1 & H2 & _).
  - discriminate.
  - reflexivity.
  - reflexivity.
  - exists out. split; [exact H1 | exact H2].
Defined.

(** C4.  The worker, whose method is the one that runs, has no fallback
    for a response without a marker: with the batch of the one entry
    "Hello" and the response "Bonjour", which has no marker and one
    non-blank line for the one entry, the entry keeps the text "Hello".  The
    method in [KoboldCppClient], the copy written to handle such a response,
    gives it the text "Bonjour". *)
Theorem C4_worker_keeps_the_original_text :
  Re.find_marker (lit "Bonjour") = None /\
  non_empty_lines (lit "Bonjour") = [lit "Bonjour"] /\
  length (non_empty_lines (lit "Bonjour")) = length [sub 1 "Hello"] /\
  TranslationWorker.reconcile [sub 1 "Hello"] (lit "Bonjour")
  = Some [sub 1 "Hello"] /\
  text (sub 1 "Hello") <> lit "Bonjour" /\
  KoboldCppClient.reconcile [sub 1 "Hello"] (lit "Bonjour")
  = Some [sub 1 "Bonjour"].
Proof.
  repeat split; try reflexivity; discriminate.
Qed.

(** The fallback of the method in [KoboldCppClient] trims the line it
    assigns, and sorts the entries by number after it has assigned the lines
    in the order of the batch. *)
Example fallback_trims_and_sorts :
  KoboldCppClient.reconcile [sub 1 "Hello"; sub 2 "World"]
    (lit "Bonjour " ++ [nl] ++ lit "Monde")
  = Some [sub 1 "Bonjour"; sub 2 "Monde"] /\
  KoboldCppClient.reconcile [sub 2 "World"; sub 1 "Hello"]
    (lit "Monde" ++ [nl] ++ lit "Bonjour")
  = Some [sub 1 "Bonjour"; sub 2 "Monde"].
Proof. split; reflexivity. Qed.

(* ------------------------------------------------------------------ *)
(** ** What the worker writes *)

Lemma format_lines_serial (l : list subtitle) :
  SrtParser.format_lines l
  = if printable_entries l then Some (flat_map serial_lines l) else None.
Proof.
  unfold printable_entries.
  induction l as [|s l IH]; [reflexivity|].
  cbn [SrtParser.format_lines forallb flat_map]. unfold str_of_Z.
  destruct (printable (number s)); [|reflexivity]. rewrite IH. cbn [andb].
  now destruct (forallb (fun s0 => printable (number s0)) l).
Qed.

(** [format_srt] raises when a number has too many digits, and otherwise
    writes every entry. *)
Lemma format_srt_serialized (l : list subtitle) :
  SrtParser.format_srt l
  = if printable_entries l then Some (serialized l) else None.
Proof.
  unfold SrtParser.format_srt. rewrite format_lines_serial.
  now destruct (printable_entries l).
Qed.

Lemma batch_text_request (b : list subtitle) :
  TranslationWorker.batch_text b
  = if printable_entries b then Some (batch_request b) else None.
Proof.
  unfold printable_entries.
  induction b as [|s b IH]; [reflexivity|].
  cbn [TranslationWorker.batch_text forallb]. unfold str_of_Z.
  destruct (printable (number s)); [|reflexivity]. rewrite IH. cbn [andb].
  destruct (forallb (fun s0 => printable (number s0)) b); [|reflexivity].
  unfold batch_request. cbn [flat_map]. now rewrite <- !app_assoc.
Qed.

Lemma batch_text_some (b : list subtitle) (request : str) :
  TranslationWorker.batch_text b = Some request ->
  printable_entries b = true /\ request = batch_request b.
Proof.
  rewrite batch_text_request. destruct (printable_entries b); [|discriminate].
  intros [= <-]. now split.
Qed.

Lemma printable_entries_app (a b : list subtitle) :
  printable_entries (a ++ b) = printable_entries a && printable_entries b.
Proof. apply forallb_app. Qed.

Lemma printable_entries_numbers (out b : list subtitle) :
  (forall n, In n (map number out) -> In n (map number b)) ->
  printable_entries b = true -> printable_entries out = true.
Proof.
  unfold printable_entries. rewrite !forallb_forall. intros Hsub Hb o Ho.
  destruct (proj1 (in_map_iff number b (number o))
              (Hsub _ (in_map number _ _ Ho))) as (s & E & Hs).
  rewrite <- E. now apply Hb.
Qed.

(** The entries of a reconciled batch have the numbers of the batch, which
    could be written. *)
Lemma reconcile_printable (b out : list subtitle) (answer : str) :
  TranslationWorker.reconcile b answer = Some out ->
  printable_entries b = true -> printable_entries out = true.
Proof.
  intros H. apply worker_reconcile_returns in H. destruct H as [_ ->].
  apply printable_entries_numbers. intros n. apply reconciled_numbers.
Qed.

(* ------------------------------------------------------------------ *)
(** ** The worker *)

Section WorkerFacts.

Import TranslationWorker.

Variable translate_text : nat -> str -> option (bool * str).
Variable abort : nat -> bool.
Variable delay : Z.
Variable percent : nat -> nat -> Z.

Local Abbreviation loop := (translate_loop translate_text abort delay percent).








End WorkerFacts.






Example cancelled_run :
  TranslationWorker._translate_subtitles (failing_from 3) (raised_from 1) 1
    TranslationWorker.progress_percent [sub 1 "A"; sub 2 "B"; sub 3 "C"] 1
  = [TranslationWorker.TranslateText 0 (lit "[1] A" ++ [nl; nl]);
     TranslationWorker.BatchCompleted 0 [sub 1 "A"];
     TranslationWorker.ProgressUpdated 33;
     TranslationWorker.Sleep 1;
     TranslationWorker.TranslationFinished false (lit "Translation aborted")].
Proof. reflexivity. Qed.

(** A marker of too many digits in an answer: the run raises, and neither
    reports the batch nor notifies that it has finished. *)
Example run_raises_on_long_marker :
  TranslationWorker._translate_subtitles
    (fun _ _ => Some (true, lit "[" ++ repeat "1"%char 4301 ++ lit "] X"))
    never_raised 0 TranslationWorker.progress_percent [sub 1 "A"; sub 2 "B"] 1
  = [TranslationWorker.TranslateText 0 (lit "[1] A" ++ [nl; nl]);
     TranslationWorker.Raised].
Proof. vm_compute. reflexivity. Qed.


(* ------------------------------------------------------------------ *)
(** ** Printing and reading a number *)

Lemma small_cases (d : N) :
  (d < 10)%N ->
  d = 0%N \/ d = 1%N \/ d = 2%N \/ d = 3%N \/ d = 4%N \/
  d = 5%N \/ d = 6%N \/ d = 7%N \/ d = 8%N \/ d = 9%N.
Proof. lia. Qed.

Lemma digit_char_spec (d : N) :
  (d < 10)%N ->
  is_digit (digit_char d) = true /\ digit_val (digit_char d) = Z.of_N d /\
  is_space (digit_char d) = false /\ digit_char d <> nl.
Proof.
  intros H. apply small_cases in H.
  repeat (destruct H as [->|H]); try subst d;
    (split; [reflexivity|]; split; [reflexivity|]; split;
     [reflexivity | discriminate]).
Qed.

Lemma digits_fuel_digits (f : nat) (n : N) (acc : str) :
  forallb is_digit acc = true ->
  forallb is_digit (digits_fuel f n acc) = true.
Proof.
  revert n acc. induction f as [|f IH]; intros n acc Hacc; [exact Hacc|].
  cbn [digits_fuel].
  assert (Hd : forallb is_digit (digit_char (n mod 10) :: acc) = true).
  { simpl. rewrite Hacc.
    destruct (digit_char_spec (n mod 10)) as [-> _]; [|reflexivity].
    apply N.mod_lt. discriminate. }
  destruct (n <? 10)%N; [exact Hd | now apply IH].
Qed.

Lemma digits_fuel_nonempty (f : nat) (n : N) (acc : str) :
  digits_fuel (S f) n acc <> [].
Proof.
  revert n acc. induction f as [|f IH]; intros n acc.
  - simpl. destruct (n <? 10)%N; discriminate.
  - change (digits_fuel (S (S f)) n acc) with
      (if (n <? 10)%N then digit_char (n mod 10) :: acc
       else digits_fuel (S f) (n / 10) (digit_char (n mod 10) :: acc)).
    destruct (n <? 10)%N; [discriminate | apply IH].
Qed.

(** With enough fuel the digits printed have the value of the number. *)
Lemma digits_fuel_value (f : nat) (n : N) (acc : str) :
  (n < 2 ^ N.of_nat f)%N ->
  fold_left (fun a c => (10 * a + digit_val c)%Z) (digits_fuel (S f) n acc) 0%Z
  = fold_left (fun a c => (10 * a + digit_val c)%Z) acc (Z.of_N n).
Proof.
  revert n acc. induction f as [|f IH]; intros n acc Hn.
  - assert (n = 0%N) by (simpl in Hn; lia). subst n. reflexivity.
  - change (digits_fuel (S (S f)) n acc) with
      (if (n <? 10)%N then digit_char (n mod 10) :: acc
       else digits_fuel (S f) (n / 10) (digit_char (n mod 10) :: acc)).
    assert (Hm : (n mod 10 < 10)%N) by (apply N.mod_lt; discriminate).
    destruct (digit_char_spec _ Hm) as (_ & Hv & _).
    destruct (N.ltb_spec n 10) as [Hlt|Hge].
    + cbn [fold_left]. rewrite Hv, N.mod_small by exact Hlt. reflexivity.
    + rewrite IH.
      * cbn [fold_left]. rewrite Hv. f_equal.
        pose proof (N.div_mod n 10 ltac:(discriminate)). lia.
      * rewrite Nat2N.inj_succ, N.pow_succ_r' in Hn.
        apply N.Div0.div_lt_upper_bound. lia.
Qed.

Lemma pos_size_nat_bound (p : positive) :
  (N.pos p < 2 ^ N.of_nat (Pos.size_nat p))%N.
Proof.
  induction p as [p IH|p IH|]; cbn [Pos.size_nat];
    rewrite ?Nat2N.inj_succ, ?N.pow_succ_r'; [lia | lia | reflexivity].
Qed.

Lemma size_nat_bound (n : N) : (n < 2 ^ N.of_nat (N.size_nat n))%N.
Proof.
  destruct n as [|p]; [reflexivity | apply pos_size_nat_bound].
Qed.

Lemma str_of_N_digits (n : N) :
  all_digits (str_of_N n) /\ digits_value (str_of_N n) = Z.of_N n.
Proof.
  unfold str_of_N, all_digits, digits_value. repeat split.
  - apply digits_fuel_nonempty.
  - now apply digits_fuel_digits.
  - rewrite digits_fuel_value; [reflexivity | apply size_nat_bound].
Qed.

(** [int(f"{n}")] reads the numeral back. *)
Lemma literal_value_decimal (z : Z) : literal_value (decimal z) = Some z.
Proof.
  unfold decimal. destruct (str_of_N_digits (Z.abs_N z)) as [Hd Hv].
  destruct (Z.ltb_spec z 0) as [Hneg|Hpos].
  - unfold literal_value. cbn [Ascii.eqb Bool.eqb].
    destruct Hd as [Hne Hall].
    rewrite (int_digits_all _ _ _ Hall (or_introl Hne)).
    fold (digits_value (str_of_N (Z.abs_N z))). rewrite Hv.
    simpl. f_equal. lia.
  - rewrite (literal_value_digits _ Hd), Hv. f_equal. lia.
Qed.

Lemma digit_count_decimal (z : Z) :
  digit_count (decimal z) = length (str_of_N (Z.abs_N z)).
Proof.
  destruct (str_of_N_digits (Z.abs_N z)) as [[_ Hall] _].
  unfold decimal. destruct (z <? 0)%Z.
  - unfold digit_count. cbn [filter]. change (is_digit "-"%char) with false.
    cbv iota. now apply digit_count_digits.
  - now apply digit_count_digits.
Qed.

(** [int(f"{n}")] is [n] for a number that can be written. *)
Lemma py_int_decimal (z : Z) :
  printable z = true -> py_int (decimal z) = Some z.
Proof.
  intros H. unfold py_int. rewrite digit_count_decimal.
  unfold printable in H. rewrite H. apply literal_value_decimal.
Qed.

Lemma digit_val_bounds (c : ascii) :
  is_digit c = true -> (0 <= digit_val c <= 9)%Z.
Proof.
  unfold is_digit, digit_val. intros H. apply andb_prop in H as [H1 H2].
  apply Nat.leb_le in H1, H2. lia.
Qed.

(** The digit part of a literal of [k] digits has a value below [10^k]. *)
Lemma int_digits_bound (s : str) :
  forall acc b v,
    (0 <= acc)%Z -> int_digits s acc b = Some v ->
    (acc * 10 ^ Z.of_nat (digit_count s) <= v
     < (acc + 1) * 10 ^ Z.of_nat (digit_count s))%Z.
Proof.
  induction s as [|c t IH]; intros acc b v Hacc H.
  - cbn [int_digits] in H. destruct b; [|discriminate]. injection H as <-.
    change (digit_count []) with 0. simpl. lia.
  - cbn [int_digits] in H. unfold digit_count in *. cbn [filter].
    destruct (is_digit c) eqn:Hc.
    + pose proof (digit_val_bounds c Hc) as Hd.
      apply IH in H; [|lia]. cbn [length].
      rewrite Nat2Z.inj_succ, Z.pow_succ_r by lia.
      set (P := (10 ^ Z.of_nat (length (filter is_digit t)))%Z) in *.
      assert (0 < P)%Z by (apply Z.pow_pos_nonneg; lia).
      nia.
    + destruct (Ascii.eqb c "_"%char && b); [|discriminate].
      now apply IH in H.
Qed.

Lemma literal_value_bound (s : str) (z : Z) :
  literal_value s = Some z ->
  (Z.abs z < 10 ^ Z.of_nat (digit_count s))%Z.
Proof.
  unfold literal_value. destruct s as [|c t]; [discriminate|].
  assert (Hsign : forall v, int_digits t 0 false = Some v ->
                    is_digit c = false ->
                    (Z.abs v < 10 ^ Z.of_nat (digit_count (c :: t)))%Z).
  { intros v Hv Hc. apply int_digits_bound in Hv; [|lia].
    unfold digit_count in *. cbn [filter]. rewrite Hc. lia. }
  destruct (Ascii.eqb_spec c "+"%char) as [->|_].
  - intros H. now apply Hsign.
  - destruct (Ascii.eqb_spec c "-"%char) as [->|_].
    + destruct (int_digits t 0 false) as [v|] eqn:E; [|discriminate].
      intros [= <-]. rewrite Z.abs_opp. now apply Hsign.
    + intros H. apply int_digits_bound in H; lia.
Qed.

(** The numeral of a number below [10^k] has at most [k] digits, and the
    numeral of a number from [10^k] on has more. *)
Lemma digits_fuel_length_le (f : nat) :
  forall n acc k,
    1 <= k -> (n < 10 ^ N.of_nat k)%N ->
    length (digits_fuel f n acc) <= k + length acc.
Proof.
  induction f as [|f IH]; intros n acc k Hk Hn; [simpl; lia|].
  cbn [digits_fuel]. destruct (N.ltb_spec n 10) as [_|Hge]; [simpl; lia|].
  destruct k as [|[|k]]; [lia | simpl in Hn; lia |].
  eapply Nat.le_trans; [apply (IH _ _ (S k))|simpl; lia]; [lia|].
  rewrite Nat2N.inj_succ, N.pow_succ_r' in Hn.
  apply N.Div0.div_lt_upper_bound. exact Hn.
Qed.

Lemma digits_fuel_length_acc (f : nat) :
  forall n acc, length acc <= length (digits_fuel f n acc).
Proof.
  induction f as [|f IH]; intros n acc; [simpl; lia|].
  cbn [digits_fuel]. destruct (n <? 10)%N; [simpl; lia|].
  eapply Nat.le_trans; [|apply IH]. simpl. lia.
Qed.

Lemma digits_fuel_length_ge (f : nat) :
  forall n acc k,
    (n < 2 ^ N.of_nat f)%N -> (10 ^ N.of_nat k <= n)%N ->
    S k + length acc <= length (digits_fuel (S f) n acc).
Proof.
  induction f as [|f IH]; intros n acc k Hf Hn.
  - exfalso. simpl in Hf.
    assert (10 ^ N.of_nat k <> 0)%N by (apply N.pow_nonzero; lia). lia.
  - change (digits_fuel (S (S f)) n acc) with
      (if (n <? 10)%N then digit_char (n mod 10) :: acc
       else digits_fuel (S f) (n / 10) (digit_char (n mod 10) :: acc)).
    destruct k as [|k].
    + destruct (n <? 10)%N; [simpl; lia|].
      eapply Nat.le_trans; [|apply digits_fuel_length_acc]. simpl. lia.
    + rewrite Nat2N.inj_succ, N.pow_succ_r' in Hn.
      assert (10 ^ N.of_nat k <> 0)%N by (apply N.pow_nonzero; lia).
      destruct (N.ltb_spec n 10) as [Hlt|_]; [lia|].
      eapply Nat.le_trans; [|apply (IH _ _ k)].
      * simpl. lia.
      * rewrite Nat2N.inj_succ, N.pow_succ_r' in Hf.
        apply N.Div0.div_lt_upper_bound. lia.
      * apply N.div_le_lower_bound; lia.
Qed.

Lemma str_of_N_length (n : N) (k : nat) :
  1 <= k -> (length (str_of_N n) <= k <-> (n < 10 ^ N.of_nat k)%N).
Proof.
  intros Hk. unfold str_of_N. split.
  - intros H. destruct (N.lt_ge_cases n (10 ^ N.of_nat k)) as [Hlt|Hge];
      [exact Hlt|].
    pose proof (digits_fuel_length_ge (N.size_nat n) n [] k
                  (size_nat_bound n) Hge) as L.
    lia.
  - intros H.
    pose proof (digits_fuel_length_le (S (N.size_nat n)) n [] k Hk H) as L.
    change (length (@nil ascii)) with 0 in L. lia.
Qed.

(** A number can be written when its absolute value is below [10^4300]. *)
Lemma printable_iff (z : Z) :
  printable z = true <-> (Z.abs z < 10 ^ Z.of_nat max_str_digits)%Z.
Proof.
  unfold printable. rewrite Nat.leb_le, str_of_N_length.
  - rewrite <- (N2Z.inj_abs_N z).
    replace 10%Z with (Z.of_N 10) by reflexivity.
    rewrite <- (nat_N_Z max_str_digits), <- N2Z.inj_pow. lia.
  - apply Nat.leb_le. reflexivity.
Qed.

(** What [int] returns can be written. *)
Lemma py_int_printable (s : str) (z : Z) :
  py_int s = Some z -> printable z = true.
Proof.
  unfold py_int. destruct (Nat.leb_spec (digit_count s) max_str_digits)
    as [Hle|]; [|discriminate].
  intros H. apply literal_value_bound in H. apply printable_iff.
  eapply Z.lt_le_trans; [exact H|].
  apply Z.pow_le_mono_r; lia.
Qed.

Lemma digits_no_space (d : str) :
  forallb is_digit d = true ->
  Forall (fun c => is_space c = false /\ c <> nl) d.
Proof.
  induction d as [|c t IH]; intros H; [constructor|].
  simpl in H. apply andb_prop in H as [Hc Ht].
  constructor; [|now apply IH]. split.
  - unfold is_digit, is_space in *.
    destruct (Nat.leb_spec 48 (nat_of_ascii c)); [|discriminate].
    destruct (Nat.leb_spec (nat_of_ascii c) 57); [|discriminate].
    repeat match goal with
           | |- context [(?a <=? ?b)] => destruct (Nat.leb_spec a b); try lia
           | |- context [(?a =? ?b)] => destruct (Nat.eqb_spec a b); try lia
           end; reflexivity.
  - intros ->. discriminate Hc.
Qed.

(** The decimal form of a number: no whitespace, no newline, not empty. *)
Lemma decimal_chars (z : Z) :
  decimal z <> [] /\
  Forall (fun c => is_space c = false /\ c <> nl) (decimal z).
Proof.
  unfold decimal. destruct (str_of_N_digits (Z.abs_N z)) as [[Hne Hall] _].
  apply digits_no_space in Hall.
  destruct (z <? 0)%Z.
  - split; [discriminate|]. constructor; [|exact Hall].
    split; [reflexivity | discriminate].
  - split; assumption.
Qed.

(* ------------------------------------------------------------------ *)
(** ** Stripping, splitting and joining *)

Lemma lstrip_spaces (w x : str) :
  forallb is_space w = true -> lstrip (w ++ x) = lstrip x.
Proof.
  induction w as [|c w IH]; intros H; [reflexivity|].
  simpl in *. apply andb_prop in H as [-> Hw]. now apply IH.
Qed.

Lemma forallb_rev {A : Type} (p : A -> bool) (l : list A) :
  forallb p (rev l) = forallb p l.
Proof.
  induction l as [|x l IH]; [reflexivity|].
  simpl. rewrite forallb_app, IH. simpl. rewrite andb_true_r.
  apply andb_comm.
Qed.

Lemma rstrip_spaces (s w : str) :
  forallb is_space w = true -> rstrip (s ++ w) = rstrip s.
Proof.
  intros H. unfold rstrip. rewrite rev_app_distr, lstrip_spaces; [reflexivity|].
  now rewrite forallb_rev.
Qed.

Lemma rstrip_snoc (s : str) (c : ascii) :
  is_space c = false -> rstrip (s ++ [c]) = s ++ [c].
Proof.
  intros H. unfold rstrip. rewrite rev_app_distr. simpl. rewrite H.
  change (c :: rev s) with (rev [c] ++ rev s).
  now rewrite <- rev_app_distr, rev_involutive.
Qed.

(** A text that [rstrip] leaves as it is ends with a character that is not
    whitespace. *)
Lemma rstrip_fixed_last (t : str) :
  rstrip t = t -> t <> [] ->
  exists s c, t = s ++ [c] /\ is_space c = false.
Proof.
  intros Hfix Hne. destruct (exists_last Hne) as (s & c & ->).
  exists s, c. split; [reflexivity|].
  destruct (is_space c) eqn:E; [|reflexivity].
  exfalso. rewrite (rstrip_spaces s [c]) in Hfix by (simpl; now rewrite E).
  apply (f_equal (@length _)) in Hfix.
  unfold rstrip in Hfix. rewrite length_rev, length_app in Hfix.
  pose proof (lstrip_length (rev s)) as L. rewrite length_rev in L.
  simpl in Hfix. lia.
Qed.

(** A text that starts and ends with characters that are not whitespace is
    left as it is by [strip], also when one newline follows it. *)
Lemma strip_clean (c d : ascii) (t u : str) :
  c :: t = u ++ [d] -> is_space c = false -> is_space d = false ->
  strip (c :: t) = c :: t /\ strip ((c :: t) ++ [nl]) = c :: t.
Proof.
  intros E Hc Hd. unfold strip. split.
  - simpl. rewrite Hc, E. now apply rstrip_snoc.
  - simpl. rewrite Hc. change (c :: t ++ [nl]) with ((c :: t) ++ [nl]).
    rewrite rstrip_spaces by reflexivity. rewrite E. now apply rstrip_snoc.
Qed.

Lemma split_on_cons (sep : ascii) (s : str) :
  exists h r, split_on sep s = h :: r.
Proof.
  induction s as [|c t (h & r & IH)]; simpl; [eauto|].
  destruct (Ascii.eqb c sep); [eauto|]. rewrite IH. eauto.
Qed.

Lemma join_cons (sep x y : str) (r : list str) :
  join sep (x :: y :: r) = x ++ sep ++ join sep (y :: r).
Proof. reflexivity. Qed.

(** Joining the lines of a text gives the text. *)
Lemma join_split_on (sep : ascii) (s : str) :
  join [sep] (split_on sep s) = s.
Proof.
  induction s as [|c t IH]; [reflexivity|].
  cbn [split_on]. destruct (split_on_cons sep t) as (h & r & E).
  rewrite E in *.
  destruct (Ascii.eqb_spec c sep) as [->|_].
  - rewrite join_cons, IH. reflexivity.
  - destruct r as [|y r].
    + simpl in *. now rewrite IH.
    + rewrite join_cons in *. rewrite <- IH. reflexivity.
Qed.

Lemma split_on_free (sep : ascii) (l : str) :
  ~ In sep l -> split_on sep l = [l].
Proof.
  induction l as [|c t IH]; intros H; [reflexivity|].
  cbn [split_on]. destruct (Ascii.eqb_spec c sep) as [->|_].
  - elim H. now left.
  - rewrite IH; [reflexivity|]. intros H'. apply H. now right.
Qed.

Lemma split_on_app (sep : ascii) (l x : str) :
  ~ In sep l -> split_on sep (l ++ sep :: x) = l :: split_on sep x.
Proof.
  induction l as [|c t IH]; intros H.
  - simpl. now rewrite Ascii.eqb_refl.
  - cbn [app split_on]. destruct (Ascii.eqb_spec c sep) as [->|_].
    + elim H. now left.
    + rewrite IH; [reflexivity|]. intros H'. apply H. now right.
Qed.

(** Splitting joined lines gives the lines, when no line has the
    separator. *)
Lemma split_on_join (sep : ascii) (ls : list str) :
  ls <> [] -> Forall (fun l => ~ In sep l) ls ->
  split_on sep (join [sep] ls) = ls.
Proof.
  induction ls as [|l ls IH]; intros Hne Hall; [now elim Hne|].
  inversion Hall as [|? ? Hl Hls]; subst.
  destruct ls as [|l2 ls].
  - simpl. now apply split_on_free.
  - rewrite join_cons. cbn [app].
    rewrite split_on_app by exact Hl. f_equal.
    apply IH; [discriminate | exact Hls].
Qed.

Lemma split_on_lines_free (sep : ascii) (s : str) :
  Forall (fun l => ~ In sep l) (split_on sep s).
Proof.
  induction s as [|c t IH]; simpl.
  - constructor; [intros [] | constructor].
  - destruct (Ascii.eqb_spec c sep) as [->|Hc].
    + constructor; [intros [] | exact IH].
    + destruct (split_on sep t) as [|h r]; [repeat constructor; intros [H|[]];
        now elim Hc|].
      inversion IH as [|? ? Hh Hr]; subst.
      constructor; [|exact Hr]. intros [H|H]; [now elim Hc | now elim Hh].
Qed.

(* ------------------------------------------------------------------ *)
(** ** The timestamp line *)

Lemma match_pat_app (p : list Re.pat) (s m r x : str) :
  Re.match_pat p s = Some (m, r) ->
  Re.match_pat p (s ++ x) = Some (m, r ++ x).
Proof.
  revert s m r. induction p as [|q p IH]; intros s m r H.
  - simpl in *. now injection H as <- <-.
  - destruct s as [|c t]; [discriminate|]. cbn [Re.match_pat app] in *.
    destruct (match q with
              | Re.PDigit => is_digit c
              | Re.PChar d => Ascii.eqb c d
              end); [|discriminate].
    destruct (Re.match_pat p t) as [[m' r']|] eqn:E; [|discriminate].
    injection H as <- <-. now rewrite (IH _ _ _ E).
Qed.

Lemma match_pat_free (p : list Re.pat) (s m r : str) :
  Forall pat_free p -> Re.match_pat p s = Some (m, r) -> ~ In nl m.
Proof.
  intros Hp. revert s m r. induction Hp as [|q p Hq Hp IH]; intros s m r H.
  - simpl in H. injection H as <- _. intros [].
  - destruct s as [|c t]; [discriminate|]. cbn [Re.match_pat] in H.
    destruct (match q with
              | Re.PDigit => is_digit c
              | Re.PChar d => Ascii.eqb c d
              end) eqn:Ec; [|discriminate].
    destruct (Re.match_pat p t) as [[m' r']|] eqn:E; [|discriminate].
    injection H as <- _. intros [Hc|Hin]; [|exact (IH _ _ _ E Hin)].
    subst c. destruct q as [|d]; [discriminate Ec|].
    apply Ascii.eqb_eq in Ec. now elim Hq.
Qed.

(** A timestamp has no newline and starts with a digit. *)
Lemma is_time_chars (t : str) :
  is_time t ->
  ~ In nl t /\ exists c t', t = c :: t' /\ is_digit c = true.
Proof.
  unfold is_time. intros H. split.
  - apply (match_pat_free Re.time_pat t t []); [|exact H].
    repeat constructor; discriminate.
  - destruct t as [|c t']; [discriminate|]. exists c, t'.
    split; [reflexivity|]. cbn [Re.time_pat Re.match_pat] in H.
    destruct (is_digit c); [reflexivity | discriminate].
Qed.

(** The timestamp line that [format_srt] writes is read back by
    [parse_srt]. *)
Lemma match_timestamp_line (start stop : str) :
  is_time start -> is_time stop ->
  Re.match_timestamp (start ++ Re.arrow ++ stop) = Some (start, stop).
Proof.
  unfold is_time, Re.match_timestamp. intros H1 H2.
  rewrite (match_pat_app _ _ _ _ (Re.arrow ++ stop) H1).
  assert (Ha : Re.match_pat (map Re.PChar Re.arrow) ([] ++ Re.arrow ++ stop)
               = Some (Re.arrow, stop)) by reflexivity.
  rewrite Ha. cbv beta iota. now rewrite H2.
Qed.

(* ------------------------------------------------------------------ *)
(** ** Splitting a document into blocks *)

Lemma after_last_nl_shorter (w w' : str) :
  Re.after_last_nl w = Some w' -> length w' < length w.
Proof.
  revert w'. induction w as [|c t IH]; intros w' H; [discriminate|].
  simpl in H. destruct (Re.after_last_nl t) as [r|].
  - injection H as <-. specialize (IH r eq_refl). simpl. lia.
  - destruct (Ascii.eqb c nl); [|discriminate]. injection H as <-.
    simpl. lia.
Qed.

Lemma blank_at_shorter (s r : str) :
  Re.blank_at s = Some r -> length r < length s.
Proof.
  unfold Re.blank_at. destruct s as [|c t]; [discriminate|].
  destruct (Ascii.eqb c nl); [|discriminate].
  pose proof (span_app is_space t) as E.
  destruct (Re.span is_space t) as [w x]. simpl in E.
  destruct (Re.after_last_nl w) as [w'|] eqn:Ew; [|discriminate].
  intros [= <-]. apply after_last_nl_shorter in Ew.
  rewrite <- E. rewrite !length_app. simpl. rewrite length_app. lia.
Qed.

Lemma find_blank_shorter (s p r : str) :
  Re.find_blank s = Some (p, r) -> length r < length s.
Proof.
  revert p. induction s as [|c t IH]; intros p; cbn [Re.find_blank].
  - simpl. discriminate.
  - destruct (Re.blank_at (c :: t)) as [x|] eqn:E.
    + intros [= <- <-]. now apply blank_at_shorter in E.
    + destruct (Re.find_blank t) as [[p' r']|]; [|discriminate].
      intros [= <- <-]. specialize (IH p' eq_refl). simpl. lia.
Qed.

Lemma blank_split_fuel_irrelevant (f g : nat) (s : str) :
  length s <= f -> length s <= g ->
  Re.blank_split_fuel f s = Re.blank_split_fuel g s.
Proof.
  revert g s. induction f as [|f IH]; intros g s Hf Hg.
  - destruct s; [|simpl in Hf; lia]. destruct g; reflexivity.
  - destruct g as [|g].
    + destruct s; [reflexivity | simpl in Hg; lia].
    + cbn [Re.blank_split_fuel].
      destruct (Re.find_blank s) as [[p r]|] eqn:E; [|reflexivity].
      apply find_blank_shorter in E. f_equal. apply IH; lia.
Qed.

(** The equation of [re.split] on the block separator. *)
Lemma blank_split_eq (s : str) :
  Re.blank_split s =
  match Re.find_blank s with
  | Some (p, r) => p :: Re.blank_split r
  | None => [s]
  end.
Proof.
  unfold Re.blank_split at 1. destruct s as [|c t]; [reflexivity|].
  cbn [length Re.blank_split_fuel].
  destruct (Re.find_blank (c :: t)) as [[p r]|] eqn:E; [|reflexivity].
  apply find_blank_shorter in E. simpl in E.
  f_equal. apply blank_split_fuel_irrelevant; lia.
Qed.

(** No separator starts inside a line. *)
Lemma find_blank_line (l x : str) :
  ~ In nl l ->
  Re.find_blank (l ++ x) =
  match Re.find_blank x with
  | Some (p, r) => Some (l ++ p, r)
  | None => None
  end.
Proof.
  induction l as [|c t IH]; intros H.
  - simpl. now destruct (Re.find_blank x) as [[p r]|].
  - cbn [app Re.find_blank].
    assert (Hc : Ascii.eqb c nl = false).
    { destruct (Ascii.eqb_spec c nl) as [->|]; [elim H; now left | reflexivity]. }
    unfold Re.blank_at. rewrite Hc. rewrite IH by (intros H'; apply H; now right).
    now destruct (Re.find_blank x) as [[p r]|].
Qed.

Lemma proper_line_run (l x : str) :
  proper_line l ->
  Re.after_last_nl (fst (Re.span is_space (l ++ x))) = None.
Proof.
  intros [Hb Hn]. induction l as [|c t IH]; [discriminate|].
  cbn [app Re.span]. destruct (is_space c) eqn:Ec; [|reflexivity].
  simpl in Hb. rewrite Ec in Hb. simpl in Hb.
  specialize (IH Hb (fun H' => Hn (or_intror H'))).
  destruct (Re.span is_space (t ++ x)) as [a b]. simpl in *. rewrite IH.
  destruct (Ascii.eqb_spec c nl) as [->|]; [elim Hn; now left | reflexivity].
Qed.

(** No separator starts at the newline that ends a line and is followed by
    a proper line. *)
Lemma blank_at_line (l x : str) :
  proper_line l -> Re.blank_at (nl :: l ++ x) = None.
Proof.
  intros H. unfold Re.blank_at. rewrite Ascii.eqb_refl.
  pose proof (proper_line_run l x H) as R.
  destruct (Re.span is_space (l ++ x)) as [a b]. simpl in R. now rewrite R.
Qed.

(** An empty line followed by a proper line is a separator, which ends
    where that line starts. *)
Lemma blank_at_separator (l x : str) :
  proper_line l -> Re.blank_at (nl :: nl :: l ++ x) = Some (l ++ x).
Proof.
  intros H. unfold Re.blank_at. rewrite Ascii.eqb_refl.
  cbn [Re.span]. change (is_space nl) with true. cbv iota.
  pose proof (proper_line_run l x H) as R.
  pose proof (span_app is_space (l ++ x)) as E.
  destruct (Re.span is_space (l ++ x)) as [a b]. simpl in R, E.
  cbn [Re.after_last_nl]. rewrite R, Ascii.eqb_refl. now rewrite E.
Qed.

Lemma join_head (sep l : str) (ls : list str) :
  exists y, join sep (l :: ls) = l ++ y.
Proof.
  destruct ls as [|l2 ls].
  - exists []. simpl. now rewrite app_nil_r.
  - rewrite join_cons. eauto.
Qed.

(** No separator starts inside a block of proper lines. *)
Lemma find_blank_lines (ls : list str) (x : str) :
  ls <> [] -> Forall proper_line ls ->
  Re.find_blank (join [nl] ls ++ x) =
  match Re.find_blank x with
  | Some (p, r) => Some (join [nl] ls ++ p, r)
  | None => None
  end.
Proof.
  induction ls as [|l ls IH]; intros Hne Hall; [now elim Hne|].
  inversion Hall as [|? ? Hl Hls]; subst.
  destruct ls as [|l2 ls].
  - simpl. apply find_blank_line, Hl.
  - rewrite join_cons, <- !app_assoc. cbn [app].
    rewrite find_blank_line by apply Hl.
    assert (Hrest : Re.find_blank (nl :: join [nl] (l2 :: ls) ++ x) =
              match Re.find_blank x with
              | Some (p, r) => Some (nl :: join [nl] (l2 :: ls) ++ p, r)
              | None => None
              end).
    { cbn [Re.find_blank].
      destruct (join_head [nl] l2 ls) as [y Ey].
      inversion Hls as [|? ? Hl2 _]; subst.
      replace (Re.blank_at (nl :: join [nl] (l2 :: ls) ++ x)) with (@None str)
        by (rewrite Ey, <- app_assoc; symmetry; now apply blank_at_line).
      rewrite IH by (discriminate || exact Hls).
      now destruct (Re.find_blank x) as [[p r]|]. }
    rewrite Hrest. destruct (Re.find_blank x) as [[p r]|]; [|reflexivity].
    now rewrite <- app_assoc.
Qed.

(** Blocks separated by one empty line are split into the blocks. *)
Lemma blank_split_blocks (bs : list str) :
  bs <> [] -> Forall proper_block bs ->
  Re.blank_split (join [nl; nl] bs) = bs.
Proof.
  induction bs as [|b bs IH]; intros Hne Hall; [now elim Hne|].
  inversion Hall as [|? ? Hb Hbs]; subst.
  destruct Hb as (ls & Hls & Hlines & ->).
  rewrite blank_split_eq.
  destruct bs as [|b2 bs].
  - cbn [join]. rewrite <- (app_nil_r (join [nl] ls)) at 1.
    now rewrite find_blank_lines.
  - rewrite join_cons. rewrite find_blank_lines by assumption.
    inversion Hbs as [|? ? Hb2 _]; subst.
    destruct Hb2 as (ls2 & Hls2 & Hlines2 & E2).
    destruct ls2 as [|l2 ls2]; [now elim Hls2|].
    inversion Hlines2 as [|? ? Hl2 _]; subst.
    destruct (join_head [nl] l2 ls2) as [y Ey].
    destruct (join_head [nl; nl] (join [nl] (l2 :: ls2)) bs) as [z Ez].
    assert (Hsep : Re.find_blank
                     ([nl; nl] ++ join [nl; nl] (join [nl] (l2 :: ls2) :: bs))
                   = Some ([], join [nl; nl] (join [nl] (l2 :: ls2) :: bs))).
    { rewrite Ez, Ey, <- app_assoc. cbn [app Re.find_blank].
      now rewrite blank_at_separator. }
    rewrite Hsep, app_nil_r. f_equal.
    apply IH; [discriminate | exact Hbs].
Qed.

(* ------------------------------------------------------------------ *)
(** ** Reading back what [format_srt] writes *)

Lemma entry_block_lines (e : subtitle) :
  entry_block e = join [nl] (entry_all_lines e).
Proof.
  unfold entry_block, entry_lines, entry_all_lines.
  destruct (split_on_cons nl (text e)) as (h & r & E).
  pose proof (join_split_on nl (text e)) as J. rewrite E in *.
  rewrite !join_cons, J. reflexivity.
Qed.

Lemma not_blank_cons (c : ascii) (t : str) :
  is_space c = false -> is_blank (c :: t) = false.
Proof. intros H. unfold is_blank. simpl. now rewrite H. Qed.

Lemma lines_not_blank_nonempty (t : str) : lines_not_blank t -> t <> [].
Proof.
  intros H ->. inversion H as [|? ? Hb _]; subst. discriminate Hb.
Qed.

Lemma entry_lines_proper (e : subtitle) :
  plain_entry e -> Forall proper_line (entry_all_lines e).
Proof.
  intros [Hs He Ht]. unfold entry_all_lines.
  destruct (decimal_chars (number e)) as [Hne Hchars].
  destruct (is_time_chars _ Hs) as [Hs1 (c & t' & Hs2 & Hc)].
  destruct (is_time_chars _ He) as [He1 _].
  constructor; [|constructor].
  - split.
    + destruct (decimal (number e)) as [|x s]; [now elim Hne|].
      inversion Hchars as [|? ? [Hx _] _]; subst. now apply not_blank_cons.
    + intros H. rewrite Forall_forall in Hchars.
      destruct (Hchars nl H) as [_ Hn]. now elim Hn.
  - split.
    + rewrite Hs2. cbn [app]. apply not_blank_cons.
      assert (Hd : forallb is_digit [c] = true) by (simpl; now rewrite Hc).
      apply digits_no_space in Hd. inversion Hd as [|? ? [Hx _] _]. exact Hx.
    + rewrite !in_app_iff. intros [H|[H|H]]; [now elim Hs1 | | now elim He1].
      simpl in H. intuition discriminate.
  - pose proof (split_on_lines_free nl (text e)) as Hfree.
    unfold lines_not_blank in Ht. rewrite Forall_forall in *.
    intros l Hl. split; [now apply Ht | now apply Hfree].
Qed.

Lemma entry_block_proper (e : subtitle) :
  plain_entry e -> proper_block (entry_block e).
Proof.
  intros H. exists (entry_all_lines e).
  split; [discriminate|]. split; [now apply entry_lines_proper|].
  apply entry_block_lines.
Qed.

Lemma entry_block_clean (e : subtitle) :
  trimmed_entry e -> clean_ends (entry_block e).
Proof.
  intros [[Hs He Ht] Htrim].
  destruct (decimal_chars (number e)) as [Hne Hchars].
  destruct (rstrip_fixed_last _ Htrim (lines_not_blank_nonempty _ Ht))
    as (s & d & Etext & Hd).
  unfold clean_ends, entry_block, entry_lines. rewrite !join_cons.
  cbn [join]. destruct (decimal (number e)) as [|c x]; [now elim Hne|].
  inversion Hchars as [|? ? [Hc _] _]; subst.
  exists c, (x ++ [nl] ++ (start_time e ++ Re.arrow ++ end_time e)
               ++ [nl] ++ text e),
    ((c :: x) ++ [nl] ++ (start_time e ++ Re.arrow ++ end_time e)
       ++ [nl] ++ s), d.
  split; [reflexivity|]. split; [|split; assumption].
  rewrite Etext. now rewrite <- !app_assoc.
Qed.

Lemma strip_no_space (s : str) :
  Forall (fun c => is_space c = false /\ c <> nl) s -> strip s = s.
Proof.
  intros H. destruct s as [|c t]; [reflexivity|].
  destruct (@exists_last _ (c :: t) ltac:(discriminate)) as (u & d & E).
  assert (Hc : is_space c = false) by (inversion H as [|? ? [Hc _] _]; exact Hc).
  assert (Hd : is_space d = false).
  { rewrite Forall_forall in H. apply (H d). rewrite E.
    apply in_or_app. right. now left. }
  now destruct (strip_clean c d t u E Hc Hd).
Qed.

(** A block that [format_srt] wrote for an entry is parsed into the
    entry. *)
Lemma parse_block_entry (e : subtitle) :
  trimmed_entry e -> printable (number e) = true ->
  SrtParser.parse_block (entry_block e) = Some e.
Proof.
  intros Htr Hnum. pose proof Htr as [Hplain _].
  pose proof Hplain as [Hs He Ht].
  destruct (entry_block_clean e Htr) as (c & t & u & d & E1 & E2 & Hc & Hd).
  unfold SrtParser.parse_block.
  assert (Hstrip : strip (entry_block e) = entry_block e).
  { rewrite E1. rewrite E1 in E2. now destruct (strip_clean c d t u E2 Hc Hd). }
  assert (Hblank : is_blank (entry_block e) = false)
    by (rewrite E1; now apply not_blank_cons).
  rewrite Hblank, Hstrip, entry_block_lines.
  pose proof (entry_lines_proper e Hplain) as Hproper.
  rewrite split_on_join;
    [|discriminate
     |rewrite Forall_forall in *; intros l Hl; now apply Hproper].
  unfold entry_all_lines.
  destruct (split_on_cons nl (text e)) as (h & r & Eh). rewrite Eh.
  cbn [length nth skipn Nat.ltb Nat.leb].
  rewrite strip_no_space by apply decimal_chars.
  rewrite (py_int_decimal _ Hnum), match_timestamp_line by assumption.
  rewrite <- Eh, join_split_on. now destruct e.
Qed.

Lemma parse_blocks_entries (es : list subtitle) :
  Forall trimmed_entry es -> printable_entries es = true ->
  SrtParser.parse_blocks (map entry_block es) = es.
Proof.
  unfold printable_entries.
  induction 1 as [|e es He Hes IH]; intros Hp; [reflexivity|].
  cbn [forallb] in Hp. apply andb_prop in Hp as [Hp1 Hp2].
  simpl. now rewrite parse_block_entry, IH.
Qed.

Lemma serialized_cons (e : subtitle) (es : list subtitle) :
  serialized (e :: es)
  = entry_block e ++ [nl] ++
    match es with
    | [] => []
    | _ :: _ => [nl] ++ serialized es
    end.
Proof.
  unfold serialized, entry_block, entry_lines.
  cbn [flat_map serial_lines app].
  rewrite !join_cons. cbn [join]. rewrite <- !app_assoc.
  do 5 f_equal. destruct es as [|e2 es]; [reflexivity|].
  cbn [flat_map serial_lines app]. rewrite join_cons.
  reflexivity.
Qed.

(** What [format_srt] writes: the blocks of the entries, one empty line
    between two of them, and a newline at the end. *)
Lemma serialized_blocks (e : subtitle) (es : list subtitle) :
  serialized (e :: es)
  = join [nl; nl] (map entry_block (e :: es)) ++ [nl].
Proof.
  revert e. induction es as [|e2 es IH]; intros e.
  - rewrite serialized_cons. reflexivity.
  - rewrite serialized_cons, IH. cbn [map]. rewrite join_cons.
    now rewrite <- !app_assoc.
Qed.

Lemma clean_ends_join (sep : str) (bs : list str) :
  bs <> [] -> Forall clean_ends bs -> clean_ends (join sep bs).
Proof.
  induction bs as [|b bs IH]; intros Hne Hall; [now elim Hne|].
  inversion Hall as [|? ? Hb Hbs]; subst.
  destruct bs as [|b2 bs]; [exact Hb|].
  rewrite join_cons.
  destruct Hb as (c & t & _ & _ & -> & _ & Hc & _).
  destruct (IH ltac:(discriminate) Hbs) as (_ & _ & u & d & _ & -> & _ & Hd).
  exists c, (t ++ sep ++ u ++ [d]), ((c :: t) ++ sep ++ u), d.
  split; [reflexivity|]. split; [|split; assumption].
  now rewrite <- !app_assoc.
Qed.

Lemma parse_srt_serialized (es : list subtitle) :
  Forall trimmed_entry es -> printable_entries es = true ->
  SrtParser.parse_srt (serialized es) = es.
Proof.
  intros Hall Hp. destruct es as [|e es]; [reflexivity|].
  unfold SrtParser.parse_srt. rewrite serialized_blocks.
  assert (Hclean : clean_ends (join [nl; nl] (map entry_block (e :: es)))).
  { apply clean_ends_join; [discriminate|].
    apply Forall_map. revert Hall. apply Forall_impl.
    intros x. apply entry_block_clean. }
  destruct Hclean as (c & t & u & d & E1 & E2 & Hc & Hd).
  rewrite E1. rewrite E1 in E2.
  destruct (strip_clean c d t u E2 Hc Hd) as [_ ->]. rewrite <- E1.
  rewrite blank_split_blocks.
  - now apply parse_blocks_entries.
  - discriminate.
  - apply Forall_map. revert Hall. apply Forall_impl.
    intros x [Hx _]. now apply entry_block_proper.
Qed.

(** A number of more than 4300 digits. *)
Lemma not_printable_power : printable (10 ^ Z.of_nat max_str_digits) = false.
Proof.
  destruct (printable (10 ^ Z.of_nat max_str_digits)) eqn:E; [|reflexivity].
  apply printable_iff in E. rewrite Z.abs_eq in E by (apply Z.pow_nonneg; lia).
  lia.
Qed.

(** C10 (as amended). For every sequence of entries whose numbers have at
    most 4300 digits, whose timestamps have the form HH:MM:SS,mmm and whose
    texts have no empty or whitespace-only line and do not end with
    whitespace, the sequence is serialized and parsing the serialized form
    gives the sequence back.  For a sequence with a number of more than 4300
    digits [format_srt] raises. *)
Theorem C10_parse_after_format (entries : list subtitle) :
  (printable_entries entries = true ->
   Forall trimmed_entry entries ->
   exists written,
     SrtParser.format_srt entries = Some written /\
     SrtParser.parse_srt written = entries) /\
  (printable_entries entries = false -> SrtParser.format_srt entries = None).
Proof.
  rewrite format_srt_serialized. split.
  - intros Hp Hall. rewrite Hp. exists (serialized entries).
    split; [reflexivity | now apply parse_srt_serialized].
  - now intros ->.
Qed.

(** Instance of C10: two entries, one with a negative number and a text of
    two lines; and an entry numbered [10^4300]. *)
Lemma C10_parse_after_format_witness :
  (exists written,
     SrtParser.format_srt
       [sub 1 "  Hello";
        {| number := -2; start_time := ts1; end_time := ts2;
           text := lit "World," ++ [nl] ++ lit " again" |}] = Some written /\
     SrtParser.parse_srt written
     = [sub 1 "  Hello";
        {| number := -2; start_time := ts1; end_time := ts2;
           text := lit "World," ++ [nl] ++ lit " again" |}]) /\
  SrtParser.format_srt [sub (10 ^ Z.of_nat max_str_digits) "Hello"] = None.
Proof.
  split.
  - destruct (C10_parse_after_format
                [sub 1 "  Hello";
                 {| number := -2; start_time := ts1; end_time := ts2;
                    text := lit "World," ++ [nl] ++ lit " again" |}])
      as [H _].
    apply H; [reflexivity | repeat constructor].
  - destruct (C10_parse_after_format
                [sub (10 ^ Z.of_nat max_str_digits) "Hello"]) as [_ H].
    apply H. unfold printable_entries. cbn [forallb sub number].
    now rewrite not_printable_power.
Defined.

(** C10 as stated fails: a text that ends with a space has no blank line,
    and the space is lost; and an entry whose number has 4301 digits is not
    serialized at all. *)
Lemma C10_trailing_space_is_lost :
  (Forall plain_entry [sub 1 "Hi "] /\
   SrtParser.format_srt [sub 1 "Hi "]
   = Some (lit "1" ++ [nl] ++ lit "00:00:01,000 --> 00:00:02,000" ++ [nl] ++
           lit "Hi " ++ [nl]) /\
   SrtParser.parse_srt
     (lit "1" ++ [nl] ++ lit "00:00:01,000 --> 00:00:02,000" ++ [nl] ++
      lit "Hi " ++ [nl]) = [sub 1 "Hi"] /\
   [sub 1 "Hi"] <> [sub 1 "Hi "]) /\
  (Forall plain_entry [sub (10 ^ Z.of_nat max_str_digits) "Hi"] /\
   SrtParser.format_srt [sub (10 ^ Z.of_nat max_str_digits) "Hi"] = None).
Proof.
  split.
  - split; [repeat constructor|]. split; [reflexivity|].
    split; [reflexivity | discriminate].
  - split; [repeat constructor|].
    rewrite format_srt_serialized. unfold printable_entries.
    cbn [forallb sub number]. now rewrite not_printable_power.
Qed.

Lemma canonical_document_serialized (x : str) :
  canonical_document x ->
  exists es,
    Forall trimmed_entry es /\ printable_entries es = true /\
    x = serialized es.
Proof.
  induction 1 as [|e He Hp|e x He Hp Hx (es & Hes & Hps & ->) Hne].
  - exists []. split; [constructor|]. split; reflexivity.
  - exists [e]. split; [constructor; [exact He | constructor]|].
    split; [unfold printable_entries; cbn [forallb]; now rewrite Hp|].
    now rewrite serialized_cons.
  - exists (e :: es). split; [now constructor|].
    split; [unfold printable_entries in *; cbn [forallb]; now rewrite Hp|].
    rewrite serialized_cons. destruct es as [|e2 es]; [now elim Hne|].
    reflexivity.
Qed.

(** C5 (as amended). For every document in canonical form (each entry
    written as its number in decimal, of at most 4300 digits, the timestamp
    line with nothing after the second timestamp, a text without blank
    lines that does not end with whitespace, every line ended by a newline,
    and exactly one empty line between two entries), serializing the parse
    result gives the document back. *)
Theorem C5_format_after_parse (x : str) :
  canonical_document x ->
  SrtParser.format_srt (SrtParser.parse_srt x) = Some x.
Proof.
  intros H. destruct (canonical_document_serialized x H) as (es & Hes & Hp & ->).
  rewrite (parse_srt_serialized es Hes Hp), format_srt_serialized.
  now rewrite Hp.
Qed.

(** Instance of C5: a document of two entries. *)
Lemma C5_format_after_parse_witness :
  SrtParser.format_srt
    (SrtParser.parse_srt
       (entry_block (sub 1 "Hello") ++ [nl; nl] ++
        entry_block (sub 2 "World") ++ [nl]))
  = Some (entry_block (sub 1 "Hello") ++ [nl; nl] ++
          entry_block (sub 2 "World") ++ [nl]).
Proof.
  apply (C5_format_after_parse
           (entry_block (sub 1 "Hello") ++ [nl; nl] ++
            entry_block (sub 2 "World") ++ [nl])).
  apply canonical_more.
  - repeat constructor.
  - reflexivity.
  - apply canonical_last; [repeat constructor | reflexivity].
  - discriminate.
Defined.

(** C5 as stated fails: a document of one block that ends with its last
    line of text is in the grammar, and the serialization of its parse
    result ends with a newline that the document does not have.  And a
    block whose number line has more digits than [int] reads is dropped:
    with 4301 digits nothing of the document comes back. *)
Lemma C5_final_newline_is_added :
  (grammar_document
     (lit "1" ++ [nl] ++ lit "00:00:01,000 --> 00:00:02,000" ++ [nl] ++
      lit "Hello") /\
   SrtParser.format_srt
     (SrtParser.parse_srt
        (lit "1" ++ [nl] ++ lit "00:00:01,000 --> 00:00:02,000" ++ [nl] ++
         lit "Hello"))
   = Some (lit "1" ++ [nl] ++ lit "00:00:01,000 --> 00:00:02,000" ++ [nl] ++
           lit "Hello" ++ [nl]) /\
   lit "1" ++ [nl] ++ lit "00:00:01,000 --> 00:00:02,000" ++ [nl] ++
     lit "Hello" ++ [nl]
   <> lit "1" ++ [nl] ++ lit "00:00:01,000 --> 00:00:02,000" ++ [nl] ++
      lit "Hello") /\
  SrtParser.format_srt
    (SrtParser.parse_srt
       (repeat "1"%char 4301 ++ [nl] ++
        lit "00:00:01,000 --> 00:00:02,000" ++ [nl] ++ lit "Hello" ++ [nl]))
  = Some [].
Proof.
  split; [|vm_compute; reflexivity].
  split; [|split; [reflexivity | discriminate]].
  exists [lit "1" ++ [nl] ++ lit "00:00:01,000 --> 00:00:02,000" ++ [nl] ++
          lit "Hello"].
  split; [|reflexivity]. constructor; [|constructor].
  exists (lit "1"), 1%Z, ts1, ts2, [lit "Hello"].
  repeat split; try reflexivity; try discriminate.
  constructor; [|constructor]. split; [reflexivity|].
  simpl. intuition discriminate.
Qed.

Example parse_drops_leading_zero :
  SrtParser.format_srt
    (SrtParser.parse_srt
       (lit "01" ++ [nl] ++ lit "00:00:01,000 --> 00:00:02,000" ++ [nl] ++
        lit "Hello" ++ [nl]))
  = Some (lit "1" ++ [nl] ++ lit "00:00:01,000 --> 00:00:02,000" ++ [nl] ++
          lit "Hello" ++ [nl]).
Proof. reflexivity. Qed.

(* ------------------------------------------------------------------ *)
(** ** Runs of the worker, and the window that listens to them *)





Lemma format_srt_printable (l : list subtitle) (written : str) :
  SrtParser.format_srt l = Some written ->
  printable_entries l = true /\ written = serialized l.
Proof.
  rewrite format_srt_serialized. destruct (printable_entries l);
    [|discriminate].
  intros [= <-]. now split.
Qed.

Section RunFacts.

Import TranslationWorker.

Variable translate_text : nat -> str -> option (bool * str).
Variable abort : nat -> bool.
Variable delay : Z.
Variable percent : nat -> nat -> Z.

Local Abbreviation loop := (translate_loop translate_text abort delay percent).



(** What the window holds after the notifications of the loop: no slot
    raises. *)
Lemma loop_window (total : nat) (batches : list (list subtitle)) :
  forall i acc w,
    TranslationApp.translated_subtitles w = acc ->
    SrtParser.format_srt acc = Some (TranslationApp.srt_target_text w) ->
    exists w',
      TranslationApp.deliver_all w (loop total i batches acc) = Some w' /\
      TranslationApp.translated_subtitles w'
      = acc ++ completed_entries (loop total i batches acc) /\
      SrtParser.format_srt
        (acc ++ completed_entries (loop total i batches acc))
      = Some (TranslationApp.srt_target_text w') /\
      (forall msg,
         In (TranslationFinished true msg) (loop total i batches acc) ->
         msg = TranslationApp.srt_target_text w').
Proof.
  assert (Hstay : forall acc w (trace : list event),
            TranslationApp.translated_subtitles w = acc ->
            SrtParser.format_srt acc
            = Some (TranslationApp.srt_target_text w) ->
            Forall (fun e => match e with
                             | BatchCompleted _ _ => False
                             | TranslationFinished ok _ => ok = false
                             | _ => True
                             end) trace ->
            exists w',
              TranslationApp.deliver_all w trace = Some w' /\
              TranslationApp.translated_subtitles w'
              = acc ++ completed_entries trace /\
              SrtParser.format_srt (acc ++ completed_entries trace)
              = Some (TranslationApp.srt_target_text w') /\
              (forall msg, In (TranslationFinished true msg) trace ->
                 msg = TranslationApp.srt_target_text w')).
  { intros acc w trace Hs Ht Hall. exists w.
    induction Hall as [|e trace He _ IH].
    - cbn. rewrite app_nil_r. repeat split; try assumption. intros msg [].
    - destruct IH as (I1 & I2 & I3 & I4).
      destruct e; try contradiction;
        try (cbn in *; repeat split; try assumption;
             intros msg [H|H]; [discriminate H | now apply I4]).
      subst success. cbn in *. repeat split; try assumption.
      intros msg' [H|H]; [discriminate H | now apply I4]. }
  induction batches as [|b rest IH]; intros i acc w Hs Ht.
  - cbn [translate_loop]. rewrite Ht.
    exists (TranslationApp.handle_srt_translation_finished w true
              (TranslationApp.srt_target_text w)).
    cbn. rewrite app_nil_r. repeat split; try assumption.
    intros msg [[= <-]|[]]. reflexivity.
  - cbn [translate_loop]. destruct (abort i);
      [apply Hstay; repeat constructor; assumption|].
    destruct (batch_text b) as [request|] eqn:Hreq;
      [|apply Hstay; repeat constructor; assumption].
    destruct (translate_text i request) as [[ok answer]|];
      [|apply Hstay; repeat constructor; assumption].
    destruct ok; cbn [negb];
      [|apply Hstay; repeat constructor; assumption].
    destruct (reconcile b answer) as [tb|] eqn:Hrec;
      [|apply Hstay; repeat constructor; assumption].
    assert (Hp : printable_entries (acc ++ tb) = true).
    { rewrite printable_entries_app.
      destruct (format_srt_printable _ _ Ht) as [-> _].
      apply (reconcile_printable b _ answer Hrec).
      now apply batch_text_some in Hreq. }
    set (w1 := {| TranslationApp.translated_subtitles := acc ++ tb;
                  TranslationApp.srt_target_text := serialized (acc ++ tb) |}).
    assert (H1 : TranslationApp.handle_batch_completed w tb = Some w1).
    { unfold TranslationApp.handle_batch_completed.
      now rewrite Hs, format_srt_serialized, Hp. }
    destruct (IH (S i) (acc ++ tb) w1 eq_refl) as (w' & D & I1 & I2 & I3).
    { now rewrite format_srt_serialized, Hp. }
    exists w'.
    set (tail := loop total (S i) rest (acc ++ tb)) in *.
    assert (Hfold : TranslationApp.deliver_all w
                      (TranslateText i request
                       :: BatchCompleted i tb
                       :: ProgressUpdated (percent (i + 1) total)
                       :: (if (0 <? delay)%Z && (i <? total - 1)
                           then [Sleep delay] else []) ++ tail)
                    = TranslationApp.deliver_all w1 tail).
    { cbn [TranslationApp.deliver_all TranslationApp.deliver]. rewrite H1.
      now destruct ((0 <? delay)%Z && (i <? total - 1)). }
    assert (Hce : completed_entries
                    (TranslateText i request
                     :: BatchCompleted i tb
                     :: ProgressUpdated (percent (i + 1) total)
                     :: (if (0 <? delay)%Z && (i <? total - 1)
                         then [Sleep delay] else []) ++ tail)
                  = tb ++ completed_entries tail).
    { destruct ((0 <? delay)%Z && (i <? total - 1)); reflexivity. }
    rewrite Hfold, Hce, app_assoc.
    split; [exact D|]. split; [exact I1|]. split; [exact I2|].
    intros msg Hin. apply I3.
    destruct Hin as [H|[H|[H|Hin]]]; try discriminate H.
    apply in_app_or in Hin. destruct Hin as [Hin|Hin]; [|exact Hin].
    destruct ((0 <? delay)%Z && (i <? total - 1));
      [destruct Hin as [H|[]]; discriminate H | destruct Hin].
Qed.


End RunFacts.



(** X2. Whatever the backend does and whenever the job is stopped, the
    notifications of a subtitle job are handled without an exception by the
    window that was cleared; after them the window holds the entries of the
    completed batches, in order, and shows their serialization; a success
    notification carries that same text. *)
Theorem X2_window_shows_completed_batches
    (translate_text : nat -> str -> option (bool * str)) (abort : nat -> bool)
    (delay : Z) (percent : nat -> nat -> Z)
    (subtitles : list subtitle) (batch_size : Z) :
  let trace :=
    TranslationWorker._translate_subtitles translate_text abort delay percent
      subtitles batch_size in
  exists w,
    TranslationApp.deliver_all TranslationApp.cleared trace = Some w /\
    TranslationApp.translated_subtitles w = completed_entries trace /\
    SrtParser.format_srt (completed_entries trace)
    = Some (TranslationApp.srt_target_text w) /\
    (forall msg,
       In (TranslationWorker.TranslationFinished true msg) trace ->
       msg = TranslationApp.srt_target_text w).
Proof.
  unfold TranslationWorker._translate_subtitles.
  destruct (SrtParser.create_batches subtitles batch_size) as [batches|].
  - apply (loop_window translate_text abort delay percent (length batches)
             batches 0 [] TranslationApp.cleared); reflexivity.
  - exists TranslationApp.cleared. cbn. repeat split.
    intros msg [H|[]]. discriminate H.
Qed.



Example run_with_pauses :
  TranslationWorker._translate_subtitles (failing_from 5) never_raised 1
    TranslationWorker.progress_percent [sub 1 "A"; sub 2 "B"; sub 3 "C"] 2
  = [TranslationWorker.TranslateText 0
       (lit "[1] A" ++ [nl; nl] ++ lit "[2] B" ++ [nl; nl]);
     TranslationWorker.BatchCompleted 0 [sub 1 "A"; sub 2 "B"];
     TranslationWorker.ProgressUpdated 50;
     TranslationWorker.Sleep 1;
     TranslationWorker.TranslateText 1 (lit "[3] C" ++ [nl; nl]);
     TranslationWorker.BatchCompleted 1 [sub 3 "C"];
     TranslationWorker.ProgressUpdated 100;
     TranslationWorker.TranslationFinished true
       (lit "1" ++ [nl] ++ lit "00:00:01,000 --> 00:00:02,000" ++ [nl] ++
        lit "A" ++ [nl; nl] ++
        lit "2" ++ [nl] ++ lit "00:00:01,000 --> 00:00:02,000" ++ [nl] ++
        lit "B" ++ [nl; nl] ++
        lit "3" ++ [nl] ++ lit "00:00:01,000 --> 00:00:02,000" ++ [nl] ++
        lit "C" ++ [nl])].
Proof. reflexivity. Qed.

(* ------------------------------------------------------------------ *)
(** ** More on the reconciliation *)

Lemma insert_by_number_ascending (x : subtitle) (l : list subtitle) :
  ascending l -> ascending (insert_by_number x l).
Proof.
  unfold ascending. induction 1 as [|y l Hs IH Hhd].
  - repeat constructor.
  - cbn [insert_by_number].
    destruct (Z.leb_spec (number x) (number y)) as [Hle|Hgt].
    + constructor; [now constructor | now constructor].
    + constructor; [exact IH|].
      destruct l as [|z l]; cbn [insert_by_number].
      * constructor. lia.
      * inversion Hhd as [|? ? Hyz]; subst.
        destruct (Z.leb_spec (number x) (number z)); constructor; lia.
Qed.

Lemma sort_by_number_is_ascending (l : list subtitle) :
  ascending (sort_by_number l).
Proof.
  induction l as [|x l IH]; [constructor|].
  cbn [sort_by_number fold_right]. now apply insert_by_number_ascending.
Qed.

Lemma filter_all {A : Type} (p : A -> bool) (l : list A) :
  (forall x, In x l -> p x = true) -> filter p l = l.
Proof.
  induction l as [|x l IH]; intros H; [reflexivity|].
  simpl. rewrite (H x (or_introl eq_refl)). f_equal. apply IH.
  intros y Hy. apply H. now right.
Qed.

Lemma fill_gaps_nothing (batch : list subtitle) : fill_gaps batch [] = batch.
Proof. unfold fill_gaps. simpl. now apply filter_all. Qed.

(** Entries with the numbers of the batch leave no gap to fill. *)
Lemma fill_gaps_full (batch translated : list subtitle) :
  map number translated = map number batch ->
  fill_gaps batch translated = translated.
Proof.
  intros H. unfold fill_gaps. rewrite H, filter_none; [apply app_nil_r|].
  intros s Hs. apply (in_map number) in Hs. apply mem_number_In in Hs.
  now rewrite Hs.
Qed.

(** Without a marker the method in [KoboldCppClient] is its fallback. *)
Lemma kobold_reconcile_fallback (batch : list subtitle) (response : str) :
  Re.find_marker response = None ->
  KoboldCppClient.reconcile batch response =
  match KoboldCppClient.fallback batch response with
  | Some translated => Some (sort_by_number (fill_gaps batch translated))
  | None => None
  end.
Proof.
  intros H. unfold KoboldCppClient.reconcile.
  now rewrite findall_markers_eq, (find_marker_none_nl _ H).
Qed.

Lemma find_marker_app_none (s y : str) :
  Re.find_marker (s ++ y) = None -> Re.find_marker s = None.
Proof.
  induction s as [|c t IH]; [reflexivity|].
  cbn [app Re.find_marker].
  destruct (Re.marker_at (c :: t ++ y)) as [[d r]|] eqn:E; [discriminate|].
  destruct (Re.find_marker (t ++ y)) as [[[p d] r]|] eqn:F; [discriminate|].
  intros _. rewrite (IH eq_refl).
  destruct (Re.marker_at (c :: t)) as [[d r]|] eqn:E'; [|reflexivity].
  apply (marker_at_app _ y) in E'. cbn [app] in E'. rewrite E in E'.
  discriminate.
Qed.

Lemma assign_combined_slots (batch : list subtitle) (lines : list str) (i : nat) :
  Forall2 same_slot batch (KoboldCppClient.assign_combined batch lines i).
Proof.
  revert i. induction batch as [|s rest IH]; intros i; [constructor|].
  cbn [KoboldCppClient.assign_combined]. constructor; [|apply IH].
  destruct (nth_error lines i); repeat split.
Qed.

Lemma retext_slots (batch : list subtitle) (lines : list str) :
  length lines = length batch ->
  Forall2 same_slot batch (map retext (combine batch lines)).
Proof.
  revert lines. induction batch as [|s rest IH]; intros [|l lines] H;
    try discriminate; [constructor|].
  simpl. constructor; [repeat split | apply IH; now injection H].
Qed.

Lemma same_slot_numbers (batch out : list subtitle) :
  Forall2 same_slot batch out -> map number out = map number batch.
Proof.
  induction 1 as [|s o batch out [Hn _] _ IH]; [reflexivity|].
  simpl. now rewrite Hn, IH.
Qed.

Lemma same_slot_In (batch out : list subtitle) (o : subtitle) :
  Forall2 same_slot batch out -> In o out ->
  exists s, In s batch /\ same_slot s o.
Proof.
  induction 1 as [|s o' batch out Hso _ IH]; intros Hin; [destruct Hin|].
  destruct Hin as [<-|Hin].
  - exists s. split; [now left | exact Hso].
  - destruct (IH Hin) as (s' & Hs' & H'). exists s'. split; [now right | exact H'].
Qed.

(** X4. What the reconciliation returns is in ascending order of entry
    number, in the worker and in the method of [KoboldCppClient]; the worker
    returns a batch for every response in which no marker has more than 4300
    digits. *)
Theorem X4_reconcile_output_ascending (batch : list subtitle) (response : str) :
  (short_markers response = true ->
   exists out, TranslationWorker.reconcile batch response = Some out /\
               ascending out) /\
  (forall out, TranslationWorker.reconcile batch response = Some out ->
               ascending out) /\
  (forall out, KoboldCppClient.reconcile batch response = Some out ->
               ascending out).
Proof.
  split; [|split].
  - intros Hshort. exists (reconciled batch (markers response)).
    split; [now apply worker_reconcile_markers
           |apply sort_by_number_is_ascending].
  - intros out H. apply worker_reconcile_returns in H. destruct H as [_ ->].
    apply sort_by_number_is_ascending.
  - unfold KoboldCppClient.reconcile. intros out H.
    destruct (match Re.findall_markers (response ++ [nl]) with
              | [] => KoboldCppClient.fallback batch response
              | _ :: _ =>
                  Some (KoboldCppClient.marker_loop batch
                          (Re.findall_markers (response ++ [nl])) [])
              end) as [tb|]; [|discriminate].
    injection H as <-. apply sort_by_number_is_ascending.
Qed.

(** Instance of X4: a batch given in descending order. *)
Lemma X4_reconcile_output_ascending_witness :
  (exists out,
     TranslationWorker.reconcile [sub 2 "two"; sub 1 "one"]
       (lit "[2] deux [1] un") = Some out /\ ascending out) /\
  ascending [sub 1 "un"; sub 2 "deux"].
Proof.
  destruct (X4_reconcile_output_ascending [sub 2 "two"; sub 1 "one"]
              (lit "[2] deux [1] un")) as (H1 & _ & H3).
  split; [apply H1; reflexivity | apply H3; reflexivity].
Defined.

(** X5. For a response without any marker the worker returns the entries
    of the batch as they are, sorted by number: no text is changed, and a
    batch in ascending order comes back as it is. *)
Theorem X5_worker_without_marker (batch : list subtitle) (response : str) :
  Re.find_marker response = None ->
  TranslationWorker.reconcile batch response = Some (sort_by_number batch) /\
  Permutation (sort_by_number batch) batch /\
  (ascending batch -> sort_by_number batch = batch).
Proof.
  intros H. split; [|split].
  - unfold TranslationWorker.reconcile. rewrite split_markers_eq, H.
    cbn [tl TranslationWorker.marker_loop]. now rewrite fill_gaps_nothing.
  - apply sort_by_number_perm.
  - apply sort_by_number_ascending.
Qed.

(** Instance of X5: a translation that lost its markers. *)
Lemma X5_worker_without_marker_witness :
  TranslationWorker.reconcile [sub 1 "Hello"; sub 2 "World"]
    (lit "Bonjour" ++ [nl] ++ lit "Monde")
  = Some (sort_by_number [sub 1 "Hello"; sub 2 "World"]).
Proof.
  apply (X5_worker_without_marker [sub 1 "Hello"; sub 2 "World"]
           (lit "Bonjour" ++ [nl] ++ lit "Monde")).
  reflexivity.
Defined.

(** X6. Every entry that the worker's reconciliation returns carries the
    number and both timestamps of an entry of the batch, and its text is
    either the text of that entry or the trimmed text of a marker of the
    response that carries its number: the response never changes a
    timestamp and never adds an entry with a new number.  This holds for
    every response in which no marker has more than 4300 digits; on any
    other response the reconciliation raises. *)
Theorem X6_reconcile_keeps_slots (batch : list subtitle) (response : str) :
  (short_markers response = true ->
   exists out,
     TranslationWorker.reconcile batch response = Some out /\
     forall o, In o out ->
       exists s, In s batch /\ same_slot s o /\
         (text o = text s \/
          exists c, In (number s, c) (markers response) /\ text o = strip c))
  /\
  (short_markers response = false ->
   TranslationWorker.reconcile batch response = None).
Proof.
  split; [|intros Hlong; now rewrite worker_reconcile, Hlong].
  intros Hshort.
  exists (reconciled batch (markers response)).
  split; [now apply worker_reconcile_markers|].
  intros o Ho.
  apply (Permutation_in _ (reconciled_perm batch (markers response))) in Ho.
  apply in_app_or in Ho. destruct Ho as [Ho|Ho].
  - apply translated_entries_In in Ho.
    destruct Ho as (s & c & Hf & Hm & ->).
    apply find_numbered_some in Hf. exists s.
    split; [apply Hf|]. split; [repeat split|].
    right. exists c. split; [exact Hm | reflexivity].
  - apply filter_In in Ho. exists o.
    split; [apply Ho|]. split; [repeat split | now left].
Qed.

(** X7. In the method of [KoboldCppClient], for a batch that is not empty
    and a response without a marker, the output has as many entries as the
    batch and each of them carries the number and the timestamps of an
    entry of the batch, whichever branch of the fallback is taken. *)
Theorem X7_fallback_keeps_count (batch : list subtitle) (response : str) :
  batch <> [] ->
  Re.find_marker response = None ->
  exists out,
    KoboldCppClient.reconcile batch response = Some out /\
    length out = length batch /\
    Permutation (map number out) (map number batch) /\
    forall o, In o out -> exists s, In s batch /\ same_slot s o.
Proof.
  intros Hne Hnone. rewrite (kobold_reconcile_fallback _ _ Hnone).
  assert (Hfull : forall T, Forall2 same_slot batch T ->
            exists out,
              Some (sort_by_number (fill_gaps batch T)) = Some out /\
              length out = length batch /\
              Permutation (map number out) (map number batch) /\
              forall o, In o out -> exists s, In s batch /\ same_slot s o).
  { intros T HT. exists (sort_by_number T).
    rewrite (fill_gaps_full _ _ (same_slot_numbers _ _ HT)).
    pose proof (sort_by_number_perm T) as P.
    split; [reflexivity|]. split; [|split].
    - rewrite (Permutation_length P). symmetry.
      apply (Forall2_length HT).
    - rewrite <- (same_slot_numbers _ _ HT). now apply Permutation_map.
    - intros o Ho. apply (same_slot_In batch T); [exact HT|].
      apply (Permutation_in _ P Ho). }
  unfold KoboldCppClient.fallback.
  destruct (Nat.eqb_spec (length batch) 0) as [E|_];
    [destruct batch; [now elim Hne | discriminate]|].
  fold (non_empty_lines response).
  destruct ((length batch <=? 2 * length (non_empty_lines response))
            && (length (non_empty_lines response) <=? 2 * length batch)).
  - destruct (Nat.eqb_spec (length (non_empty_lines response)) (length batch))
      as [E|_].
    + rewrite assign_lines_combine by lia. cbn [skipn].
      apply Hfull. now apply retext_slots.
    + apply Hfull. apply assign_combined_slots.
  - exists (sort_by_number batch). rewrite fill_gaps_nothing.
    pose proof (sort_by_number_perm batch) as P.
    split; [reflexivity|]. split; [apply (Permutation_length P)|].
    split; [now apply Permutation_map|].
    intros o Ho. exists o. split; [apply (Permutation_in _ P Ho)|].
    repeat split.
Qed.

(** Instance of X7: three lines for two entries. *)
Lemma X7_fallback_keeps_count_witness :
  exists out,
    KoboldCppClient.reconcile [sub 1 "Hello"; sub 2 "World"]
      (lit "Bonjour" ++ [nl] ++ lit "le" ++ [nl] ++ lit "Monde") = Some out /\
    length out = 2.
Proof.
  destruct (X7_fallback_keeps_count [sub 1 "Hello"; sub 2 "World"]
              (lit "Bonjour" ++ [nl] ++ lit "le" ++ [nl] ++ lit "Monde"))
    as (out & H1 & H2 & _).
  - discriminate.
  - reflexivity.
  - exists out. split; [exact H1 | exact H2].
Defined.

(** X8. In the method of [KoboldCppClient], when a response without a
    marker has fewer than half as many non-blank lines as the batch has
    entries, or more than twice as many, no line is used: the entries of the
    batch come back as they are, sorted by number. *)
Theorem X8_fallback_out_of_range (batch : list subtitle) (response : str) :
  batch <> [] ->
  Re.find_marker response = None ->
  2 * length (non_empty_lines response) < length batch \/
  2 * length batch < length (non_empty_lines response) ->
  KoboldCppClient.reconcile batch response = Some (sort_by_number batch).
Proof.
  intros Hne Hnone Hratio. rewrite (kobold_reconcile_fallback _ _ Hnone).
  unfold KoboldCppClient.fallback. fold (non_empty_lines response).
  destruct (Nat.eqb_spec (length batch) 0) as [E|_];
    [destruct batch; [now elim Hne | discriminate]|].
  replace ((length batch <=? 2 * length (non_empty_lines response))
           && (length (non_empty_lines response) <=? 2 * length batch))
    with false.
  - now rewrite fill_gaps_nothing.
  - symmetry. apply andb_false_iff.
    destruct Hratio; [left | right]; apply Nat.leb_gt; lia.
Qed.

(** Instance of X8: three lines for one entry. *)
Lemma X8_fallback_out_of_range_witness :
  KoboldCppClient.reconcile [sub 1 "Hello"]
    (lit "Bonjour" ++ [nl] ++ lit "ou" ++ [nl] ++ lit "Salut")
  = Some (sort_by_number [sub 1 "Hello"]).
Proof.
  apply (X8_fallback_out_of_range [sub 1 "Hello"]
           (lit "Bonjour" ++ [nl] ++ lit "ou" ++ [nl] ++ lit "Salut")).
  - discriminate.
  - reflexivity.
  - right. vm_compute. lia.
Defined.

Lemma findall_markers_found (response : str) :
  Re.find_marker response <> None ->
  Re.findall_markers (response ++ [nl]) <> [].
Proof.
  intros H. rewrite findall_markers_eq.
  destruct (Re.find_marker (response ++ [nl])) as [[[p d] r]|] eqn:E.
  - discriminate.
  - now apply find_marker_app_none in E.
Qed.

(** X9. On an empty batch the worker's reconciliation returns the empty
    batch for every response in which no marker has more than 4300 digits,
    and raises on the others, before it looks a number up in the batch;
    the method of [KoboldCppClient] returns the empty batch for a response
    with a marker and raises (a division by zero) for a response without
    one. *)
Theorem X9_empty_batch (response : str) :
  (short_markers response = true ->
   TranslationWorker.reconcile [] response = Some []) /\
  (short_markers response = false ->
   TranslationWorker.reconcile [] response = None) /\
  (Re.find_marker response = None ->
   KoboldCppClient.reconcile [] response = None) /\
  (Re.find_marker response <> None ->
   KoboldCppClient.reconcile [] response = Some []).
Proof.
  split; [|split; [|split]].
  - intros H. rewrite (worker_reconcile_markers _ _ H).
    unfold reconciled, translated_entries.
    induction (markers response) as [|m ms IH]; [reflexivity|]. exact IH.
  - intros H. now rewrite worker_reconcile, H.
  - intros H. now rewrite (kobold_reconcile_fallback _ _ H).
  - intros H. rewrite kobold_reconcile_markers
      by now apply findall_markers_found.
    unfold reconciled, translated_entries.
    induction (findall_results response) as [|m ms IH]; [reflexivity|].
    exact IH.
Qed.

(** Instance of X9: a response with a marker and one without, and a
    response with a marker of 4301 digits. *)
Lemma X9_empty_batch_witness :
  TranslationWorker.reconcile [] (lit "[1] Bonjour") = Some [] /\
  TranslationWorker.reconcile []
    (lit "[" ++ repeat "1"%char 4301 ++ lit "] Bonjour") = None /\
  KoboldCppClient.reconcile [] (lit "Bonjour") = None /\
  KoboldCppClient.reconcile [] (lit "[1] Bonjour") = Some [].
Proof.
  split; [|split; [|split]].
  - destruct (X9_empty_batch (lit "[1] Bonjour")) as (H & _).
    apply H. reflexivity.
  - destruct (X9_empty_batch
                (lit "[" ++ repeat "1"%char 4301 ++ lit "] Bonjour"))
      as (_ & H & _).
    apply H. vm_compute. reflexivity.
  - destruct (X9_empty_batch (lit "Bonjour")) as (_ & _ & H & _).
    apply H. reflexivity.
  - destruct (X9_empty_batch (lit "[1] Bonjour")) as (_ & _ & _ & H).
    apply H. discriminate.
Defined.

(* ------------------------------------------------------------------ *)
(** ** More on the parser, the serializer and the planner *)

Lemma strip_blank (s : str) : is_blank s = true -> strip s = [].
Proof.
  intros H. unfold strip.
  rewrite <- (app_nil_r s), (lstrip_spaces s [] H). reflexivity.
Qed.

Lemma parse_srt_blank (x : str) :
  is_blank x = true -> SrtParser.parse_srt x = [].
Proof.
  intros H. unfold SrtParser.parse_srt. now rewrite (strip_blank x H).
Qed.

(** X10. For a batch size of at least one, the number of batches is the
    number of entries divided by the batch size, rounded up, and the entry
    at position [j] of the batch of index [i] is the entry at position
    [i * batch_size + j] of the input. *)
Theorem X10_create_batches_positions {A : Type} (subtitles : list A) (n : nat) :
  1 <= n ->
  exists batches,
    SrtParser.create_batches subtitles (Z.of_nat n) = Some batches /\
    length batches = (length subtitles + n - 1) / n /\
    forall i b j, nth_error batches i = Some b -> j < n ->
      nth_error b j = nth_error subtitles (i * n + j).
Proof.
  intros Hn. eexists. split; [now apply create_batches_pos|]. split.
  - rewrite length_map, length_seq. unfold batch_count.
    destruct (Nat.eqb_spec (length subtitles) 0) as [->|Hl].
    + symmetry. apply Nat.div_small. lia.
    + replace (length subtitles + n - 1) with (length subtitles - 1 + 1 * n)
        by lia.
      rewrite Nat.div_add by lia. lia.
  - intros i b j Hb Hj. rewrite nth_error_map, nth_error_seq in Hb.
    destruct (i <? batch_count (length subtitles) n); [|discriminate].
    simpl in Hb. injection Hb as <-.
    rewrite nth_error_firstn.
    destruct (Nat.ltb_spec j n); [|lia].
    apply List.nth_error_skipn.
Qed.

(** Instance of X10: five entries in batches of two. *)
Lemma X10_create_batches_positions_witness :
  exists batches,
    SrtParser.create_batches [10; 11; 12; 13; 14] 2 = Some batches /\
    length batches = 3.
Proof.
  destruct (X10_create_batches_positions [10; 11; 12; 13; 14] 2)
    as (batches & H1 & H2 & _).
  - lia.
  - exists batches. split; [exact H1 | exact H2].
Defined.

Lemma serialized_app (a b : list subtitle) :
  a <> [] -> b <> [] ->
  serialized (a ++ b) = serialized a ++ [nl] ++ serialized b.
Proof.
  intros Ha Hb. induction a as [|e a IH]; [now elim Ha|].
  cbn [app]. rewrite !serialized_cons.
  destruct a as [|e2 a].
  - cbn [app]. destruct b as [|e3 b]; [now elim Hb|].
    now rewrite <- !app_assoc.
  - cbn [app] in *. rewrite IH by discriminate.
    now rewrite <- !app_assoc.
Qed.

(** X11. The serialization of two sequences of entries one after the other
    is the serialization of the first, an empty line, and the serialization
    of the second, and it raises when one of the two does; so the text that
    the window shows after a batch is the beginning of the text it shows
    after the next one. *)
Theorem X11_format_srt_app (a b : list subtitle) :
  a <> [] -> b <> [] ->
  SrtParser.format_srt (a ++ b)
  = match SrtParser.format_srt a, SrtParser.format_srt b with
    | Some first, Some second => Some (first ++ [nl] ++ second)
    | _, _ => None
    end.
Proof.
  intros Ha Hb. rewrite !format_srt_serialized, printable_entries_app.
  destruct (printable_entries a), (printable_entries b); try reflexivity.
  cbn [andb]. now rewrite serialized_app.
Qed.

(** Instance of X11: one entry and then another. *)
Lemma X11_format_srt_app_witness :
  SrtParser.format_srt ([sub 1 "A"] ++ [sub 2 "B"])
  = match SrtParser.format_srt [sub 1 "A"], SrtParser.format_srt [sub 2 "B"]
    with
    | Some first, Some second => Some (first ++ [nl] ++ second)
    | _, _ => None
    end.
Proof.
  apply (X11_format_srt_app [sub 1 "A"] [sub 2 "B"]); discriminate.
Defined.

(** X12. A text made of whitespace only parses to no entry; hence what
    [update_srt_stats] shows without parsing such a text is what parsing it
    would give: in every case the label is the number of parsed entries, and
    the button is enabled exactly when the client is connected and there is
    at least one entry. *)
Theorem X12_update_srt_stats (connected : bool) (text : str) :
  (is_blank text = true -> SrtParser.parse_srt text = []) /\
  TranslationApp.update_srt_stats connected text
  = (lit "Entries: " ++
     decimal (Z.of_nat (length (SrtParser.parse_srt text))),
     (0 <? length (SrtParser.parse_srt text)) && connected).
Proof.
  split; [apply parse_srt_blank|].
  unfold TranslationApp.update_srt_stats.
  destruct (is_blank text) eqn:E; [|reflexivity].
  now rewrite (parse_srt_blank text E).
Qed.

(** Instance of X12: a text of two spaces and a newline. *)
Lemma X12_update_srt_stats_witness :
  SrtParser.parse_srt (lit "  " ++ [nl]) = [].
Proof.
  apply (X12_update_srt_stats true (lit "  " ++ [nl])). reflexivity.
Defined.

(* ------------------------------------------------------------------ *)
(** ** The clean-up of an answer of the backend *)

Lemma span_snd_length (p : ascii -> bool) (s : str) :
  length (snd (Re.span p s)) <= length s.
Proof.
  rewrite <- (span_app p s) at 2. rewrite length_app. lia.
Qed.

Lemma span_snd_In (p : ascii -> bool) (s : str) (c : ascii) :
  In c (snd (Re.span p s)) -> In c s.
Proof.
  intros H. rewrite <- (span_app p s). apply in_or_app. now right.
Qed.

Lemma slash_at_shorter (s rest : str) :
  Backend.slash_at s = Some rest -> length rest < length s.
Proof.
  unfold Backend.slash_at. pose proof (span_snd_length is_space s) as L.
  destruct (snd (Re.span is_space s)) as [|c r]; [discriminate|].
  destruct (Ascii.eqb c "/"%char); [|discriminate].
  intros [= <-]. pose proof (span_snd_length is_space r). simpl in L. lia.
Qed.

Lemma slash_at_In (s rest : str) :
  Backend.slash_at s = Some rest -> In "/"%char s.
Proof.
  unfold Backend.slash_at. pose proof (span_snd_In is_space s) as I.
  destruct (snd (Re.span is_space s)) as [|c r]; [discriminate|].
  destruct (Ascii.eqb_spec c "/"%char) as [->|?]; [|discriminate].
  intros _. apply I. now left.
Qed.

Lemma sub_slash_fuel_free (f : nat) (s : str) :
  length s <= f -> ~ In "/"%char (Backend.sub_slash_fuel f s).
Proof.
  revert s. induction f as [|f IH]; intros s Hf.
  - destruct s; [intros [] | simpl in Hf; lia].
  - cbn [Backend.sub_slash_fuel]. destruct s as [|c t]; [intros []|].
    destruct (Backend.slash_at (c :: t)) as [rest|] eqn:E.
    + apply slash_at_shorter in E. simpl in Hf, E.
      intros [H|H]; [discriminate H | revert H; apply IH; lia].
    + intros [H|H].
      * subst c. unfold Backend.slash_at in E. simpl in E. discriminate E.
      * revert H. apply IH. simpl in Hf. lia.
Qed.

Lemma sub_slash_fuel_plain (f : nat) (s : str) :
  ~ In "/"%char s -> Backend.sub_slash_fuel f s = s.
Proof.
  revert s. induction f as [|f IH]; intros s H; [reflexivity|].
  cbn [Backend.sub_slash_fuel]. destruct s as [|c t]; [reflexivity|].
  destruct (Backend.slash_at (c :: t)) as [rest|] eqn:E.
  - apply slash_at_In in E. contradiction.
  - f_equal. apply IH. intros H'. apply H. now right.
Qed.

Lemma strip_prefix_app (p s r : str) :
  Backend.strip_prefix p s = Some r -> s = p ++ r.
Proof.
  revert s. induction p as [|a p IH]; intros s H.
  - simpl in H. now injection H as ->.
  - destruct s as [|c t]; [discriminate|]. simpl in H.
    destruct (Ascii.eqb_spec c a) as [->|?]; [|discriminate].
    simpl. f_equal. now apply IH.
Qed.

Lemma sub_output_fuel_In (f : nat) (b : bool) (s : str) (c : ascii) :
  In c (Backend.sub_output_fuel f b s) -> In c s.
Proof.
  revert b s. induction f as [|f IH]; intros b s H; [exact H|].
  cbn [Backend.sub_output_fuel] in H. destruct s as [|x t]; [exact H|].
  destruct (if b then Backend.strip_prefix (lit "Output:") (x :: t) else None)
    as [r|] eqn:E.
  - destruct b; [|discriminate]. apply strip_prefix_app in E. rewrite E.
    apply in_or_app. right. apply (span_snd_In is_space).
    destruct (Re.span is_space r) as [w r']. simpl. now apply IH in H.
  - destruct H as [->|H]; [now left | right; now apply IH in H].
Qed.

Lemma sub_output_fuel_plain (f : nat) (b : bool) (s : str) :
  ~ In ":"%char s -> Backend.sub_output_fuel f b s = s.
Proof.
  revert b s. induction f as [|f IH]; intros b s H; [reflexivity|].
  cbn [Backend.sub_output_fuel]. destruct s as [|x t]; [reflexivity|].
  destruct (if b then Backend.strip_prefix (lit "Output:") (x :: t) else None)
    as [r|] eqn:E.
  - destruct b; [|discriminate]. apply strip_prefix_app in E.
    elim H. rewrite E. simpl. tauto.
  - f_equal. apply IH. intros H'. apply H. now right.
Qed.

Lemma lstrip_In (s : str) (c : ascii) : In c (lstrip s) -> In c s.
Proof.
  induction s as [|x t IH]; [exact (fun H => H)|].
  simpl. destruct (is_space x); [right; now apply IH | exact (fun H => H)].
Qed.

Lemma strip_In (s : str) (c : ascii) : In c (strip s) -> In c s.
Proof.
  unfold strip, rstrip. intros H. apply in_rev, lstrip_In in H.
  apply in_rev in H. now apply lstrip_In.
Qed.

(** A line after the normalization of its marker has the characters of
    the line, and possibly a space. *)
Lemma process_line_In (line : str) (c : ascii) :
  In c (Backend.process_line line) -> In c line \/ c = " "%char.
Proof.
  unfold Backend.process_line. destruct (is_blank line); [intros H; now left|].
  destruct (Re.marker_at (lstrip line)) as [[d r]|] eqn:E;
    [|intros H; now left].
  apply marker_at_inv in E. destruct E as [_ E].
  assert (E' : lstrip line = "["%char :: d ++ "]"%char :: r)
    by (rewrite E; reflexivity).
  assert (Hsub : In c ("["%char :: d ++ "]"%char :: r) -> In c line)
    by (intros H; apply lstrip_In; now rewrite E').
  change (lit "[" ++ d ++ lit "] " ++ lstrip r)
    with ("["%char :: d ++ "]"%char :: " "%char :: lstrip r).
  intros [<-|H]; [left; apply Hsub; now left|].
  apply in_app_or in H. destruct H as [H|[<-|[<-|H]]].
  - left. apply Hsub. right. apply in_or_app. now left.
  - left. apply Hsub. right. apply in_or_app. right. now left.
  - now right.
  - left. apply Hsub. right. apply in_or_app. right. right.
    now apply lstrip_In.
Qed.

Lemma process_line_plain (line : str) :
  ~ In "["%char line -> Backend.process_line line = line.
Proof.
  intros H. unfold Backend.process_line.
  destruct (is_blank line); [reflexivity|].
  destruct (Re.marker_at (lstrip line)) as [[d r]|] eqn:E; [|reflexivity].
  apply marker_at_inv in E. destruct E as [_ E].
  elim H. apply lstrip_In. rewrite E. left. reflexivity.
Qed.

Lemma split_on_In (sep : ascii) (s l : str) (c : ascii) :
  In l (split_on sep s) -> In c l -> In c s.
Proof.
  revert l. induction s as [|x t IH]; intros l Hl Hc.
  - destruct Hl as [<-|[]]. destruct Hc.
  - cbn [split_on] in Hl. destruct (Ascii.eqb x sep).
    + destruct Hl as [<-|Hl]; [destruct Hc | right; now apply (IH l)].
    + destruct (split_on sep t) as [|h r].
      * destruct Hl as [<-|[]]. destruct Hc as [<-|[]]. now left.
      * destruct Hl as [<-|Hl].
        -- destruct Hc as [<-|Hc]; [now left | right].
           apply (IH h); [now left | exact Hc].
        -- right. apply (IH l); [now right | exact Hc].
Qed.

Lemma join_In (sep : str) (ls : list str) (c : ascii) :
  In c (join sep ls) -> In c sep \/ exists l, In l ls /\ In c l.
Proof.
  induction ls as [|l ls IH]; [intros []|].
  destruct ls as [|l2 ls].
  - simpl. intros H. right. exists l. split; [now left | exact H].
  - rewrite join_cons. intros H.
    apply in_app_or in H. destruct H as [H|H];
      [right; exists l; split; [now left | exact H]|].
    apply in_app_or in H. destruct H as [H|H]; [now left|].
    destruct (IH H) as [H'|(l' & Hl' & Hc)]; [now left|].
    right. exists l'. split; [now right | exact Hc].
Qed.

Lemma clean_translation_no_slash (text : str) :
  ~ In "/"%char (Backend._clean_translation text).
Proof.
  unfold Backend._clean_translation. intros H.
  apply join_In in H. destruct H as [[H|[]]|(l & Hl & Hc)]; [discriminate H|].
  apply in_map_iff in Hl. destruct Hl as (line & <- & Hline).
  apply process_line_In in Hc. destruct Hc as [Hc|Hc]; [|discriminate Hc].
  apply (split_on_In _ _ _ _ Hline) in Hc.
  unfold Backend.sub_output in Hc. apply sub_output_fuel_In in Hc.
  revert Hc. apply sub_slash_fuel_free. apply Nat.le_refl.
Qed.

Lemma span_snd_lstrip (s : str) : snd (Re.span is_space s) = lstrip s.
Proof.
  induction s as [|c t IH]; [reflexivity|].
  cbn [Re.span lstrip]. destruct (is_space c); [|reflexivity].
  now destruct (Re.span is_space t).
Qed.

(** In a text that does not end with whitespace, whitespace is followed by
    a character of the text. *)
Lemma lstrip_inside (a rest : str) :
  a <> [] -> is_space (last a "."%char) = false ->
  exists c r, lstrip (a ++ rest) = c :: r ++ rest /\ In c a.
Proof.
  induction a as [|c a IH]; intros Hne Hlast; [now elim Hne|].
  cbn [app lstrip]. destruct (is_space c) eqn:Hc.
  - destruct a as [|c2 a]; [simpl in Hlast; congruence|].
    destruct (IH ltac:(discriminate) Hlast) as (x & r & E & Hx).
    exists x, r. split; [exact E | now right].
  - exists c, a. split; [reflexivity | now left].
Qed.

Lemma slash_at_none_inside (a rest : str) :
  a <> [] -> ~ In "/"%char a -> is_space (last a "."%char) = false ->
  Backend.slash_at (a ++ rest) = None.
Proof.
  intros Hne Hfree Hlast. unfold Backend.slash_at. rewrite span_snd_lstrip.
  destruct (lstrip_inside a rest Hne Hlast) as (c & r & -> & Hc).
  destruct (Ascii.eqb_spec c "/"%char) as [->|_]; [contradiction | reflexivity].
Qed.

Lemma slash_at_here (w1 w2 b : str) :
  is_blank w1 = true -> is_blank w2 = true -> lstrip b = b ->
  Backend.slash_at (w1 ++ "/"%char :: w2 ++ b) = Some b.
Proof.
  intros H1 H2 Hb. unfold Backend.slash_at.
  rewrite span_snd_lstrip, (lstrip_spaces w1 _ H1).
  cbn [lstrip]. change (is_space "/"%char) with false. cbv iota.
  rewrite Ascii.eqb_refl, span_snd_lstrip, (lstrip_spaces w2 _ H2).
  now rewrite Hb.
Qed.

(** A slash with the whitespace around it becomes one newline. *)
Lemma sub_slash_fuel_alternatives (a w1 w2 b : str) :
  ~ In "/"%char a -> ~ In "/"%char b ->
  is_space (last a "."%char) = false -> lstrip b = b ->
  is_blank w1 = true -> is_blank w2 = true ->
  forall f, length (a ++ w1 ++ "/"%char :: w2 ++ b) <= f ->
    Backend.sub_slash_fuel f (a ++ w1 ++ "/"%char :: w2 ++ b) = a ++ nl :: b.
Proof.
  intros Ha Hb Hlast Hstart H1 H2.
  induction a as [|c a IH]; intros f Hf.
  - destruct f as [|f];
      [rewrite !length_app in Hf; simpl in Hf; lia|].
    cbn [app Backend.sub_slash_fuel].
    rewrite (slash_at_here w1 w2 b H1 H2 Hstart).
    destruct (w1 ++ "/"%char :: w2 ++ b) as [|x t] eqn:E;
      [destruct w1; discriminate E|].
    now rewrite (sub_slash_fuel_plain f b Hb).
  - destruct f as [|f]; [simpl in Hf; lia|].
    cbn [app Backend.sub_slash_fuel].
    change (c :: a ++ w1 ++ "/"%char :: w2 ++ b)
      with ((c :: a) ++ w1 ++ "/"%char :: w2 ++ b).
    rewrite (slash_at_none_inside (c :: a) _ ltac:(discriminate) Ha Hlast).
    cbn [app]. f_equal. apply IH.
    + intros H. apply Ha. now right.
    + destruct a as [|c2 a]; [reflexivity | exact Hlast].
    + simpl in Hf. lia.
Qed.

Lemma rstrip_fixed_nonspace (a : str) :
  rstrip a = a -> is_space (last a "."%char) = false.
Proof.
  intros H. destruct a as [|c a]; [reflexivity|].
  destruct (rstrip_fixed_last _ H ltac:(discriminate)) as (s & d & -> & Hd).
  now rewrite last_last.
Qed.

(** When the slashes are gone and neither a colon nor a bracket is left,
    the other steps of the clean-up change nothing. *)
Lemma clean_translation_after_slashes (text : str) :
  ~ In ":"%char (Backend.sub_slash text) ->
  ~ In "["%char (Backend.sub_slash text) ->
  Backend._clean_translation text = Backend.sub_slash text.
Proof.
  intros Hc Hb. unfold Backend._clean_translation, Backend.sub_output.
  rewrite (sub_output_fuel_plain _ _ _ Hc).
  rewrite <- (join_split_on nl (Backend.sub_slash text)) at 2. f_equal.
  rewrite <- (map_id (split_on nl (Backend.sub_slash text))) at 2.
  apply map_ext_in. intros line Hline. apply process_line_plain.
  intros H. apply Hb. exact (split_on_In _ _ _ _ Hline H).
Qed.

(** X13. The cleaned text has no slash.  For an answer made of two
    alternatives with a slash between them, each without a slash, a colon
    or an opening bracket, the slash and the whitespace around it have
    become one newline: the answer comes back as the first alternative, a
    newline, and the second. *)
Theorem X13_clean_translation_no_slash (text : str) :
  ~ In "/"%char (Backend._clean_translation text) /\
  (forall a w1 w2 b,
     text = a ++ w1 ++ "/"%char :: w2 ++ b ->
     plain_answer a -> plain_answer b ->
     rstrip a = a -> lstrip b = b ->
     is_blank w1 = true -> is_blank w2 = true ->
     Backend._clean_translation text = a ++ nl :: b).
Proof.
  split; [apply clean_translation_no_slash|].
  intros a w1 w2 b -> (Ha1 & Ha2 & Ha3) (Hb1 & Hb2 & Hb3) Ha Hb H1 H2.
  assert (E : Backend.sub_slash (a ++ w1 ++ "/"%char :: w2 ++ b)
              = a ++ nl :: b).
  { apply sub_slash_fuel_alternatives; try assumption.
    - now apply rstrip_fixed_nonspace.
    - apply Nat.le_refl. }
  rewrite clean_translation_after_slashes; rewrite E; [reflexivity| |].
  - intros H. apply in_app_or in H.
    destruct H as [H|[H|H]]; [now apply Ha2 | discriminate H | now apply Hb2].
  - intros H. apply in_app_or in H.
    destruct H as [H|[H|H]]; [now apply Ha3 | discriminate H | now apply Hb3].
Qed.

(** Instance of X13: two alternatives. *)
Lemma X13_clean_translation_no_slash_witness :
  Backend._clean_translation (lit "Bonjour  /" ++ [nl] ++ lit "Salut !")
  = lit "Bonjour" ++ [nl] ++ lit "Salut !".
Proof.
  destruct (X13_clean_translation_no_slash
              (lit "Bonjour  /" ++ [nl] ++ lit "Salut !")) as [_ H].
  apply (H (lit "Bonjour") (lit "  ") [nl] (lit "Salut !")).
  - reflexivity.
  - repeat split; simpl; intuition discriminate.
  - repeat split; simpl; intuition discriminate.
  - reflexivity.
  - reflexivity.
  - reflexivity.
  - reflexivity.
Defined.

(** X14. A text without a slash, a colon or an opening bracket is returned
    by the clean-up as it is. *)
Theorem X14_clean_translation_plain (text : str) :
  ~ In "/"%char text -> ~ In ":"%char text -> ~ In "["%char text ->
  Backend._clean_translation text = text.
Proof.
  intros Hs Hc Hb. unfold Backend._clean_translation, Backend.sub_slash,
    Backend.sub_output.
  rewrite (sub_slash_fuel_plain _ _ Hs), (sub_output_fuel_plain _ _ _ Hc).
  rewrite <- (join_split_on nl text) at 2. f_equal.
  rewrite <- (map_id (split_on nl text)) at 2.
  apply map_ext_in. intros line Hline. apply process_line_plain.
  intros H. apply Hb. exact (split_on_In _ _ _ _ Hline H).
Qed.

(** Instance of X14: two lines of plain text. *)
Lemma X14_clean_translation_plain_witness :
  Backend._clean_translation (lit "Bonjour, " ++ [nl] ++ lit " le monde")
  = lit "Bonjour, " ++ [nl] ++ lit " le monde".
Proof.
  apply (X14_clean_translation_plain
           (lit "Bonjour, " ++ [nl] ++ lit " le monde"));
    simpl; intuition discriminate.
Defined.

Lemma lstrip_idem (s : str) : lstrip (lstrip s) = lstrip s.
Proof.
  induction s as [|c t IH]; [reflexivity|].
  simpl. destruct (is_space c) eqn:E; [exact IH|]. simpl. now rewrite E.
Qed.

Lemma lstrip_head (s : str) :
  lstrip s = [] \/ exists c t, lstrip s = c :: t /\ is_space c = false.
Proof.
  induction s as [|c t IH]; [now left|].
  simpl. destruct (is_space c) eqn:E; [exact IH|]. right. eauto.
Qed.

Lemma lstrip_snoc (x : str) (c : ascii) :
  is_space c = false -> exists v, lstrip (x ++ [c]) = v ++ [c].
Proof.
  intros H. induction x as [|a x IH]; simpl.
  - rewrite H. now exists [].
  - destruct (is_space a); [exact IH|]. now exists (a :: x).
Qed.

(** What [strip] returns has no whitespace at either end. *)
Lemma strip_idem (s : str) : strip (strip s) = strip s.
Proof.
  unfold strip.
  assert (Hl : lstrip (rstrip (lstrip s)) = rstrip (lstrip s)).
  { destruct (lstrip_head s) as [->|(c & t & -> & Hc)]; [reflexivity|].
    unfold rstrip. cbn [rev].
    destruct (lstrip_snoc (rev t) c Hc) as [v ->].
    rewrite rev_app_distr. simpl. now rewrite Hc. }
  rewrite Hl. unfold rstrip. now rewrite rev_involutive, lstrip_idem.
Qed.

(** X15. A client that is not connected answers with a failure and sends
    nothing.  A connected client sends one request, with the prompt of the
    text and three times the length of the text as its budget.  It returns
    success only for an answer with the status 200, and what it then returns
    has no whitespace at either end and no slash; it does return success
    when the body of such an answer is an object whose member [results] is
    a list that starts with an object whose member [text] is a string, and
    the text returned is that string without the stop sequences at its end,
    cleaned and trimmed.  Another status gives a failure that names it, and
    an exception of [requests] a failure with its message.  A body that
    cannot be decoded with a plain [ValueError], a body that is not an
    object, and an empty list of results make the method raise. *)
Theorem X15_translate_text (connected : bool)
    (post : str -> nat -> Backend.http_result)
    (text source_lang target_lang : str) :
  let answer :=
    Backend.translate_text connected post text source_lang target_lang in
  let outcome :=
    post (Backend.prompt text source_lang target_lang) (length text * 3) in
  (connected = false ->
   answer = (None, Some (false, lit "Not connected to server"))) /\
  (connected = true ->
   fst answer
   = Some (Backend.prompt text source_lang target_lang, length text * 3)) /\
  (forall t, snd answer = Some (true, t) ->
     connected = true /\
     (exists body, outcome = Backend.Response 200 body) /\
     strip t = t /\ ~ In "/"%char t) /\
  (connected = true ->
   forall members first more translation,
     outcome = Backend.Response 200 (Backend.Decoded (Backend.JObject members)) ->
     Backend.dict_get (lit "results") members
     = Some (Backend.JArray (Backend.JObject first :: more)) ->
     Backend.dict_get (lit "text") first = Some (Backend.JString translation) ->
     snd answer
     = Some (true,
             strip (Backend._clean_translation
                      (Backend.strip_stop_sequences Backend.stop_sequence
                         translation)))) /\
  (connected = true ->
   forall status_code body code,
     outcome = Backend.Response status_code body ->
     status_code <> 200%Z -> str_of_Z status_code = Some code ->
     snd answer
     = Some (false, lit "Server responded with status code: " ++ code)) /\
  (connected = true ->
   forall message,
     outcome = Backend.RequestException message \/
     outcome = Backend.Response 200 (Backend.JsonRequestException message) ->
     snd answer = Some (false, message)) /\
  (connected = true ->
   forall result,
     outcome = Backend.Response 200 Backend.JsonValueError \/
     (outcome = Backend.Response 200 (Backend.Decoded result) /\
      ((forall members, result <> Backend.JObject members) \/
       result = Backend.JObject [(lit "results", Backend.JArray [])])) ->
     snd answer = None).
Proof.
  unfold Backend.translate_text. cbn [fst snd].
  destruct connected; cbn [negb fst snd].
  - split; [discriminate|]. split; [reflexivity|].
    destruct (post (Backend.prompt text source_lang target_lang)
                (length text * 3)) as [msg|code body].
    + split; [discriminate|]. split; [discriminate|].
      split; [discriminate|].
      split; [intros _ message [[= ->]|H]; [reflexivity | discriminate H]|].
      intros _ result [H|[H _]]; discriminate H.
    + destruct (Z.eqb_spec code 200) as [->|Hcode].
      * split.
        { intros t Ht. split; [reflexivity|]. split; [eauto|].
          destruct body as [result| |]; try discriminate Ht.
          destruct (Backend.get_text result) as [[| | |translation| |]|];
            try discriminate Ht.
          injection Ht as <-. split; [apply strip_idem|].
          intros H. apply strip_In in H.
          revert H. apply clean_translation_no_slash. }
        split.
        { intros _ members first more translation [= ->] Hr Ht.
          unfold Backend.get_text. now rewrite Hr, Ht. }
        split; [intros _ status body' c [= <- _] Hne; now elim Hne|].
        split.
        { intros _ message [H|[= ->]]; [discriminate H | reflexivity]. }
        intros _ result [[= ->]|[[= ->] [H| ->]]]; try reflexivity.
        destruct result as [| | | | |members]; try reflexivity.
        now elim (H members).
      * split.
        { intros t Ht. destruct (str_of_Z code); discriminate Ht. }
        split; [intros _ members first more translation [= E _];
                contradiction|].
        split; [intros _ status body' c [= <- _] _ ->; reflexivity|].
        split.
        { intros _ message [H|[= E _]]; [discriminate H | contradiction]. }
        intros _ result [[= E _]|[[= E _] _]]; contradiction.
  - split; [reflexivity|]. split; [discriminate|].
    split; [discriminate|]. repeat split; discriminate.
Qed.

(** Instance of X15: a server that answers 200 with a text between spaces
    that ends with a stop sequence, a server that answers 503, and a
    client that is not connected. *)
Lemma X15_translate_text_witness :
  snd (Backend.translate_text true
         (fun _ _ =>
            Backend.Response 200
              (Backend.Decoded
                 (Backend.JObject
                    [(lit "results",
                      Backend.JArray
                        [Backend.JObject
                           [(lit "text",
                             Backend.JString (lit " a / b <end_of_turn>"))]])])))
         (lit "x") (lit "English") (lit "Finnish"))
  = Some (true, lit "a" ++ [nl] ++ lit "b") /\
  snd (Backend.translate_text true
         (fun _ _ => Backend.Response 503 Backend.JsonValueError)
         (lit "x") (lit "English") (lit "Finnish"))
  = Some (false, lit "Server responded with status code: 503") /\
  Backend.translate_text false
    (fun _ _ => Backend.Response 503 Backend.JsonValueError)
    (lit "x") (lit "English") (lit "Finnish")
  = (None, Some (false, lit "Not connected to server")).
Proof.
  split; [|split].
  - destruct (X15_translate_text true
                (fun _ _ =>
                   Backend.Response 200
                     (Backend.Decoded
                        (Backend.JObject
                           [(lit "results",
                             Backend.JArray
                               [Backend.JObject
                                  [(lit "text",
                                    Backend.JString
                                      (lit " a / b <end_of_turn>"))]])])))
                (lit "x") (lit "English") (lit "Finnish"))
      as (_ & _ & _ & H & _).
    rewrite (H eq_refl
               [(lit "results",
                 Backend.JArray
                   [Backend.JObject
                      [(lit "text",
                        Backend.JString (lit " a / b <end_of_turn>"))]])]
               [(lit "text", Backend.JString (lit " a / b <end_of_turn>"))]
               [] (lit " a / b <end_of_turn>") eq_refl eq_refl eq_refl).
    reflexivity.
  - destruct (X15_translate_text true
                (fun _ _ => Backend.Response 503 Backend.JsonValueError)
                (lit "x") (lit "English") (lit "Finnish"))
      as (_ & _ & _ & _ & H & _).
    apply (H eq_refl 503%Z Backend.JsonValueError (lit "503"));
      [reflexivity | discriminate | reflexivity].
  - destruct (X15_translate_text false
                (fun _ _ => Backend.Response 503 Backend.JsonValueError)
                (lit "x") (lit "English") (lit "Finnish")) as (H & _).
    apply H. reflexivity.
Defined.

Example translate_text_raises :
  map (fun body =>
         snd (Backend.translate_text true
                (fun _ _ => Backend.Response 200 (Backend.Decoded body))
                (lit "x") (lit "English") (lit "Finnish")))
    [Backend.JArray [];
     Backend.JObject [(lit "results", Backend.JArray [])];
     Backend.JObject [(lit "results", Backend.JString (lit "abc"))];
     Backend.JObject
       [(lit "results",
         Backend.JArray [Backend.JObject [(lit "text", Backend.JNull)]])];
     Backend.JObject [];
     Backend.JObject
       [(lit "results",
         Backend.JArray [Backend.JObject [(lit "text", Backend.JString (lit "a"))]]);
        (lit "results",
         Backend.JArray [Backend.JObject [(lit "text", Backend.JString (lit "b"))]])]]
  = [None; None; None; None; Some (true, []); Some (true, lit "b")].
Proof. reflexivity. Qed.

(* ------------------------------------------------------------------ *)
(** ** The name of the exported file *)

Lemma endswith_app (s suffix : str) :
  Backend.endswith (s ++ suffix) suffix = true.
Proof.
  unfold Backend.endswith. rewrite rev_app_distr.
  assert (H : forall p r, Backend.strip_prefix p (p ++ r) = Some r).
  { induction p as [|a p IH]; intros r; [reflexivity|].
    simpl. now rewrite Ascii.eqb_refl. }
  now rewrite H.
Qed.

(** X16. The path that [export_srt] writes to ends with [.srt] in some
    mix of upper and lower case; a path that already does is kept as it is,
    so the extension is never added twice. *)
Theorem X16_export_path_extension (file_path : str) :
  Backend.endswith (map TranslationApp.lower (TranslationApp.export_path file_path))
    (lit ".srt") = true /\
  (Backend.endswith (map TranslationApp.lower file_path) (lit ".srt") = true ->
   TranslationApp.export_path file_path = file_path) /\
  TranslationApp.export_path (TranslationApp.export_path file_path)
  = TranslationApp.export_path file_path.
Proof.
  assert (H1 : Backend.endswith
                 (map TranslationApp.lower
                    (TranslationApp.export_path file_path)) (lit ".srt") = true).
  { unfold TranslationApp.export_path.
    destruct (Backend.endswith (map TranslationApp.lower file_path)
                (lit ".srt")) eqn:E; [exact E|].
    rewrite map_app. apply (endswith_app _ (lit ".srt")). }
  split; [exact H1|]. split.
  - intros H. unfold TranslationApp.export_path. now rewrite H.
  - unfold TranslationApp.export_path at 1. now rewrite H1.
Qed.

(** Instance of X16: a path with the extension in upper case. *)
Lemma X16_export_path_extension_witness :
  TranslationApp.export_path (lit "film.SRT") = lit "film.SRT".
Proof.
  destruct (X16_export_path_extension (lit "film.SRT")) as (_ & H & _).
  apply H. reflexivity.
Defined.

(* ------------------------------------------------------------------ *)
(** ** What the parser returns *)

Lemma after_last_nl_In (w : str) : In nl w -> Re.after_last_nl w <> None.
Proof.
  induction w as [|c t IH]; intros H; [destruct H|].
  simpl. destruct (Re.after_last_nl t) as [r|] eqn:E; [discriminate|].
  destruct H as [->|H]; [now rewrite Ascii.eqb_refl | now elim (IH H)].
Qed.

Lemma after_last_nl_some_In (w r : str) :
  Re.after_last_nl w = Some r -> In nl w.
Proof.
  revert r. induction w as [|c t IH]; intros r H; [discriminate|].
  simpl in H. destruct (Re.after_last_nl t) as [r'|] eqn:E.
  - right. now apply (IH r').
  - destruct (Ascii.eqb_spec c nl) as [->|?]; [now left | discriminate].
Qed.

Lemma span_fst_prefix (p : ascii -> bool) (s y : str) :
  exists v, fst (Re.span p (s ++ y)) = fst (Re.span p s) ++ v.
Proof.
  induction s as [|c t (v & IH)].
  - simpl. eauto.
  - cbn [app Re.span]. destruct (p c); [|exists []; reflexivity].
    destruct (Re.span p (t ++ y)) as [a b], (Re.span p t) as [a' b'].
    simpl in *. exists v. now rewrite IH.
Qed.

Lemma span_all_app (p : ascii -> bool) (w y : str) :
  forallb p w = true ->
  Re.span p (w ++ y) = (w ++ fst (Re.span p y), snd (Re.span p y)).
Proof.
  induction w as [|c w IH]; intros H.
  - simpl. now destruct (Re.span p y).
  - simpl in H. apply andb_prop in H as [Hc Hw]. cbn [app Re.span].
    now rewrite Hc, (IH Hw).
Qed.

(** A separator that starts a text also starts every text that goes on
    after it. *)
Lemma blank_at_app (b y : str) :
  Re.blank_at b <> None -> Re.blank_at (b ++ y) <> None.
Proof.
  unfold Re.blank_at. destruct b as [|c t]; [intros H; now elim H|].
  cbn [app]. destruct (Ascii.eqb c nl); [|intros H; now elim H].
  destruct (span_fst_prefix is_space t y) as [v Hv].
  destruct (Re.span is_space t) as [w x], (Re.span is_space (t ++ y)) as [w2 x2].
  simpl in Hv. subst w2.
  destruct (Re.after_last_nl w) as [w'|] eqn:E; [|intros H; now elim H].
  intros _. apply after_last_nl_some_In in E.
  destruct (Re.after_last_nl (w ++ v)) eqn:E2; [discriminate|].
  exfalso. revert E2. apply after_last_nl_In. apply in_or_app. now left.
Qed.

(** A line of whitespace between two newlines is a separator. *)
Lemma blank_at_run (w x : str) :
  forallb is_space w = true -> Re.blank_at (nl :: w ++ nl :: x) <> None.
Proof.
  intros H. unfold Re.blank_at. rewrite Ascii.eqb_refl.
  rewrite (span_all_app is_space w (nl :: x) H). cbn [Re.span].
  change (is_space nl) with true. cbv iota.
  destruct (Re.span is_space x) as [a b]. cbn [fst snd].
  destruct (Re.after_last_nl (w ++ nl :: a)) eqn:E; [discriminate|].
  exfalso. revert E. apply after_last_nl_In. apply in_or_app. right. now left.
Qed.

Lemma find_blank_inv (s p r : str) :
  Re.find_blank s = Some (p, r) -> exists m, s = p ++ m.
Proof.
  revert p. induction s as [|c t IH]; intros p; cbn [Re.find_blank].
  - simpl. discriminate.
  - destruct (Re.blank_at (c :: t)) as [x|].
    + intros [= <- _]. now exists (c :: t).
    + destruct (Re.find_blank t) as [[p' r']|]; [|discriminate].
      intros [= <- <-]. destruct (IH p' eq_refl) as [m ->]. now exists m.
Qed.

Lemma find_blank_none_cons (c : ascii) (t : str) :
  Re.find_blank (c :: t) = None ->
  Re.blank_at (c :: t) = None /\ Re.find_blank t = None.
Proof.
  cbn [Re.find_blank]. destruct (Re.blank_at (c :: t)); [discriminate|].
  destruct (Re.find_blank t) as [[p r]|]; [discriminate | now split].
Qed.

Lemma find_blank_none_suffix (a b : str) :
  Re.find_blank (a ++ b) = None -> Re.find_blank b = None.
Proof.
  induction a as [|c a IH]; [exact (fun H => H)|].
  cbn [app]. intros H. apply find_blank_none_cons in H. now apply IH.
Qed.

Lemma find_blank_none_prefix (b y : str) :
  Re.find_blank (b ++ y) = None -> Re.find_blank b = None.
Proof.
  induction b as [|c t IH]; [reflexivity|].
  cbn [app]. intros H. apply find_blank_none_cons in H. destruct H as [H1 H2].
  cbn [Re.find_blank]. rewrite (IH H2).
  destruct (Re.blank_at (c :: t)) eqn:E; [|reflexivity].
  exfalso. apply (blank_at_app (c :: t) y); [now rewrite E | exact H1].
Qed.

(** What the split puts before a separator has no separator. *)
Lemma find_blank_before (s p r : str) :
  Re.find_blank s = Some (p, r) -> Re.find_blank p = None.
Proof.
  revert p. induction s as [|c t IH]; intros p; cbn [Re.find_blank].
  - simpl. discriminate.
  - destruct (Re.blank_at (c :: t)) as [x|] eqn:E.
    + intros [= <- _]. reflexivity.
    + destruct (Re.find_blank t) as [[p' r']|] eqn:F; [|discriminate].
      intros [= <- <-]. cbn [Re.find_blank]. rewrite (IH p' eq_refl).
      destruct (Re.blank_at (c :: p')) eqn:E2; [|reflexivity].
      destruct (find_blank_inv _ _ _ F) as [m Hm].
      exfalso. apply (blank_at_app (c :: p') m); [now rewrite E2|].
      cbn [app]. now rewrite <- Hm.
Qed.

(** No block that the split returns has a separator. *)
Lemma blank_split_pieces (s : str) :
  Forall (fun p => Re.find_blank p = None) (Re.blank_split s).
Proof.
  remember (length s) as n eqn:Hn.
  revert s Hn. induction n as [n IH] using lt_wf_ind. intros s ->.
  rewrite blank_split_eq.
  destruct (Re.find_blank s) as [[p r]|] eqn:E.
  - constructor; [now apply find_blank_before in E|].
    apply (IH _ (find_blank_shorter _ _ _ E) r eq_refl).
  - now constructor.
Qed.

Lemma lstrip_suffix (s : str) : exists w, s = w ++ lstrip s.
Proof.
  induction s as [|c t (w & IH)]; [now exists []|].
  simpl. destruct (is_space c); [|now exists []].
  exists (c :: w). simpl. now rewrite <- IH.
Qed.

Lemma strip_substring (s : str) : exists a c, s = a ++ strip s ++ c.
Proof.
  unfold strip, rstrip.
  destruct (lstrip_suffix s) as [a Ha].
  destruct (lstrip_suffix (rev (lstrip s))) as [w Hw].
  exists a, (rev w). rewrite <- rev_app_distr, <- Hw, rev_involutive.
  exact Ha.
Qed.

Lemma lstrip_nil_blank (s : str) : lstrip s = [] -> is_blank s = true.
Proof.
  induction s as [|c t IH]; [reflexivity|].
  simpl. unfold is_blank. simpl.
  destruct (is_space c); [exact IH | discriminate].
Qed.

(** What [strip] leaves of a text that is not blank starts and ends with
    characters that are not whitespace. *)
Lemma strip_clean_ends (s : str) : is_blank s = false -> clean_ends (strip s).
Proof.
  intros Hb. unfold strip.
  destruct (lstrip_head s) as [E|(c & t & E & Hc)].
  - apply lstrip_nil_blank in E. congruence.
  - rewrite E. unfold rstrip. cbn [rev].
    destruct (lstrip_snoc (rev t) c Hc) as [v Hv]. rewrite Hv.
    destruct (lstrip_head (rev t ++ [c])) as [E2|(d & t' & E2 & Hd)].
    + rewrite Hv in E2. now destruct v.
    + exists c, (rev v), (rev t'), d.
      split; [now rewrite rev_app_distr|].
      split; [now rewrite <- Hv, E2|]. now split.
Qed.

Lemma not_blank_snoc (u : str) (d : ascii) :
  is_space d = false -> is_blank (u ++ [d]) = false.
Proof.
  intros H. unfold is_blank. rewrite forallb_app. simpl. rewrite H.
  apply andb_false_r.
Qed.

(** In a text without a separator that ends with a character that is not
    whitespace, no line after the first is blank. *)
Lemma later_lines_not_blank (s : str) :
  Re.find_blank s = None ->
  (exists u d, s = u ++ [d] /\ is_space d = false) ->
  Forall (fun l => is_blank l = false) (tl (split_on nl s)).
Proof.
  induction s as [|c t IH]; intros Hfree Hend; [constructor|].
  apply find_blank_none_cons in Hfree. destruct Hfree as [Hat Hfree].
  destruct t as [|c2 t2].
  - cbn [split_on]. destruct (Ascii.eqb_spec c nl) as [->|_]; [|constructor].
    destruct Hend as (u & d & E & Hd).
    destruct u as [|x u]; [injection E as <-; discriminate Hd|].
    destruct u; discriminate E.
  - assert (Hend' : exists u d, c2 :: t2 = u ++ [d] /\ is_space d = false).
    { destruct Hend as ([|x u] & d & E & Hd); [discriminate E|].
      injection E as _ E. eauto. }
    specialize (IH Hfree Hend').
    cbn [split_on]. destruct (split_on_cons nl (c2 :: t2)) as (h & r & Eh).
    pose proof (join_split_on nl (c2 :: t2)) as J.
    cbn [split_on] in Eh. cbn [split_on] in IH, J. rewrite Eh in *.
    destruct (Ascii.eqb_spec c nl) as [->|_]; [|exact IH].
    cbn [tl] in *. constructor; [|exact IH].
    destruct (is_blank h) eqn:Hh; [exfalso | reflexivity].
    destruct r as [|l2 r].
    + simpl in J. destruct Hend' as (u & d & E & Hd).
      rewrite J, E in Hh. now rewrite not_blank_snoc in Hh.
    + rewrite join_cons in J. rewrite <- J in Hat.
      revert Hat. now apply blank_at_run.
Qed.

Lemma lines_of_clean_text (s : str) :
  Re.find_blank s = None -> clean_ends s ->
  Forall (fun l => is_blank l = false) (split_on nl s).
Proof.
  intros Hfree (c & t & u & d & E1 & E2 & Hc & Hd).
  pose proof (later_lines_not_blank s Hfree
                (ex_intro _ u (ex_intro _ d (conj E2 Hd)))) as L.
  rewrite E1 in *. cbn [split_on] in *.
  destruct (Ascii.eqb_spec c nl) as [->|_]; [discriminate Hc|].
  destruct (split_on nl t) as [|h r].
  - constructor; [now apply not_blank_cons | constructor].
  - constructor; [now apply not_blank_cons | exact L].
Qed.

Lemma match_pat_self (p : list Re.pat) (s m r : str) :
  Re.match_pat p s = Some (m, r) -> Re.match_pat p m = Some (m, []).
Proof.
  revert s m r. induction p as [|q p IH]; intros s m r H.
  - simpl in H. now injection H as <- _.
  - destruct s as [|c t]; [discriminate|]. cbn [Re.match_pat] in H.
    destruct (match q with
              | Re.PDigit => is_digit c
              | Re.PChar d => Ascii.eqb c d
              end) eqn:Ec; [|discriminate].
    destruct (Re.match_pat p t) as [[m' r']|] eqn:E; [|discriminate].
    injection H as <- _. cbn [Re.match_pat]. rewrite Ec.
    now rewrite (IH _ _ _ E).
Qed.

Lemma match_timestamp_times (line start stop : str) :
  Re.match_timestamp line = Some (start, stop) ->
  is_time start /\ is_time stop.
Proof.
  unfold Re.match_timestamp, is_time.
  destruct (Re.match_pat Re.time_pat line) as [[g1 r1]|] eqn:E1;
    [|discriminate].
  destruct (Re.match_pat (map Re.PChar Re.arrow) r1) as [[a r2]|];
    [|discriminate].
  destruct (Re.match_pat Re.time_pat r2) as [[g2 r3]|] eqn:E2;
    [|discriminate].
  intros [= <- <-]. split; eapply match_pat_self; eassumption.
Qed.

Lemma suffix_last {A : Type} (x y u : list A) (d : A) :
  x ++ y = u ++ [d] -> y <> [] -> exists u', y = u' ++ [d].
Proof.
  intros E Hy. destruct (exists_last Hy) as (y' & e & ->).
  rewrite app_assoc in E. apply app_inj_tail in E. destruct E as [_ ->].
  now exists y'.
Qed.

(** An entry parsed from a block without a separator has timestamps of the
    right form and a text without blank lines that does not end with
    whitespace. *)
Lemma parse_block_trimmed (b : str) (e : subtitle) :
  Re.find_blank b = None -> SrtParser.parse_block b = Some e ->
  trimmed_entry e.
Proof.
  intros Hfree H. unfold SrtParser.parse_block in H.
  destruct (is_blank b) eqn:Hb; [discriminate|].
  pose proof (strip_clean_ends b Hb) as Hclean.
  assert (Hfree' : Re.find_blank (strip b) = None).
  { destruct (strip_substring b) as (a & c & E). rewrite E in Hfree.
    apply find_blank_none_suffix in Hfree.
    now apply find_blank_none_prefix in Hfree. }
  pose proof (lines_of_clean_text _ Hfree' Hclean) as Hlines.
  pose proof (split_on_lines_free nl (strip b)) as Hnl.
  pose proof (join_split_on nl (strip b)) as J.
  destruct (split_on nl (strip b)) as [|l0 [|l1 [|l2 rest]]];
    try discriminate H.
  cbn [length nth skipn Nat.ltb Nat.leb] in H.
  destruct (py_int (strip l0)) as [n|]; [|discriminate].
  destruct (Re.match_timestamp l1) as [[start stop]|] eqn:Et; [|discriminate].
  injection H as <-.
  destruct (match_timestamp_times _ _ _ Et) as [Hs He].
  inversion Hlines as [|? ? _ Hl1]; subst.
  inversion Hl1 as [|? ? _ Hl2]; subst.
  inversion Hnl as [|? ? _ Hn1]; subst.
  inversion Hn1 as [|? ? _ Hn2]; subst.
  assert (Htext : lines_not_blank (join [nl] (l2 :: rest))).
  { unfold lines_not_blank.
    rewrite split_on_join; [exact Hl2 | discriminate | exact Hn2]. }
  constructor; [constructor; assumption|]. cbn [text].
  destruct Hclean as (_ & _ & u & d & _ & E & _ & Hd).
  rewrite <- J, !join_cons, !app_assoc in E.
  destruct (suffix_last _ _ _ _ E (lines_not_blank_nonempty _ Htext))
    as [u' Hu].
  change (rstrip (join [nl] (l2 :: rest)) = join [nl] (l2 :: rest)).
  rewrite Hu. now apply rstrip_snoc.
Qed.

Lemma parse_blocks_trimmed (blocks : list str) :
  Forall (fun p => Re.find_blank p = None) blocks ->
  Forall trimmed_entry (SrtParser.parse_blocks blocks).
Proof.
  induction 1 as [|b blocks Hb _ IH]; [constructor|].
  cbn [SrtParser.parse_blocks].
  destruct (SrtParser.parse_block b) as [e|] eqn:E; [|exact IH].
  constructor; [now apply (parse_block_trimmed b) | exact IH].
Qed.

Lemma parse_srt_trimmed (x : str) :
  Forall trimmed_entry (SrtParser.parse_srt x).
Proof. apply parse_blocks_trimmed, blank_split_pieces. Qed.

(** X17. Whatever the text, every entry that [parse_srt] returns has two
    timestamps of the form HH:MM:SS,mmm and a text that is not empty, has
    no empty or whitespace-only line and does not end with whitespace. *)
Theorem X17_parsed_entries_are_trimmed (srt_content : str) :
  Forall trimmed_entry (SrtParser.parse_srt srt_content) /\
  Forall (fun e => text e <> []) (SrtParser.parse_srt srt_content).
Proof.
  split; [apply parse_srt_trimmed|].
  pose proof (parse_srt_trimmed srt_content) as H.
  rewrite Forall_forall in *. intros e He.
  destruct (H e He) as [[_ _ Ht] _]. now apply lines_not_blank_nonempty.
Qed.

(** The number of a parsed entry was read by [int], so it can be
    written. *)
Lemma parse_block_printable (b : str) (e : subtitle) :
  SrtParser.parse_block b = Some e -> printable (number e) = true.
Proof.
  unfold SrtParser.parse_block. destruct (is_blank b); [discriminate|].
  destruct (length (split_on nl (strip b)) <? 3); [discriminate|].
  destruct (py_int (strip (nth 0 (split_on nl (strip b)) []))) as [n|] eqn:E;
    [|discriminate].
  destruct (Re.match_timestamp (nth 1 (split_on nl (strip b)) []))
    as [[start stop]|]; [|discriminate].
  intros [= <-]. cbn [number]. exact (py_int_printable _ _ E).
Qed.

Lemma parse_srt_printable (x : str) :
  printable_entries (SrtParser.parse_srt x) = true.
Proof.
  unfold SrtParser.parse_srt, printable_entries.
  induction (Re.blank_split (strip x)) as [|b blocks IH]; [reflexivity|].
  cbn [SrtParser.parse_blocks].
  destruct (SrtParser.parse_block b) as [e|] eqn:E; [|exact IH].
  cbn [forallb]. now rewrite (parse_block_printable b e E), IH.
Qed.

(** X18. Whatever the text, what was parsed from it is serialized without
    an exception, and parsing the serialized form gives the same entries:
    [format_srt (parse_srt x)] is a canonical form of [x], which another
    round of parsing and serializing leaves as it is. *)
Theorem X18_parse_format_parse (srt_content : str) :
  exists written,
    SrtParser.format_srt (SrtParser.parse_srt srt_content) = Some written /\
    SrtParser.parse_srt written = SrtParser.parse_srt srt_content /\
    SrtParser.format_srt (SrtParser.parse_srt written) = Some written.
Proof.
  exists (serialized (SrtParser.parse_srt srt_content)).
  assert (H : SrtParser.parse_srt
                (serialized (SrtParser.parse_srt srt_content))
              = SrtParser.parse_srt srt_content)
    by (apply parse_srt_serialized;
        [apply parse_srt_trimmed | apply parse_srt_printable]).
  rewrite H, format_srt_serialized, parse_srt_printable.
  repeat split.
Qed.

(* ------------------------------------------------------------------ *)
(** ** The two extractions find the same markers *)

Lemma find_marker_until (s p d r : str) :
  Re.find_marker s = Some (p, d, r) ->
  Re.until_marker s = (p, lit "[" ++ d ++ lit "]" ++ r).
Proof.
  revert p. induction s as [|c t IH]; intros p;
    cbn [Re.find_marker Re.until_marker].
  - discriminate.
  - destruct (Re.marker_at (c :: t)) as [[d' r']|] eqn:E.
    + intros [= <- <- <-]. destruct (marker_at_inv _ _ _ E) as [_ ->].
      reflexivity.
    + destruct (Re.find_marker t) as [[[p' d'] r']|]; [|discriminate].
      intros [= <- <- <-]. now rewrite (IH p' eq_refl).
Qed.

Lemma find_marker_none_until (s : str) :
  Re.find_marker s = None -> Re.until_marker s = (s, []).
Proof.
  induction s as [|c t IH]; cbn [Re.find_marker Re.until_marker].
  - reflexivity.
  - destruct (Re.marker_at (c :: t)) as [[d r]|]; [discriminate|].
    destruct (Re.find_marker t) as [[[p d] r]|]; [discriminate|].
    intros _. now rewrite (IH eq_refl).
Qed.

Lemma find_marker_lstrip (s : str) :
  Re.find_marker (lstrip s) =
  match Re.find_marker s with
  | Some (p, d, r) => Some (lstrip p, d, r)
  | None => None
  end.
Proof.
  induction s as [|c t IH]; [reflexivity|].
  cbn [lstrip]. destruct (is_space c) eqn:Ec.
  - rewrite IH. cbn [Re.find_marker].
    assert (Hat : Re.marker_at (c :: t) = None).
    { unfold Re.marker_at.
      destruct (Ascii.eqb_spec c "["%char) as [->|?];
        [discriminate Ec | reflexivity]. }
    rewrite Hat. destruct (Re.find_marker t) as [[[p d] r]|]; [|reflexivity].
    cbn [lstrip]. now rewrite Ec.
  - destruct (Re.find_marker (c :: t)) as [[[p d] r]|] eqn:E; [|reflexivity].
    f_equal. f_equal. f_equal. destruct p as [|x p]; [reflexivity|].
    apply find_marker_inv in E. destruct E as [_ E].
    injection E as <- _. cbn [lstrip]. now rewrite Ec.
Qed.

Lemma find_marker_snoc_nl (s p d r : str) :
  Re.find_marker s = Some (p, d, r) ->
  Re.find_marker (s ++ [nl]) = Some (p, d, r ++ [nl]).
Proof.
  revert p. induction s as [|c t IH]; intros p; cbn [app Re.find_marker].
  - discriminate.
  - destruct (Re.marker_at (c :: t)) as [[d' r']|] eqn:E.
    + intros [= <- <- <-].
      apply (marker_at_app _ [nl]) in E. cbn [app] in E. now rewrite E.
    + apply marker_at_none_nl in E. cbn [app] in E. rewrite E.
      destruct (Re.find_marker t) as [[[p' d'] r']|]; [|discriminate].
      intros [= <- <- <-]. now rewrite (IH p' eq_refl).
Qed.

Lemma strip_lstrip (s : str) : strip (lstrip s) = strip s.
Proof. unfold strip. now rewrite lstrip_idem. Qed.

Lemma lstrip_app_not_blank (t w : str) :
  is_blank t = false -> lstrip (t ++ w) = lstrip t ++ w.
Proof.
  induction t as [|c t IH]; intros H; [discriminate|].
  unfold is_blank in H. simpl in *.
  destruct (is_space c); [now apply IH | reflexivity].
Qed.

(** Whitespace after a text does not change what [strip] leaves of it. *)
Lemma strip_app_spaces (t w : str) :
  forallb is_space w = true -> strip (t ++ w) = strip t.
Proof.
  intros Hw. destruct (is_blank t) eqn:Ht.
  - rewrite (strip_blank t Ht). apply strip_blank.
    unfold is_blank in *. now rewrite forallb_app, Ht, Hw.
  - unfold strip. rewrite (lstrip_app_not_blank t w Ht).
    now apply rstrip_spaces.
Qed.

(** [re.findall] and [re.split] give the same markers, up to the
    whitespace around their texts. *)
Lemma findall_markers_split (s : str) :
  map trim_snd (Re.findall_markers s)
  = map trim_snd (pairs (tl (Re.split_markers s))).
Proof.
  remember (length s) as n eqn:Hn.
  revert s Hn. induction n as [n IH] using lt_wf_ind. intros s ->.
  rewrite findall_markers_eq, split_markers_eq.
  destruct (Re.find_marker s) as [[[p d] r]|] eqn:E; [|reflexivity].
  pose proof (find_marker_shorter _ _ _ _ E) as Hr.
  pose proof (find_marker_lstrip r) as Hl.
  cbn [tl]. rewrite (split_markers_eq r).
  destruct (Re.find_marker r) as [[[p2 d2] r2]|] eqn:E2.
  - rewrite (find_marker_until _ _ _ _ Hl). cbn [fst snd pairs map].
    f_equal; [unfold trim_snd; cbn [fst snd]; now rewrite strip_lstrip|].
    destruct (find_marker_inv _ _ _ _ E2) as [_ Er].
    assert (Hlen : length (lit "[" ++ d2 ++ lit "]" ++ r2) < length s).
    { rewrite Er in Hr. rewrite !length_app in *. lia. }
    rewrite (IH _ Hlen _ eq_refl), split_markers_eq.
    assert (Hm : Re.find_marker (lit "[" ++ d2 ++ lit "]" ++ r2)
                 = Some ([], d2, r2)).
    { pose proof (find_marker_at _ _ _ _ E2) as Hat.
      destruct (lit "[" ++ d2 ++ lit "]" ++ r2) as [|c t] eqn:Em;
        [discriminate Em|].
      cbn [Re.find_marker]. now rewrite Hat. }
    rewrite Hm. reflexivity.
  - rewrite (find_marker_none_until _ Hl). cbn [fst snd pairs map].
    rewrite findall_markers_eq. cbn [Re.find_marker Re.marker_at map].
    unfold trim_snd. cbn [fst snd]. now rewrite strip_lstrip.
Qed.

(** A newline after the response changes no marker, up to the whitespace
    around the texts. *)
Lemma split_markers_snoc_nl (s : str) :
  map trim_snd (pairs (tl (Re.split_markers (s ++ [nl]))))
  = map trim_snd (pairs (tl (Re.split_markers s))).
Proof.
  remember (length s) as n eqn:Hn.
  revert s Hn. induction n as [n IH] using lt_wf_ind. intros s ->.
  rewrite (split_markers_eq s), (split_markers_eq (s ++ [nl])).
  destruct (Re.find_marker s) as [[[p d] r]|] eqn:E.
  - rewrite (find_marker_snoc_nl _ _ _ _ E). cbn [tl].
    pose proof (IH _ (find_marker_shorter _ _ _ _ E) r eq_refl) as IHr.
    rewrite (split_markers_eq r), (split_markers_eq (r ++ [nl])) in *.
    destruct (Re.find_marker r) as [[[p2 d2] r2]|] eqn:E2.
    + rewrite (find_marker_snoc_nl _ _ _ _ E2) in *. cbn [tl] in IHr.
      cbn [pairs map]. f_equal. exact IHr.
    + rewrite (find_marker_none_nl _ E2). cbn [pairs map].
      unfold trim_snd. cbn [fst snd].
      now rewrite (strip_app_spaces r [nl] eq_refl).
  - now rewrite (find_marker_none_nl _ E).
Qed.

Lemma with_value_trim (l : list (str * str)) :
  map trim_snd (map with_value l) = map with_value (map trim_snd l).
Proof. rewrite !map_map. reflexivity. Qed.

(** The two methods find markers with the same digits. *)
Lemma findall_markers_trimmed (response : str) :
  map trim_snd (Re.findall_markers (response ++ [nl]))
  = map trim_snd (pairs (tl (Re.split_markers response))).
Proof. now rewrite findall_markers_split, split_markers_snoc_nl. Qed.

Lemma forallb_readable_trim (a b : list (str * str)) :
  map trim_snd a = map trim_snd b ->
  forallb readable a = forallb readable b.
Proof.
  revert b. induction a as [|[d c] a IH]; intros [|[d' c'] b] H;
    try discriminate; [reflexivity|].
  injection H as -> _ H. cbn [forallb]. now rewrite (IH b H).
Qed.

Lemma filter_readable_all (l : list (str * str)) :
  forallb readable l = true -> filter readable l = l.
Proof.
  intros H. apply filter_all. now apply forallb_forall.
Qed.

Lemma findall_results_markers (response : str) :
  short_markers response = true ->
  map trim_snd (findall_results response) = map trim_snd (markers response).
Proof.
  intros H. unfold findall_results, markers.
  rewrite filter_readable_all.
  - rewrite !with_value_trim. now rewrite findall_markers_trimmed.
  - rewrite (forallb_readable_trim _ _ (findall_markers_trimmed response)).
    exact H.
Qed.

Lemma translated_entries_trim (batch : list subtitle) (ms ms' : list (Z * str)) :
  map trim_snd ms = map trim_snd ms' ->
  translated_entries batch ms = translated_entries batch ms'.
Proof.
  revert ms'. induction ms as [|[n c] ms IH]; intros [|[n' c'] ms'] H;
    try discriminate; [reflexivity|].
  injection H as Hn Hc Hrest. unfold translated_entries in *.
  cbn [flat_map fst snd]. now rewrite Hn, Hc, (IH ms' Hrest).
Qed.

(** X19. On a response that has at least one marker, and in which no
    marker has more than 4300 digits, the method in [KoboldCppClient] and
    the method of the worker return the same batch.  When a marker has more
    than 4300 digits the two differ: the worker raises, and the method in
    [KoboldCppClient] skips that marker and returns a batch. *)
Theorem X19_methods_agree_on_markers (batch : list subtitle) (response : str) :
  Re.find_marker response <> None ->
  (short_markers response = true ->
   KoboldCppClient.reconcile batch response
   = TranslationWorker.reconcile batch response) /\
  (short_markers response = false ->
   TranslationWorker.reconcile batch response = None /\
   exists out, KoboldCppClient.reconcile batch response = Some out).
Proof.
  intros H.
  rewrite (kobold_reconcile_markers batch response
             (findall_markers_found response H)).
  split; intros Hs.
  - rewrite (worker_reconcile_markers _ _ Hs). unfold reconciled.
    now rewrite (translated_entries_trim batch _ _
                   (findall_results_markers response Hs)).
  - rewrite worker_reconcile, Hs. split; [reflexivity | eauto].
Qed.

(** Instance of X19: a response with a marker, a stray line and a number
    that is not in the batch; and a response with a marker of 4301
    digits. *)
Lemma X19_methods_agree_on_markers_witness :
  KoboldCppClient.reconcile [sub 1 "Hello"; sub 2 "World"]
    (lit "Voici :" ++ [nl] ++ lit "[2]  Monde" ++ [nl] ++ lit "[9] ?")
  = TranslationWorker.reconcile [sub 1 "Hello"; sub 2 "World"]
      (lit "Voici :" ++ [nl] ++ lit "[2]  Monde" ++ [nl] ++ lit "[9] ?") /\
  TranslationWorker.reconcile [sub 1 "Hello"]
    (lit "[1] Bonjour [" ++ repeat "9"%char 4301 ++ lit "] ?") = None.
Proof.
  split.
  - destruct (X19_methods_agree_on_markers [sub 1 "Hello"; sub 2 "World"]
                (lit "Voici :" ++ [nl] ++ lit "[2]  Monde" ++ [nl] ++
                 lit "[9] ?")) as [H _]; [discriminate|].
    apply H. reflexivity.
  - destruct (X19_methods_agree_on_markers [sub 1 "Hello"]
                (lit "[1] Bonjour [" ++ repeat "9"%char 4301 ++ lit "] ?"))
      as [_ H]; [discriminate|].
    apply H. vm_compute. reflexivity.
Defined.

(* ------------------------------------------------------------------ *)
(** ** The text sent to the backend can be read back *)

Lemma span_app_stop (p : ascii -> bool) (t y : str) (x : ascii) :
  p x = false ->
  Re.span p (t ++ x :: y) = (fst (Re.span p t), snd (Re.span p t) ++ x :: y).
Proof.
  intros Hx. induction t as [|c t IH]; simpl.
  - now rewrite Hx.
  - destruct (p c); [|reflexivity].
    rewrite IH. now destruct (Re.span p t).
Qed.

(** A marker written with the digits [d]. *)
Lemma marker_at_digits (d r : str) :
  all_digits d -> Re.marker_at (lit "[" ++ d ++ lit "]" ++ r) = Some (d, r).
Proof.
  intros [Hne Hall]. unfold Re.marker_at. cbn [lit list_ascii_of_string app].
  rewrite Ascii.eqb_refl, (span_all_app is_digit d ("]"%char :: r) Hall).
  cbn [Re.span]. change (is_digit "]"%char) with false. cbv iota.
  cbn [fst snd]. rewrite app_nil_r.
  destruct d as [|c d]; [now elim Hne|]. now rewrite Ascii.eqb_refl.
Qed.

(** No marker starts in a text that ends with a newline and has no marker,
    whatever follows the newline. *)
Lemma marker_at_none_before_nl (b y : str) :
  Re.marker_at (b ++ [nl]) = None -> Re.marker_at (b ++ nl :: y) = None.
Proof.
  destruct b as [|c t]; [reflexivity|].
  unfold Re.marker_at. cbn [app].
  destruct (Ascii.eqb c "["%char); [|reflexivity].
  rewrite (span_app_stop is_digit t [] nl eq_refl).
  rewrite (span_app_stop is_digit t y nl eq_refl).
  destruct (Re.span is_digit t) as [d r]. cbn [fst snd].
  destruct d as [|x d]; [now destruct r|].
  destruct r as [|c' r]; [reflexivity|]. cbn [app].
  now destruct (Ascii.eqb c' "]"%char).
Qed.

Lemma find_marker_after_nl (q y : str) :
  Re.find_marker (q ++ [nl]) = None ->
  Re.find_marker (q ++ nl :: y) =
  match Re.find_marker y with
  | Some (p, d, r) => Some (q ++ nl :: p, d, r)
  | None => None
  end.
Proof.
  induction q as [|c q IH]; intros H.
  - cbn [app Re.find_marker]. change (Re.marker_at (nl :: y)) with (@None (str * str)).
    now destruct (Re.find_marker y) as [[[p d] r]|].
  - cbn [app Re.find_marker] in *.
    destruct (Re.marker_at (c :: q ++ [nl])) as [[d r]|] eqn:E; [discriminate|].
    destruct (Re.find_marker (q ++ [nl])) as [[[p d] r]|] eqn:F; [discriminate|].
    change (c :: q ++ nl :: y) with ((c :: q) ++ nl :: y).
    rewrite (marker_at_none_before_nl (c :: q) y E), (IH eq_refl).
    now destruct (Re.find_marker y) as [[[p d] r]|].
Qed.

Lemma find_marker_cons_other (c : ascii) (t : str) :
  c <> "["%char ->
  Re.find_marker (c :: t) =
  match Re.find_marker t with
  | Some (p, d, r) => Some (c :: p, d, r)
  | None => None
  end.
Proof.
  intros H. cbn [Re.find_marker]. unfold Re.marker_at.
  destruct (Ascii.eqb_spec c "["%char) as [->|_]; [now elim H | reflexivity].
Qed.

(** The piece of an entry hides no marker and does not take part in
    one. *)
Lemma find_marker_piece (s : subtitle) (y : str) :
  Re.find_marker (text s) = None ->
  Re.find_marker (prompt_piece s ++ y) =
  match Re.find_marker y with
  | Some (p, d, r) => Some (prompt_piece s ++ p, d, r)
  | None => None
  end.
Proof.
  intros H. unfold prompt_piece.
  assert (H1 : Re.find_marker ((" "%char :: text s ++ [nl]) ++ [nl]) = None).
  { cbn [app]. rewrite find_marker_cons_other by discriminate.
    now rewrite (find_marker_none_nl _ (find_marker_none_nl _ H)). }
  replace ((lit " " ++ text s ++ [nl; nl]) ++ y)
    with ((" "%char :: text s ++ [nl]) ++ nl :: y)
    by (cbn [lit list_ascii_of_string app]; rewrite <- !app_assoc;
        reflexivity).
  rewrite (find_marker_after_nl _ y H1).
  destruct (Re.find_marker y) as [[[p d] r]|]; [|reflexivity].
  f_equal. f_equal. f_equal.
  cbn [lit list_ascii_of_string app]. rewrite <- !app_assoc. reflexivity.
Qed.

Lemma decimal_digits (z : Z) :
  (0 <= z)%Z -> all_digits (decimal z) /\ digits_value (decimal z) = z.
Proof.
  intros H. unfold decimal.
  destruct (Z.ltb_spec z 0) as [?|_]; [lia|].
  destruct (str_of_N_digits (Z.abs_N z)) as [Hd Hv].
  split; [exact Hd | rewrite Hv; lia].
Qed.

Lemma batch_text_cons (s : subtitle) (rest : list subtitle) :
  batch_request (s :: rest)
  = lit "[" ++ decimal (number s) ++ lit "]" ++
    prompt_piece s ++ batch_request rest.
Proof.
  unfold batch_request, prompt_piece. cbn [flat_map].
  rewrite <- !app_assoc. reflexivity.
Qed.

(** The parts that [re.split] makes of the text of a batch: nothing, then
    for each entry its number and its piece. *)
Lemma split_markers_batch_text (batch : list subtitle) :
  Forall (fun s => (0 <= number s)%Z /\ Re.find_marker (text s) = None) batch ->
  Re.split_markers (batch_request batch)
  = [] :: flat_map (fun s => [decimal (number s); prompt_piece s]) batch.
Proof.
  induction 1 as [|s rest [Hn Ht] _ IH]; [reflexivity|].
  rewrite batch_text_cons, split_markers_eq.
  destruct (decimal_digits _ Hn) as [Hd _].
  pose proof (marker_at_digits (decimal (number s))
                (prompt_piece s ++ batch_request rest) Hd) as Hat.
  destruct (lit "[" ++ decimal (number s) ++ lit "]" ++
            prompt_piece s ++ batch_request rest)
    as [|c t] eqn:E; [discriminate E|].
  cbn [Re.find_marker]. rewrite Hat. cbn [flat_map app]. f_equal. f_equal.
  rewrite split_markers_eq, (find_marker_piece s _ Ht).
  rewrite split_markers_eq in IH.
  destruct (Re.find_marker (batch_request rest))
    as [[[p d] r]|].
  - injection IH as -> IH. rewrite app_nil_r. f_equal. exact IH.
  - injection IH as -> IH. rewrite app_nil_r. f_equal. exact IH.
Qed.

Lemma markers_batch_text (batch : list subtitle) :
  Forall (fun s => (0 <= number s)%Z /\ Re.find_marker (text s) = None) batch ->
  markers (batch_request batch)
  = map (fun s => (number s, prompt_piece s)) batch.
Proof.
  intros H. unfold markers. rewrite (split_markers_batch_text batch H).
  cbn [tl]. induction H as [|s rest [Hn _] _ IH]; [reflexivity|].
  cbn [flat_map app pairs map]. rewrite IH. f_equal.
  unfold with_value. cbn [fst snd].
  now destruct (decimal_digits _ Hn) as [_ ->].
Qed.

Lemma strip_prompt_piece (s : subtitle) :
  strip (prompt_piece s) = strip (text s).
Proof.
  unfold prompt_piece. rewrite <- (strip_lstrip (lit " " ++ _)).
  cbn [lit list_ascii_of_string app lstrip]. change (is_space " "%char) with true.
  cbv iota. rewrite strip_lstrip. now apply strip_app_spaces.
Qed.

Lemma translated_entries_own (batch l : list subtitle) :
  NoDup (map number batch) -> incl l batch ->
  translated_entries batch (map (fun s => (number s, prompt_piece s)) l)
  = map (fun s => set_text s (strip (text s))) l.
Proof.
  intros Hnd. induction l as [|s l IH]; intros Hincl; [reflexivity|].
  unfold translated_entries in *. cbn [map flat_map fst snd].
  rewrite translate_marker_find, (find_numbered_NoDup batch s Hnd).
  - rewrite strip_prompt_piece. cbn [app]. f_equal.
    apply IH. intros x Hx. apply Hincl. now right.
  - apply Hincl. now left.
Qed.

Lemma short_markers_batch_text (batch : list subtitle) :
  Forall (fun s => (0 <= number s)%Z /\ Re.find_marker (text s) = None) batch ->
  printable_entries batch = true ->
  short_markers (batch_request batch) = true.
Proof.
  intros H Hp. unfold short_markers.
  rewrite (split_markers_batch_text batch H). cbn [tl].
  unfold printable_entries in Hp.
  induction H as [|s rest [Hn _] _ IH]; [reflexivity|].
  cbn [forallb] in Hp. apply andb_prop in Hp as [Hs Hrest].
  cbn [flat_map app pairs forallb]. rewrite (IH Hrest), andb_true_r.
  unfold readable, decimal. cbn [fst].
  destruct (Z.ltb_spec (number s) 0) as [?|_]; [lia | exact Hs].
Qed.

(** X20. The text that the worker sends for a batch can be read back: for
    a batch whose numbers are pairwise distinct, not negative and of at
    most 4300 digits, and whose texts have no marker, the text of the batch
    is written, and reconciling the batch with it gives every entry with
    its own text trimmed, sorted by number.  A backend that answers with
    one marker per entry in this format is therefore understood entry by
    entry. *)
Theorem X20_batch_text_read_back (batch : list subtitle) :
  NoDup (map number batch) ->
  Forall (fun s => (0 <= number s)%Z /\ Re.find_marker (text s) = None) batch ->
  printable_entries batch = true ->
  exists request,
    TranslationWorker.batch_text batch = Some request /\
    markers request = map (fun s => (number s, prompt_piece s)) batch /\
    TranslationWorker.reconcile batch request
    = Some (sort_by_number
              (map (fun s => set_text s (strip (text s))) batch)).
Proof.
  intros Hnd Hall Hp. exists (batch_request batch).
  split; [now rewrite batch_text_request, Hp|].
  split; [now apply markers_batch_text|].
  rewrite (worker_reconcile_markers _ _
             (short_markers_batch_text batch Hall Hp)).
  rewrite (markers_batch_text batch Hall).
  unfold reconciled.
  rewrite (translated_entries_own batch batch Hnd (incl_refl _)).
  rewrite fill_gaps_full; [reflexivity|].
  rewrite map_map. reflexivity.
Qed.

(** Instance of X20: two entries, one of two lines. *)
Lemma X20_batch_text_read_back_witness :
  exists request,
    TranslationWorker.batch_text
      [sub 2 "World [x]";
       {| number := 1; start_time := ts1; end_time := ts2;
          text := lit "Hello," ++ [nl] ++ lit "you " |}] = Some request /\
    TranslationWorker.reconcile
      [sub 2 "World [x]";
       {| number := 1; start_time := ts1; end_time := ts2;
          text := lit "Hello," ++ [nl] ++ lit "you " |}] request
    = Some [ {| number := 1; start_time := ts1; end_time := ts2;
                text := lit "Hello," ++ [nl] ++ lit "you" |};
             sub 2 "World [x]" ].
Proof.
  destruct (X20_batch_text_read_back
              [sub 2 "World [x]";
               {| number := 1; start_time := ts1; end_time := ts2;
                  text := lit "Hello," ++ [nl] ++ lit "you " |}])
    as (request & H1 & _ & H3).
  - repeat constructor; simpl; intuition discriminate.
  - repeat constructor; simpl; discriminate.
  - reflexivity.
  - exists request. split; [exact H1 | exact H3].
Defined.

(** Instance of X2: a job stopped before its second batch. *)
Lemma X2_window_shows_completed_batches_witness :
  exists w,
    TranslationApp.deliver_all TranslationApp.cleared
      (TranslationWorker._translate_subtitles (failing_from 3)
         (raised_from 1) 0 TranslationWorker.progress_percent
         [sub 1 "A"; sub 2 "B"; sub 3 "C"] 1) = Some w /\
    TranslationApp.translated_subtitles w = [sub 1 "A"].
Proof.
  destruct (X2_window_shows_completed_batches (failing_from 3)
              (raised_from 1) 0 TranslationWorker.progress_percent
              [sub 1 "A"; sub 2 "B"; sub 3 "C"] 1) as (w & H1 & H2 & _).
  exists w. split; [exact H1 | exact H2].
Defined.

(** Instance of X6: a response with one marker for two entries. *)
Lemma X6_reconcile_keeps_slots_witness :
  exists out,
    TranslationWorker.reconcile [sub 1 "Hello"; sub 2 "World"]
      (lit "[2] Monde") = Some out /\
    forall o, In o out ->
      exists s, In s [sub 1 "Hello"; sub 2 "World"] /\ same_slot s o.
Proof.
  destruct (X6_reconcile_keeps_slots [sub 1 "Hello"; sub 2 "World"]
              (lit "[2] Monde")) as [H _].
  destruct (H eq_refl) as (out & H1 & H2).
  exists out. split; [exact H1|].
  intros o Ho. destruct (H2 o Ho) as (s & Hs & Hslot & _).
  exists s. split; assumption.
Defined.

(* ------------------------------------------------------------------ *)
(** ** Stop sequences, and the merging of lines *)

Lemma strip_prefix_self (p r : str) :
  Backend.strip_prefix p (p ++ r) = Some r.
Proof.
  induction p as [|a p IH]; [reflexivity|].
  simpl. now rewrite Ascii.eqb_refl.
Qed.

(** A text that ends with a suffix is what is before it and the suffix. *)
Lemma endswith_true (s suffix : str) :
  Backend.endswith s suffix = true ->
  s = firstn (length s - length suffix) s ++ suffix.
Proof.
  unfold Backend.endswith.
  destruct (Backend.strip_prefix (rev suffix) (rev s)) as [r|] eqn:E;
    [|discriminate].
  intros _. apply strip_prefix_app in E.
  assert (Hs : s = rev r ++ suffix).
  { rewrite <- (rev_involutive s), E, rev_app_distr, rev_involutive.
    reflexivity. }
  rewrite Hs at 2. rewrite Hs at 1. rewrite length_app, Nat.add_sub.
  f_equal. rewrite Hs, firstn_app, Nat.sub_diag, firstn_all. simpl.
  now rewrite app_nil_r.
Qed.

(** X21. Removing the stop sequences takes away the end of the text only:
    nothing, one stop sequence, or ["<start_of_turn>"] followed by
    ["<end_of_turn>"], the order in which the two are tried; what is kept
    is the beginning of the text. *)
Theorem X21_strip_stop_sequences (translation : str) :
  exists removed,
    translation
    = Backend.strip_stop_sequences Backend.stop_sequence translation
      ++ removed /\
    In removed [[]; lit "<end_of_turn>"; lit "<start_of_turn>";
                lit "<start_of_turn>" ++ lit "<end_of_turn>"].
Proof.
  unfold Backend.strip_stop_sequences, Backend.stop_sequence.
  destruct (Backend.endswith translation (lit "<end_of_turn>")) eqn:E1.
  - pose proof (endswith_true _ _ E1) as H1.
    set (t1 := firstn (length translation - length (lit "<end_of_turn>"))
                 translation) in *.
    destruct (Backend.endswith t1 (lit "<start_of_turn>")) eqn:E2.
    + pose proof (endswith_true _ _ E2) as H2.
      exists (lit "<start_of_turn>" ++ lit "<end_of_turn>").
      split; [|simpl; tauto].
      rewrite H1 at 1. rewrite H2 at 1. now rewrite <- app_assoc.
    + exists (lit "<end_of_turn>"). split; [exact H1 | simpl; tauto].
  - destruct (Backend.endswith translation (lit "<start_of_turn>")) eqn:E2.
    + exists (lit "<start_of_turn>").
      split; [now apply endswith_true | simpl; tauto].
    + exists []. split; [now rewrite app_nil_r | simpl; tauto].
Qed.

Example strip_stop_sequences_order :
  map (Backend.strip_stop_sequences Backend.stop_sequence)
    [lit "x<start_of_turn><end_of_turn>"; lit "x<end_of_turn><start_of_turn>"]
  = [lit "x"; lit "x<end_of_turn>"].
Proof. reflexivity. Qed.

Lemma join_cons_more (sep x : str) (l : list str) :
  l <> [] -> join sep (x :: l) = x ++ sep ++ join sep l.
Proof. destruct l; [intros H; now elim H | reflexivity]. Qed.

Lemma app_cons_not_nil {A : Type} (a : list A) (z : A) (r : list A) :
  a ++ z :: r <> [].
Proof. destruct a; discriminate. Qed.

Lemma join_merge (sep c l : str) (a r : list str) :
  join sep (a ++ (c ++ sep ++ l) :: r) = join sep (a ++ c :: l :: r).
Proof.
  induction a as [|x a IH].
  - cbn [app]. rewrite (join_cons sep c l r). destruct r as [|y r].
    + reflexivity.
    + change (join sep ((c ++ sep ++ l) :: y :: r))
        with ((c ++ sep ++ l) ++ sep ++ join sep (y :: r)).
      change (join sep (l :: y :: r)) with (l ++ sep ++ join sep (y :: r)).
      now rewrite <- !app_assoc.
  - cbn [app].
    rewrite (join_cons_more sep x _ (app_cons_not_nil a _ r)).
    rewrite (join_cons_more sep x _ (app_cons_not_nil a c (l :: r))).
    do 2 f_equal. exact IH.
Qed.

Lemma combine_lines_join (lines : list str) :
  Forall (fun l => l <> []) lines ->
  forall current combined,
    join (lit " ") (KoboldCppClient.combine_lines lines current combined)
    = join (lit " ")
        (combined ++
         (if KoboldCppClient.nonempty current then current :: lines
          else lines)).
Proof.
  induction 1 as [|line rest Hline _ IH]; intros current combined.
  - cbn [KoboldCppClient.combine_lines].
    destruct (KoboldCppClient.nonempty current);
      [reflexivity | now rewrite app_nil_r].
  - cbn [KoboldCppClient.combine_lines].
    assert (Hl : KoboldCppClient.nonempty line = true)
      by (destruct line; [now elim Hline | reflexivity]).
    destruct (KoboldCppClient.starts_upper line
              && KoboldCppClient.nonempty current) eqn:E.
    + apply andb_prop in E as [_ Hc]. rewrite IH, Hl, Hc.
      now rewrite <- app_assoc.
    + destruct (KoboldCppClient.nonempty current) eqn:Hc.
      * rewrite IH.
        assert (Hn : KoboldCppClient.nonempty (current ++ lit " " ++ line)
                     = true)
          by (destruct current; [discriminate Hc | reflexivity]).
        rewrite Hn. apply join_merge.
      * rewrite IH, Hl. reflexivity.
Qed.

Lemma combine_lines_length (lines : list str) :
  forall current combined,
    length (KoboldCppClient.combine_lines lines current combined)
    <= length combined + length lines
       + (if KoboldCppClient.nonempty current then 1 else 0).
Proof.
  induction lines as [|line rest IH]; intros current combined.
  - cbn [KoboldCppClient.combine_lines].
    destruct (KoboldCppClient.nonempty current);
      [rewrite length_app; simpl; lia | simpl; lia].
  - cbn [KoboldCppClient.combine_lines length].
    destruct (KoboldCppClient.starts_upper line
              && KoboldCppClient.nonempty current) eqn:E.
    + apply andb_prop in E as [_ Hc]. rewrite Hc.
      specialize (IH line (combined ++ [current])).
      rewrite length_app in IH. simpl in IH.
      destruct (KoboldCppClient.nonempty line); lia.
    + destruct (KoboldCppClient.nonempty current) eqn:Hc.
      * specialize (IH (current ++ lit " " ++ line) combined).
        destruct (KoboldCppClient.nonempty (current ++ lit " " ++ line)); lia.
      * specialize (IH line combined).
        destruct (KoboldCppClient.nonempty line); lia.
Qed.

Lemma not_blank_nonempty (l : str) : is_blank l = false -> l <> [].
Proof. intros H ->. discriminate H. Qed.

(** X22. Merging the non-blank lines of a response into sentences loses no
    text and makes no more sentences than there are lines: the sentences
    joined by spaces are the lines joined by spaces. *)
Theorem X22_combine_lines_keeps_text (response : str) :
  join (lit " ")
    (KoboldCppClient.combine_lines (non_empty_lines response) [] [])
  = join (lit " ") (non_empty_lines response) /\
  length (KoboldCppClient.combine_lines (non_empty_lines response) [] [])
  <= length (non_empty_lines response).
Proof.
  split.
  - rewrite combine_lines_join; [reflexivity|].
    unfold non_empty_lines. apply Forall_forall. intros l Hl.
    apply filter_In in Hl. destruct Hl as [_ Hl].
    apply not_blank_nonempty. now destruct (is_blank l).
  - pose proof (combine_lines_length (non_empty_lines response) [] []) as H.
    simpl in H. lia.
Qed.
